(** * A sequential model of the growing SPMC queue (spmc_queue.h)

    The queue operates on fixed-size opaque byte items.  Its state is the
    C struct [SPMC_Queue] together with the heap of [SPMC_Queue_Block]s that
    [malloc] handed out.  All counters are [uint64_t] and wrap around; the
    emptiness and fullness tests are done on the [int64_t] cast of their
    difference, exactly as in the source.

    Atomic loads and stores are modelled as plain reads and writes: the
    operations are executed one after another.  The single place where another
    thread is allowed to act in the middle of an operation is the window
    between the copy and the compare-and-swap of [spmc_queue_result_pop_weak].

    Memory is modelled byte by byte.  A block is what [malloc] returned for
    the size it was asked, a size that is computed in [uint64_t] and wraps as
    in the source; the offset of a slot wraps likewise; a [memcpy] that leaves
    the block is a fault.
*)

From Stdlib Require Import ZArith Lia.
From Stdlib.Strings Require Import Byte.
From stdpp Require Import base option list gmap.

Local Open Scope Z_scope.

(** ** Machine integers *)

(** The value of a [uint64_t] expression. *)
Definition u64 (z : Z) : Z := z mod 2 ^ 64.

(** The cast [(int64_t) z] of a 64-bit pattern (two's complement). *)
Definition i64 (z : Z) : Z := (z + 2 ^ 63) mod 2 ^ 64 - 2 ^ 63.

Definition INT64_MAX : Z := 2 ^ 63 - 1.
Definition UINT32_MAX : Z := 2 ^ 32 - 1.

(** [sizeof(SPMC_Queue_Block)]: a pointer and a [uint64_t]. *)
Definition SIZEOF_BLOCK : Z := 16.

(** ** Outcomes

    A call either returns, or trips an [ASSERT] / touches memory it must not
    touch ([Fault]), or never returns ([Diverges]). *)

Inductive outcome (A : Type) : Type :=
  | Done (a : A)
  | Fault
  | Diverges.
Arguments Done {A} a.
Arguments Fault {A}.
Arguments Diverges {A}.

#[global] Instance outcome_ret : MRet outcome := @Done.
#[global] Instance outcome_bind : MBind outcome := λ A B f m,
  match m with
  | Done a => f a
  | Fault => Fault
  | Diverges => Diverges
  end.

(** ** Data model *)

(** A block: the header (link to the block it replaced, [capacity - 1]) and the
    bytes that follow it in the allocation.  [blk_size] is the number of those
    bytes: what [malloc] was asked for, less the header.  [blk_data] holds the
    bytes written so far, keyed by their offset from the first byte after the
    header; a byte that was never written is indeterminate and has no entry. *)
Record SPMC_Queue_Block : Type := {
  blk_next : option nat;
  blk_mask : Z;
  blk_size : Z;
  blk_data : gmap Z byte
}.

(** The struct [SPMC_Queue]: the [pop] half then the [push] half.  A block
    pointer is an address in the heap, [None] is [NULL]. *)
Record SPMC_Queue : Type := {
  pop_block : option nat;
  pop_tail : Z;
  pop_estimate_head : Z;
  pop_item_size : Z;
  push_block : option nat;
  push_estimate_tail : Z;
  push_head : Z;
  push_item_size : Z;
  push_max_capacity : Z
}.

Record Machine : Type := {
  heap : gmap nat SPMC_Queue_Block;
  queue : SPMC_Queue
}.

Inductive SPMC_Queue_State : Type :=
  | SPMC_QUEUE_OK
  | SPMC_QUEUE_EMPTY
  | SPMC_QUEUE_FULL
  | SPMC_QUEUE_FAILED_RACE.

#[global] Instance SPMC_Queue_State_eq_dec : EqDecision SPMC_Queue_State.
Proof. solve_decision. Defined.

Record SPMC_Queue_Result : Type := {
  res_head : Z;
  res_tail : Z;
  res_state : SPMC_Queue_State
}.

(** Field stores. *)
Definition set_pop_tail (q : SPMC_Queue) (v : Z) : SPMC_Queue :=
  {| pop_block := pop_block q; pop_tail := v;
     pop_estimate_head := pop_estimate_head q; pop_item_size := pop_item_size q;
     push_block := push_block q; push_estimate_tail := push_estimate_tail q;
     push_head := push_head q; push_item_size := push_item_size q;
     push_max_capacity := push_max_capacity q |}.

Definition set_pop_estimate_head (q : SPMC_Queue) (v : Z) : SPMC_Queue :=
  {| pop_block := pop_block q; pop_tail := pop_tail q;
     pop_estimate_head := v; pop_item_size := pop_item_size q;
     push_block := push_block q; push_estimate_tail := push_estimate_tail q;
     push_head := push_head q; push_item_size := push_item_size q;
     push_max_capacity := push_max_capacity q |}.

Definition set_push_estimate_tail (q : SPMC_Queue) (v : Z) : SPMC_Queue :=
  {| pop_block := pop_block q; pop_tail := pop_tail q;
     pop_estimate_head := pop_estimate_head q; pop_item_size := pop_item_size q;
     push_block := push_block q; push_estimate_tail := v;
     push_head := push_head q; push_item_size := push_item_size q;
     push_max_capacity := push_max_capacity q |}.

Definition set_push_head (q : SPMC_Queue) (v : Z) : SPMC_Queue :=
  {| pop_block := pop_block q; pop_tail := pop_tail q;
     pop_estimate_head := pop_estimate_head q; pop_item_size := pop_item_size q;
     push_block := push_block q; push_estimate_tail := push_estimate_tail q;
     push_head := v; push_item_size := push_item_size q;
     push_max_capacity := push_max_capacity q |}.

(** [queue->push.block = p; atomic_store(&queue->pop.block, p)]. *)
Definition set_blocks (q : SPMC_Queue) (p : option nat) : SPMC_Queue :=
  {| pop_block := p; pop_tail := pop_tail q;
     pop_estimate_head := pop_estimate_head q; pop_item_size := pop_item_size q;
     push_block := p; push_estimate_tail := push_estimate_tail q;
     push_head := push_head q; push_item_size := push_item_size q;
     push_max_capacity := push_max_capacity q |}.

(** ** Memory *)

(** Reading through a block pointer. *)
Definition deref (h : gmap nat SPMC_Queue_Block) (p : nat) : outcome SPMC_Queue_Block :=
  match h !! p with
  | Some b => Done b
  | None => Fault
  end.

(** [malloc(size)]: a fresh address and an allocation of exactly [size]
    bytes, or [NULL] when the allocator refuses.  Whether it refuses is the
    caller's to say ([ok]); the size is the [size_t] the source computed. *)
Definition malloc (h : gmap nat SPMC_Queue_Block) (size : Z) (ok : bool)
  : option (nat * Z) :=
  if ok then Some (fresh (dom h), size) else None.

(** The [n] bytes from offset [off] on; [None] when one of them was never
    written. *)
Fixpoint read_bytes (d : gmap Z byte) (off : Z) (n : nat) : option (list byte) :=
  match n with
  | O => Some []
  | S n' =>
      match d !! off, read_bytes d (off + 1) n' with
      | Some x, Some rest => Some (x :: rest)
      | _, _ => None
      end
  end.

(** The bytes written from offset [off] on. *)
Fixpoint write_bytes (d : gmap Z byte) (off : Z) (bytes : list byte) : gmap Z byte :=
  match bytes with
  | [] => d
  | x :: rest => <[off := x]> (write_bytes d (off + 1) rest)
  end.

(** Whether a [memcpy] of [n] bytes at offset [slot] stays inside the bytes
    of the block ([n] is a [size_t]: a negative [isize] is a huge count). *)
Definition in_block (b : SPMC_Queue_Block) (slot n : Z) : bool :=
  (0 <=? n) && (0 <=? slot) && (slot + n <=? blk_size b).

(** [memcpy(dst, slot, item_size)] out of a block: the [item_size] bytes found
    at the slot.  Leaving the block or reading bytes that were never written
    is a fault. *)
Definition load_item (b : SPMC_Queue_Block) (slot item_size : Z) : outcome (list byte) :=
  if in_block b slot item_size then
    match read_bytes (blk_data b) slot (Z.to_nat item_size) with
    | Some bytes => Done bytes
    | None => Fault
    end
  else Fault.

(** The block after [memcpy(slot, bytes, length bytes)]; the caller checks
    [in_block] first. *)
Definition store_item (b : SPMC_Queue_Block) (slot : Z) (bytes : list byte) : SPMC_Queue_Block :=
  {| blk_next := blk_next b; blk_mask := blk_mask b; blk_size := blk_size b;
     blk_data := write_bytes (blk_data b) slot bytes |}.

(** [_spmc_queue_slot]: the slot of position [i], as the offset
    [mapped*item_size] from the block's first item.  [mapped] is a [uint64_t]
    and so is the product: the offset is reduced modulo [2^64]. *)
Definition _spmc_queue_slot (block : SPMC_Queue_Block) (i item_size : Z) : Z :=
  let mapped := Z.land i (blk_mask block) in
  u64 (mapped * item_size).

(** ** Teardown and initialisation *)

(** The loop of [spmc_queue_deinit]; every turn frees one block, so a fuel of
    [size h] always suffices. *)
Fixpoint free_chain (fuel : nat) (h : gmap nat SPMC_Queue_Block) (curr : option nat)
  : outcome (gmap nat SPMC_Queue_Block) :=
  match curr with
  | None => Done h
  | Some a =>
      match h !! a with
      | None => Fault
      | Some b =>
          match fuel with
          | O => Diverges
          | S fuel' => free_chain fuel' (delete a h) (blk_next b)
          end
      end
  end.

(** [memset(queue, 0, sizeof *queue)]. *)
Definition queue_zero : SPMC_Queue :=
  {| pop_block := None; pop_tail := 0; pop_estimate_head := 0; pop_item_size := 0;
     push_block := None; push_estimate_tail := 0; push_head := 0;
     push_item_size := 0; push_max_capacity := 0 |}.

(** [SPMC_Queue q = {0};] with nothing allocated. *)
Definition machine_zero : Machine := {| heap := ∅; queue := queue_zero |}.

Definition spmc_queue_deinit (m : Machine) : outcome Machine :=
  h ← free_chain (size (heap m)) (heap m) (push_block (queue m));
  mret {| heap := h; queue := queue_zero |}.

Definition spmc_queue_init (m : Machine) (item_size max_capacity_or_negative_if_infinite : Z)
  : outcome Machine :=
  if (0 <? item_size) && (item_size <=? UINT32_MAX) then
    m1 ← spmc_queue_deinit m;
    mret {| heap := heap m1;
            queue := {| pop_block := None; pop_tail := pop_tail (queue m1);
                        pop_estimate_head := pop_estimate_head (queue m1);
                        pop_item_size := item_size;
                        push_block := push_block (queue m1);
                        push_estimate_tail := push_estimate_tail (queue m1);
                        push_head := push_head (queue m1);
                        push_item_size := item_size;
                        push_max_capacity := max_capacity_or_negative_if_infinite |} |}
  else Fault.

(** ** Growth *)

(** [while((isize) new_cap < to_size) new_cap *= 2;].  Starting from 64 the
    value becomes 0 after 58 doublings and stays there, so 64 turns of fuel
    decide whether the loop ends. *)
Fixpoint grow_capacity (fuel : nat) (new_cap to_size : Z) : outcome Z :=
  if i64 new_cap <? to_size then
    match fuel with
    | O => Diverges
    | S fuel' => grow_capacity fuel' (u64 (new_cap * 2)) to_size
    end
  else Done new_cap.

(** [for(uint64_t i = tail; (int64_t) (i - head) < 0; i++) memcpy(...)]:
    the live range is copied slot by slot from the old block to the new one. *)
Fixpoint copy_live (fuel : nat) (i head item_size : Z)
    (old_block new_block : SPMC_Queue_Block) : outcome SPMC_Queue_Block :=
  if i64 (u64 (i - head)) <? 0 then
    match fuel with
    | O => Diverges
    | S fuel' =>
        bytes ← load_item old_block (_spmc_queue_slot old_block i item_size) item_size;
        let slot := _spmc_queue_slot new_block i item_size in
        if in_block new_block slot item_size then
          copy_live fuel' (u64 (i + 1)) head item_size old_block
            (store_item new_block slot bytes)
        else Fault
    end
  else Done new_block.

(** [old_block ? (isize) (old_block->mask + 1) : 0]. *)
Definition block_cap (h : gmap nat SPMC_Queue_Block) (block : option nat) : outcome Z :=
  match block with
  | None => Done 0
  | Some a => b ← deref h a; mret (i64 (u64 (blk_mask b + 1)))
  end.

(** [if(old_block) { ... }]: the new block once the live range [tail, head)
    of the old one is copied into it. *)
Definition migrate (m : Machine) (old_block : option nat) (new_block : SPMC_Queue_Block)
  : outcome SPMC_Queue_Block :=
  match old_block with
  | Some oa =>
      ob ← deref (heap m) oa;
      let tail := pop_tail (queue m) in
      let head := push_head (queue m) in
      copy_live (Z.to_nat (- i64 (u64 (tail - head)))) tail head
        (push_item_size (queue m)) ob new_block
  | None => Done new_block
  end.

Definition _spmc_queue_reserve (m : Machine) (to_size : Z) (malloc_ok : bool)
  : outcome (Machine * option nat) :=
  let q := queue m in
  let old_block := push_block q in
  old_cap ← block_cap (heap m) old_block;
  let max_capacity :=
    if 0 <=? push_max_capacity q then push_max_capacity q else INT64_MAX in
  if (old_cap <? to_size) && (to_size <=? max_capacity) then
    new_cap ← grow_capacity 64 64 to_size;
    (* [sizeof(SPMC_Queue_Block) + new_cap*item_size], all in 64 bits *)
    let size := u64 (SIZEOF_BLOCK + u64 (new_cap * push_item_size q)) in
    match malloc (heap m) size malloc_ok with
    | Some (a, granted) =>
        (* [new_block->next = ...; new_block->mask = ...] need the header *)
        if granted <? SIZEOF_BLOCK then Fault
        else
          new_block ←
            migrate m old_block
              {| blk_next := old_block; blk_mask := u64 (new_cap - 1);
                 blk_size := granted - SIZEOF_BLOCK; blk_data := ∅ |};
          mret ({| heap := <[a := new_block]> (heap m); queue := set_blocks q (Some a) |},
                Some a)
    | None => mret (m, old_block)
    end
  else mret (m, old_block).

Definition spmc_queue_reserve (m : Machine) (to_size : Z) (malloc_ok : bool)
  : outcome Machine :=
  r ← _spmc_queue_reserve m to_size malloc_ok;
  mret (fst r).

(** ** Push *)

(** [block == NULL || (int64_t)(head - tail) > (int64_t) block->mask]. *)
Definition no_room (h : gmap nat SPMC_Queue_Block) (block : option nat) (head tail : Z)
  : outcome bool :=
  match block with
  | None => Done true
  | Some a => b ← deref h a; mret (i64 (blk_mask b) <? i64 (u64 (head - tail)))
  end.

(** The end of [spmc_queue_result_push_st]: write the slot, publish the head. *)
Definition push_publish (m : Machine) (block : option nat) (head tail : Z)
    (item : list byte) (item_size : Z) : outcome (Machine * SPMC_Queue_Result) :=
  match block with
  | None => Fault
  | Some a =>
      b ← deref (heap m) a;
      if Z.of_nat (length item) <? item_size then Fault
      else
        let slot := _spmc_queue_slot b head item_size in
        if in_block b slot item_size then
          let b' := store_item b slot (take (Z.to_nat item_size) item) in
          mret ({| heap := <[a := b']> (heap m);
                   queue := set_push_head (queue m) (u64 (head + 1)) |},
                {| res_head := head; res_tail := tail; res_state := SPMC_QUEUE_OK |})
        else Fault
  end.

Definition spmc_queue_result_push_st (m : Machine) (item : list byte) (item_size : Z)
    (malloc_ok : bool) : outcome (Machine * SPMC_Queue_Result) :=
  let q := queue m in
  if push_item_size q =? item_size then
    let block := push_block q in
    let head := push_head q in
    let tail := push_estimate_tail q in
    full ← no_room (heap m) block head tail;
    if full : bool then
      let tail := pop_tail q in
      let m1 := {| heap := heap m; queue := set_push_estimate_tail q tail |} in
      full ← no_room (heap m1) block head tail;
      if full : bool then
        r ← _spmc_queue_reserve m1 (i64 (u64 (u64 (head - tail) + 1))) malloc_ok;
        let m2 := fst r in
        let new_block := snd r in
        if bool_decide (new_block = block) then
          mret (m2, {| res_head := head; res_tail := tail; res_state := SPMC_QUEUE_FULL |})
        else push_publish m2 new_block head tail item item_size
      else push_publish m1 block head tail item item_size
    else push_publish m block head tail item item_size
  else Fault.


(** ** Pop *)

(** [if(item) memcpy(item, slot, item_size)] with the slot of [tail] in the
    published block; [item] is the caller's buffer, [None] for a NULL pointer. *)
Definition pop_copy (m : Machine) (tail : Z) (item : option (list byte)) (item_size : Z)
  : outcome (option (list byte)) :=
  match item with
  | None => Done None
  | Some buf =>
      match pop_block (queue m) with
      | None => Fault
      | Some a =>
          b ← deref (heap m) a;
          bytes ← load_item b (_spmc_queue_slot b tail item_size) item_size;
          if Z.of_nat (length buf) <? item_size then Fault
          else mret (Some (bytes ++ drop (Z.to_nat item_size) buf))
      end
  end.

Definition spmc_queue_result_pop_st (m : Machine) (item : option (list byte)) (item_size : Z)
  : outcome (Machine * option (list byte) * SPMC_Queue_Result) :=
  let q := queue m in
  if pop_item_size q =? item_size then
    let tail := pop_tail q in
    let head := pop_estimate_head q in
    let finish (m : Machine) (head : Z) :=
      item' ← pop_copy m tail item item_size;
      mret ({| heap := heap m; queue := set_pop_tail (queue m) (u64 (tail + 1)) |},
            item',
            {| res_head := head; res_tail := tail; res_state := SPMC_QUEUE_OK |}) in
    if i64 (u64 (head - tail)) <=? 0 then
      let head := push_head q in
      let m1 := {| heap := heap m; queue := set_pop_estimate_head q head |} in
      if i64 (u64 (head - tail)) <=? 0 then
        mret (m1, item,
              {| res_head := head; res_tail := tail; res_state := SPMC_QUEUE_EMPTY |})
      else finish m1 head
    else finish m head
  else Fault.

(** [atomic_compare_exchange_strong(&q->pop.tail, &tail, tail + 1)] on the
    queue as it is when the instruction runs. *)
Definition cas_tail (m : Machine) (expected desired : Z) : Machine * bool :=
  if pop_tail (queue m) =? expected
  then ({| heap := heap m; queue := set_pop_tail (queue m) desired |}, true)
  else (m, false).

(** [spmc_queue_result_pop_weak], where [others] is what the other threads do
    to the shared state after this thread's copy and before its
    compare-and-swap. *)
Definition pop_weak_among (others : Machine → Machine) (m : Machine)
    (item : option (list byte)) (item_size : Z)
  : outcome (Machine * option (list byte) * SPMC_Queue_Result) :=
  let q := queue m in
  if pop_item_size q =? item_size then
    let tail := pop_tail q in
    let head := pop_estimate_head q in
    let finish (m : Machine) (head : Z) :=
      item' ← pop_copy m tail item item_size;
      let r := cas_tail (others m) tail (u64 (tail + 1)) in
      mret (fst r, item',
            {| res_head := head; res_tail := tail;
               res_state := if snd r then SPMC_QUEUE_OK else SPMC_QUEUE_FAILED_RACE |}) in
    if 0 <=? i64 (u64 (tail - head)) then
      let head := push_head q in
      let m1 := {| heap := heap m; queue := set_pop_estimate_head q head |} in
      if 0 <=? i64 (u64 (tail - head)) then
        mret (m1, item,
              {| res_head := head; res_tail := tail; res_state := SPMC_QUEUE_EMPTY |})
      else finish m1 head
    else finish m head
  else Fault.

(** Executed with no other thread in the window. *)
Definition spmc_queue_result_pop_weak (m : Machine) (item : option (list byte))
    (item_size : Z) : outcome (Machine * option (list byte) * SPMC_Queue_Result) :=
  pop_weak_among id m item item_size.

(** [for(;;)] around [pop_weak]: one entry of [races] per turn in which other
    threads act inside the window; once the list is used up the calling thread
    runs alone, and a turn run alone never loses the race. *)
Fixpoint pop_among (races : list (Machine → Machine)) (m : Machine)
    (item : option (list byte)) (item_size : Z)
  : outcome (Machine * option (list byte) * SPMC_Queue_Result) :=
  match races with
  | [] =>
      r ← spmc_queue_result_pop_weak m item item_size;
      if bool_decide (res_state (snd r) = SPMC_QUEUE_FAILED_RACE) then Diverges
      else mret r
  | others :: races' =>
      r ← pop_weak_among others m item item_size;
      if bool_decide (res_state (snd r) = SPMC_QUEUE_FAILED_RACE)
      then pop_among races' (fst (fst r)) (snd (fst r)) item_size
      else mret r
  end.

Definition spmc_queue_result_pop (m : Machine) (item : option (list byte)) (item_size : Z)
  : outcome (Machine * option (list byte) * SPMC_Queue_Result) :=
  pop_among [] m item item_size.

(** ** Queries *)

(** [block ? (isize) block->mask + 1 : 0] on the published block. *)
Definition spmc_queue_capacity (m : Machine) : outcome Z :=
  match pop_block (queue m) with
  | None => Done 0
  | Some a => b ← deref (heap m) a; mret (i64 (blk_mask b) + 1)
  end.

(** The retry loop of [spmc_queue_count] reads the head and then the tail
    until the tail is the one read before; [diff >= 0] is a test on a
    [uint64_t] and always holds. *)
Fixpoint count_loop (fuel : nat) (m : Machine) (t0 : Z) : outcome Z :=
  let head := push_head (queue m) in
  let tail := pop_tail (queue m) in
  if tail =? t0 then
    let diff := u64 (i64 (u64 (head - tail))) in
    mret (i64 (if 0 <=? diff then diff else 0))
  else
    match fuel with
    | O => Diverges
    | S fuel' => count_loop fuel' m tail
    end.

Definition spmc_queue_count (m : Machine) : outcome Z :=
  count_loop 0 m (pop_tail (queue m)).

(** ** Sequential runs *)

(** One call of the public interface, with what the caller and the allocator
    supply. *)
Inductive call : Type :=
  | Init (item_size max_capacity : Z)
  | Reserve (to_size : Z) (malloc_ok : bool)
  | Push (item : list byte) (item_size : Z) (malloc_ok : bool)
  | PopSt (item : option (list byte)) (item_size : Z)
  | PopWeak (item : option (list byte)) (item_size : Z)
  | Pop (item : option (list byte)) (item_size : Z).

Definition is_init (c : call) : bool :=
  match c with Init _ _ => true | _ => false end.

(** The machine after the call and the state the call reports ([Init] and
    [Reserve] return nothing and are given [SPMC_QUEUE_OK]). *)
Definition step (m : Machine) (c : call) : outcome (Machine * SPMC_Queue_State) :=
  match c with
  | Init item_size max_capacity =>
      m' ← spmc_queue_init m item_size max_capacity; mret (m', SPMC_QUEUE_OK)
  | Reserve to_size malloc_ok =>
      m' ← spmc_queue_reserve m to_size malloc_ok; mret (m', SPMC_QUEUE_OK)
  | Push item item_size malloc_ok =>
      r ← spmc_queue_result_push_st m item item_size malloc_ok;
      mret (fst r, res_state (snd r))
  | PopSt item item_size =>
      r ← spmc_queue_result_pop_st m item item_size;
      mret (fst (fst r), res_state (snd r))
  | PopWeak item item_size =>
      r ← spmc_queue_result_pop_weak m item item_size;
      mret (fst (fst r), res_state (snd r))
  | Pop item item_size =>
      r ← spmc_queue_result_pop m item item_size;
      mret (fst (fst r), res_state (snd r))
  end.

(** The items logically present after a call: a successful push appends the
    pushed bytes, a successful pop removes the oldest item, initialisation
    empties the queue. *)
Definition effect (c : call) (st : SPMC_Queue_State) (l : list (list byte))
  : list (list byte) :=
  match c with
  | Init _ _ => []
  | Reserve _ _ => l
  | Push item item_size _ =>
      if bool_decide (st = SPMC_QUEUE_OK) then l ++ [take (Z.to_nat item_size) item] else l
  | PopSt _ _ | PopWeak _ _ | Pop _ _ =>
      if bool_decide (st = SPMC_QUEUE_OK) then drop 1 l else l
  end.

(** The states a queue can be in: initialised from the zeroed struct, then
    any calls one after another.  The list is the logical content. *)
Inductive reach : Machine → list (list byte) → Prop :=
  | reach_fresh item_size max_capacity m :
      spmc_queue_init machine_zero item_size max_capacity = Done m →
      reach m []
  | reach_step m l c m' st :
      reach m l →
      step m c = Done (m', st) →
      reach m' (effect c st l).

(** The same without re-initialisation, so that the configured ceiling stays
    the one given to [spmc_queue_init]. *)
Inductive reach_from (m0 : Machine) : Machine → Prop :=
  | reach_from_start : reach_from m0 m0
  | reach_from_step m c m' st :
      reach_from m0 m →
      is_init c = false →
      step m c = Done (m', st) →
      reach_from m0 m'.

(** Pushing a list of items, each with the allocator's answer for that call. *)
Fixpoint push_all (m : Machine) (pushes : list (list byte * bool)) (item_size : Z)
  : outcome (Machine * list SPMC_Queue_Result) :=
  match pushes with
  | [] => Done (m, [])
  | p :: rest =>
      r ← spmc_queue_result_push_st m (fst p) item_size (snd p);
      r' ← push_all (fst r) rest item_size;
      mret (fst r', snd r :: snd r')
  end.

(** [n] calls of [pop_st], each into a buffer holding [buf]; the buffer after
    each call and the reported state. *)
Fixpoint pop_all (n : nat) (m : Machine) (buf : list byte) (item_size : Z)
  : outcome (Machine * list (option (list byte) * SPMC_Queue_State)) :=
  match n with
  | O => Done (m, [])
  | S n' =>
      r ← spmc_queue_result_pop_st m (Some buf) item_size;
      r' ← pop_all n' (fst (fst r)) buf item_size;
      mret (fst r', (snd (fst r), res_state (snd r)) :: snd r')
  end.

(** The bytes of an [isize] in memory (little endian). *)
Definition isize_bytes (z : Z) : list byte :=
  map (λ k : Z, default x00 (Byte.of_N (Z.to_N ((u64 z / 2 ^ (8 * k)) mod 256))))
      [0; 1; 2; 3; 4; 5; 6; 7].

Definition is_pow2 (c : Z) : Prop := ∃ k : Z, 0 ≤ k ∧ c = 2 ^ k.

(** ** The representation invariant *)

(** The blocks reachable through [next], in order; each is allocated once. *)
Fixpoint chain (h : gmap nat SPMC_Queue_Block) (p : option nat) (addrs : list nat) : Prop :=
  match addrs with
  | [] => p = None
  | a :: rest =>
      p = Some a ∧ ∃ b, h !! a = Some b ∧ chain (delete a h) (blk_next b) rest
  end.

(** The bytes of [c] items of [item_size] bytes after a header are a size
    that 64 bits can hold: the computation of the size asked from [malloc]
    does not wrap, and neither does the offset of any slot. *)
Definition bytes_fit (c item_size : Z) : Prop :=
  SIZEOF_BLOCK + c * item_size < 2 ^ 64.

(** Item number [i] of the content is what is read in the slot of position
    [T + i]. *)
Definition slots_hold (b : SPMC_Queue_Block) (k item_size T : Z) (l : list (list byte)) : Prop :=
  ∀ (i : nat) (item : list byte),
    l !! i = Some item →
    load_item b (((T + Z.of_nat i) mod 2 ^ k) * item_size) item_size = Done item.

(** The bytes of a block of capacity [2^k]: as many as [malloc] was asked
    for, and holding the content when that size did not wrap. *)
Definition data_ok (b : SPMC_Queue_Block) (k item_size T : Z) (l : list (list byte)) : Prop :=
  SIZEOF_BLOCK + blk_size b = u64 (SIZEOF_BLOCK + u64 (2 ^ k * item_size)) ∧
  (bytes_fit (2 ^ k) item_size → slots_hold b k item_size T l).

(** What holds of the current block: a power-of-two capacity between 64 and
    [2^62] that covers everything between the producer's tail estimate and the
    head.  With no block yet nothing was pushed. *)
Definition block_ok (h : gmap nat SPMC_Queue_Block) (p : option nat)
    (item_size H T T' : Z) (l : list (list byte)) : Prop :=
  match p with
  | None => H = T'
  | Some a =>
      ∃ b k addrs,
        h !! a = Some b ∧ 6 ≤ k ≤ 62 ∧ blk_mask b = 2 ^ k - 1 ∧ H - T' ≤ 2 ^ k ∧
        data_ok b k item_size T l ∧ chain (delete a h) (blk_next b) addrs
  end.

(** [H], [T], [E], [T'] are the head, the tail and the two estimates counted
    without wrap-around. *)
Record Inv (m : Machine) (l : list (list byte)) (H T E T' : Z) : Prop := {
  inv_block_eq : pop_block (queue m) = push_block (queue m);
  inv_size_eq : pop_item_size (queue m) = push_item_size (queue m);
  inv_size_pos : 0 < push_item_size (queue m) ≤ UINT32_MAX;
  inv_order : 0 ≤ T' ≤ T ∧ T ≤ E ≤ H;
  inv_head : push_head (queue m) = u64 H;
  inv_tail : pop_tail (queue m) = u64 T;
  inv_est_head : pop_estimate_head (queue m) = u64 E;
  inv_est_tail : push_estimate_tail (queue m) = u64 T';
  inv_len : H - T = Z.of_nat (length l);
  inv_items : Forall (λ item, Z.of_nat (length item) = push_item_size (queue m)) l;
  inv_storage : block_ok (heap m) (push_block (queue m)) (push_item_size (queue m)) H T T' l
}.

(** What a call of [_spmc_queue_reserve] that allocated has done: block [b] of
    capacity [2^k] sits at a fresh address and is the current block for both
    halves. *)
Definition grew (m m' : Machine) (to_size : Z) : Prop :=
  ∃ a b k old_cap,
    heap m !! a = None ∧ heap m' = <[a := b]> (heap m) ∧
    queue m' = set_blocks (queue m) (Some a) ∧
    blk_next b = push_block (queue m) ∧ blk_mask b = 2 ^ k - 1 ∧ 6 ≤ k ≤ 62 ∧
    to_size ≤ 2 ^ k ∧ (6 < k → 2 ^ (k - 1) < to_size) ∧
    block_cap (heap m) (push_block (queue m)) = Done old_cap ∧ old_cap < to_size ∧
    (0 ≤ push_max_capacity (queue m) → to_size ≤ push_max_capacity (queue m)) ∧
    migrate m (push_block (queue m))
      {| blk_next := push_block (queue m); blk_mask := 2 ^ k - 1;
         blk_size := u64 (SIZEOF_BLOCK + u64 (2 ^ k * push_item_size (queue m)))
                     - SIZEOF_BLOCK;
         blk_data := ∅ |} = Done b ∧
    SIZEOF_BLOCK + blk_size b
      = u64 (SIZEOF_BLOCK + u64 (2 ^ k * push_item_size (queue m))).

(** The capacity of the current block, 0 when there is none. *)
Definition capacity_is (m : Machine) (c : Z) : Prop :=
  match push_block (queue m) with
  | None => c = 0
  | Some a => ∃ b, heap m !! a = Some b ∧ blk_mask b = c - 1
  end.

(** The caller's buffer after [memcpy(item, slot, item_size)] from a slot that
    holds [x]; a buffer shorter than [item_size] is overrun. *)
Definition copy_out (x : list byte) (item : option (list byte)) (item_size : Z)
  : outcome (option (list byte)) :=
  match item with
  | None => Done None
  | Some buf =>
      if Z.of_nat (length buf) <? item_size then Fault
      else Done (Some (x ++ drop (Z.to_nat item_size) buf))
  end.

(** ** Example runs *)

(** The machine an outcome ends in, for runs that are known to return. *)
Definition machine_of {A} (o : outcome (Machine * A)) : Machine :=
  match o with
  | Done r => fst r
  | _ => machine_zero
  end.

(** A queue of 8-byte items as [spmc_queue_init] leaves it. *)
Definition fresh_queue (max_capacity : Z) : Machine :=
  machine_of (m ← spmc_queue_init machine_zero 8 max_capacity; mret (m, ())).

(** An unbounded queue of 8-byte items after the pushes of 0, 1 and 2. *)
Definition three_pushed : Machine :=
  machine_of (push_all (fresh_queue (-1))
                [(isize_bytes 0, true); (isize_bytes 1, true); (isize_bytes 2, true)] 8).

(** Another consumer that runs a whole [pop_st], discarding the item, while
    the calling thread sits between its copy and its compare-and-swap. *)
Definition rival_pop (m : Machine) : Machine :=
  match spmc_queue_result_pop_st m None 8 with
  | Done r => fst (fst r)
  | _ => m
  end.


(** The boundary as it reads for a ceiling [K]: on a queue initialised with
    [max_capacity = K], after [K] pushes that reported OK and no pop, one more
    push reports FULL. *)
Definition full_after_ceiling (K : Z) : Prop :=
  ∀ sz pushes m0 m1 rs item ok,
    spmc_queue_init machine_zero sz K = Done m0 →
    Z.of_nat (length pushes) = K →
    push_all m0 pushes sz = Done (m1, rs) →
    Forall (λ r, res_state r = SPMC_QUEUE_OK) rs →
    ∃ m2 r, spmc_queue_result_push_st m1 item sz ok = Done (m2, r) ∧
            res_state r = SPMC_QUEUE_FULL.

(** The configured ceiling and a current capacity within it. *)
Definition within_ceiling (m : Machine) (K : Z) : Prop :=
  push_max_capacity (queue m) = K ∧ ∃ c, capacity_is m c ∧ c ≤ K.

(** Pushes of the integers [from], [from + 1], ... as 8-byte items, the
    allocator granting every request. *)
Definition pushes_of (from : Z) (n : nat) : list (list byte * bool) :=
  map (λ v, (isize_bytes v, true)) (seqZ from (Z.of_nat n)).

(** The sequential scenario: an unbounded queue of 8-byte items, reserved to
    8 slots, then the pushes of 0..7, then the push of one more value. *)
Definition scenario_reserved : Machine :=
  machine_of (m ← spmc_queue_reserve (fresh_queue (-1)) 8 true; mret (m, ())).

Definition scenario_eight : Machine :=
  machine_of (push_all scenario_reserved (pushes_of 0 8) 8).

Definition scenario_nine : Machine :=
  machine_of (spmc_queue_result_push_st scenario_eight (isize_bytes 10) 8 true).

(** The scenario with its ninth push read as a push that triggers growth: it
    installs a new block. *)
Definition ninth_push_grows : Prop :=
  ∀ m0 m1 m8 rs m9 r,
    spmc_queue_init machine_zero 8 (-1) = Done m0 →
    spmc_queue_reserve m0 8 true = Done m1 →
    push_all m1 (pushes_of 0 8) 8 = Done (m8, rs) →
    spmc_queue_result_push_st m8 (isize_bytes 10) 8 true = Done (m9, r) →
    push_block (queue m9) ≠ push_block (queue m8).

(** ** The rest of the interface *)

(** [spmc_queue_pop_st] and [spmc_queue_pop]: the result reduced to success. *)
Definition spmc_queue_pop_st (m : Machine) (item : option (list byte)) (item_size : Z)
  : outcome (Machine * option (list byte) * bool) :=
  r ← spmc_queue_result_pop_st m item item_size;
  mret (fst r, bool_decide (res_state (snd r) = SPMC_QUEUE_OK)).

Definition spmc_queue_pop (m : Machine) (item : option (list byte)) (item_size : Z)
  : outcome (Machine * option (list byte) * bool) :=
  r ← spmc_queue_result_pop m item item_size;
  mret (fst r, bool_decide (res_state (snd r) = SPMC_QUEUE_OK)).

(** [spmc_queue_count_upper] loads the tail, then the head; [others] is what
    the other threads do between the two loads.  As in [spmc_queue_count] the
    test [diff >= 0] is made on a [uint64_t]. *)
Definition count_upper_among (others : Machine → Machine) (m : Machine) : Z :=
  let tail := pop_tail (queue m) in
  let head := push_head (queue (others m)) in
  let diff := u64 (i64 (u64 (head - tail))) in
  i64 (if 0 <=? diff then diff else 0).

Definition spmc_queue_count_upper (m : Machine) : Z := count_upper_among id m.

(** [spmc_queue_count_lower] loads the head, then the tail. *)
Definition count_lower_among (others : Machine → Machine) (m : Machine) : Z :=
  let head := push_head (queue m) in
  let tail := pop_tail (queue (others m)) in
  let diff := u64 (i64 (u64 (head - tail))) in
  i64 (if 0 <=? diff then diff else 0).

Definition spmc_queue_count_lower (m : Machine) : Z := count_lower_among id m.

(** A sequence of calls run one after another, with the logical content. *)
Fixpoint run (m : Machine) (l : list (list byte)) (cs : list call)
  : outcome (Machine * list (list byte)) :=
  match cs with
  | [] => Done (m, l)
  | c :: cs' => r ← step m c; run (fst r) (effect c (snd r) l) cs'
  end.

(** What the other threads can do to the queue while one call is under way:
    some sequence of calls that does not re-initialise it. *)
Definition interleaved (others : Machine → Machine) (m : Machine) (l l' : list (list byte))
    (cs : list call) : Prop :=
  forallb (λ c, negb (is_init c)) cs = true ∧ run m l cs = Done (others m, l').

(** Every allocated block is on the chain of the current block. *)
Definition owns_heap (m : Machine) : Prop :=
  ∃ addrs, chain (heap m) (push_block (queue m)) addrs ∧ size (heap m) = length addrs.

(** What the ceiling means for the capacity: the capacity is 0, the minimum
    of 64 slots, or less than twice the ceiling. *)
Definition ceiling_respected (m : Machine) : Prop :=
  0 ≤ push_max_capacity (queue m) →
  ∃ c, capacity_is m c ∧ (c = 0 ∨ c = 64 ∨ c < 2 * push_max_capacity (queue m)).

(** From [m] to [m'] no block was freed, and every block that was already
    retired in [m] (allocated, but not the current one) is in [m'] as it was
    and still retired. *)
Definition blocks_kept (m m' : Machine) : Prop :=
  dom (heap m) ⊆ dom (heap m') ∧
  ∀ a b, heap m !! a = Some b → push_block (queue m) ≠ Some a →
         heap m' !! a = Some b ∧ push_block (queue m') ≠ Some a.

(** * Proofs *)

(** ** Facts on machine arithmetic *)

Lemma u64_small z : 0 ≤ z < 2 ^ 64 → u64 z = z.
Proof. intros. unfold u64. by apply Z.mod_small. Qed.

Lemma u64_add_l a b : u64 (u64 a + b) = u64 (a + b).
Proof. unfold u64. by rewrite Zplus_mod_idemp_l. Qed.

Lemma u64_sub a b : u64 (u64 a - u64 b) = u64 (a - b).
Proof. unfold u64. by rewrite <- Zminus_mod. Qed.

Lemma i64_small z : - 2 ^ 63 ≤ z < 2 ^ 63 → i64 z = z.
Proof. intros. unfold i64. rewrite Z.mod_small; lia. Qed.

Lemma i64_u64 z : - 2 ^ 63 ≤ z < 2 ^ 63 → i64 (u64 z) = z.
Proof.
  intros. unfold i64, u64. rewrite Zplus_mod_idemp_l.
  rewrite Z.mod_small; lia.
Qed.

(** The signed distance of two wrapped counters is their true distance. *)
Lemma counter_diff a b : - 2 ^ 63 ≤ a - b < 2 ^ 63 → i64 (u64 (u64 a - u64 b)) = a - b.
Proof. intros. rewrite u64_sub. by apply i64_u64. Qed.

Lemma pow2_le_mono (j k : Z) : 0 ≤ j ≤ k → 2 ^ j ≤ 2 ^ k.
Proof. intros. apply Z.pow_le_mono_r; lia. Qed.

Lemma pow2_pos (k : Z) : 0 ≤ k → 0 < 2 ^ k.
Proof. intros. apply Z.pow_pos_nonneg; lia. Qed.

(** [i & mask] for a power-of-two capacity. *)
Lemma land_mask x k : 0 ≤ k ≤ 64 → Z.land (u64 x) (2 ^ k - 1) = x mod 2 ^ k.
Proof.
  intros Hk. replace (2 ^ k - 1) with (Z.ones k) by (rewrite Z.ones_equiv; lia).
  rewrite Z.land_ones by lia. unfold u64.
  apply Z.mod_mod_divide.
  exists (2 ^ (64 - k)). rewrite <- Z.pow_add_r by lia. f_equal. lia.
Qed.

(** Two positions less than a capacity apart fall into different slots. *)
Lemma slot_distinct x y c : 0 < c → x < y < x + c → x mod c ≠ y mod c.
Proof.
  intros Hc Hxy Heq.
  pose proof (Z.div_mod x c ltac:(lia)). pose proof (Z.div_mod y c ltac:(lia)).
  assert (y - x = c * (y / c - x / c)) by lia.
  assert (0 < y / c - x / c) by nia.
  nia.
Qed.

Lemma offset_distinct a b sz : 0 < sz → a ≠ b → a * sz ≠ b * sz.
Proof. intros. nia. Qed.
(** ** The doubling loop *)

Lemma grow_capacity_zero fuel n : 0 < n → grow_capacity fuel 0 n = Diverges.
Proof.
  intros Hn. induction fuel as [|fuel IH]; cbn [grow_capacity].
  - rewrite i64_small by lia. by destruct (Z.ltb_spec 0 n); [|lia].
  - rewrite i64_small by lia. destruct (Z.ltb_spec 0 n); [|lia].
    by rewrite (u64_small (0 * 2)) by lia.
Qed.

Lemma u64_double_pow2 j : 0 ≤ j ≤ 62 → u64 (2 ^ j * 2) = 2 ^ (j + 1).
Proof.
  intros. rewrite Z.pow_add_r by lia. apply u64_small.
  pose proof (pow2_le_mono j 62 ltac:(lia)). pose proof (pow2_pos j ltac:(lia)). lia.
Qed.

Lemma i64_pow2 j : 0 ≤ j ≤ 62 → i64 (2 ^ j) = 2 ^ j.
Proof.
  intros. apply i64_small.
  pose proof (pow2_le_mono j 62 ltac:(lia)). pose proof (pow2_pos j ltac:(lia)). lia.
Qed.

(** When the loop ends it ends on the first power of two, from the start
    value on, that reaches [to_size]. *)
Lemma grow_capacity_inv fuel j n c :
  0 ≤ j ≤ 62 →
  grow_capacity fuel (2 ^ j) n = Done c →
  ∃ k, j ≤ k ≤ 62 ∧ c = 2 ^ k ∧ n ≤ 2 ^ k ∧ (j < k → 2 ^ (k - 1) < n).
Proof.
  revert j. induction fuel as [|fuel IH]; intros j Hj; cbn [grow_capacity];
    rewrite i64_pow2 by lia; destruct (Z.ltb_spec (2 ^ j) n) as [Hlt|Hge]; try done.
  - intros [= <-]. exists j. repeat split; lia.
  - rewrite u64_double_pow2 by lia.
    destruct (decide (j = 62)) as [->|Hne].
    + intros Hrun. exfalso. destruct fuel as [|fuel]; cbn [grow_capacity] in Hrun.
      * change (i64 (2 ^ (62 + 1))) with (- 2 ^ 63) in Hrun.
        destruct (Z.ltb_spec (- 2 ^ 63) n); [done|lia].
      * change (i64 (2 ^ (62 + 1))) with (- 2 ^ 63) in Hrun.
        destruct (Z.ltb_spec (- 2 ^ 63) n); [|lia].
        change (u64 (2 ^ (62 + 1) * 2)) with 0 in Hrun.
        rewrite grow_capacity_zero in Hrun; [done|].
        pose proof (pow2_pos 62 ltac:(lia)). lia.
    + intros Hrun. apply IH in Hrun as (k & Hk & -> & Hn & Hmin); [|lia].
      exists k. repeat split; try lia.
      intros _. destruct (decide (k = j + 1)) as [->|Hk'].
      * by replace (j + 1 - 1) with j by lia.
      * apply Hmin. lia.
  - intros [= <-]. exists j. repeat split; lia.
Qed.

(** It does end, within the fuel, for every request of at most [2^62]. *)
Lemma grow_capacity_done (fuel : nat) j n :
  0 ≤ j ≤ 62 → n ≤ 2 ^ 62 → 62 - j ≤ Z.of_nat fuel →
  ∃ c, grow_capacity fuel (2 ^ j) n = Done c.
Proof.
  revert j. induction fuel as [|fuel IH]; intros j Hj Hn Hfuel; cbn [grow_capacity];
    rewrite i64_pow2 by lia; destruct (Z.ltb_spec (2 ^ j) n) as [Hlt|Hge]; eauto.
  - assert (j = 62) as -> by lia. lia.
  - rewrite u64_double_pow2 by lia.
    assert (j ≠ 62) by (intros ->; lia).
    apply IH; lia.
Qed.

(** Beyond [2^62] the loop of [_spmc_queue_reserve] never ends, whatever the
    fuel: the capacity wraps to 0 and stays below the request. *)
Lemma grow_capacity_diverges fuel j n :
  0 ≤ j ≤ 62 → 2 ^ 62 < n → grow_capacity fuel (2 ^ j) n = Diverges.
Proof.
  intros Hj Hn. destruct (grow_capacity fuel (2 ^ j) n) as [c| |] eqn:Hrun; [| |done].
  - apply grow_capacity_inv in Hrun as (k & Hk & _ & Hle & _); [|done].
    pose proof (pow2_le_mono k 62 ltac:(lia)). lia.
  - exfalso. revert j Hj Hrun. induction fuel as [|fuel IH]; intros j Hj; cbn [grow_capacity].
    + by destruct (_ <? _).
    + destruct (_ <? _); [|done]. destruct (decide (j = 62)) as [->|].
      * change (u64 (2 ^ 62 * 2)) with (2 ^ 63). destruct fuel; cbn [grow_capacity].
        -- by destruct (_ <? _).
        -- destruct (_ <? _); [|done]. change (u64 (2 ^ 63 * 2)) with 0.
           rewrite grow_capacity_zero; [done|]. pose proof (pow2_pos 62 ltac:(lia)). lia.
      * rewrite u64_double_pow2 by lia. apply IH. lia.
Qed.
(** ** Bytes *)

Lemma write_bytes_out bs : ∀ d off j,
  j < off ∨ off + Z.of_nat (length bs) ≤ j →
  write_bytes d off bs !! j = d !! j.
Proof.
  induction bs as [|x bs IH]; intros d off j Hj; cbn [write_bytes]; [done|].
  cbn [length] in Hj. rewrite lookup_insert_ne by lia. apply IH. lia.
Qed.

Lemma read_bytes_ext n : ∀ d d' off,
  (∀ j, off ≤ j < off + Z.of_nat n → d !! j = d' !! j) →
  read_bytes d off n = read_bytes d' off n.
Proof.
  induction n as [|n IH]; intros d d' off Hext; cbn [read_bytes]; [done|].
  rewrite (Hext off) by lia. rewrite (IH d d' (off + 1)); [done|].
  intros j Hj. apply Hext. lia.
Qed.

Lemma read_write_same bs : ∀ d off,
  read_bytes (write_bytes d off bs) off (length bs) = Some bs.
Proof.
  induction bs as [|x bs IH]; intros d off; cbn [write_bytes read_bytes length]; [done|].
  rewrite lookup_insert_eq.
  rewrite (read_bytes_ext _ _ (write_bytes d (off + 1) bs)).
  - by rewrite IH.
  - intros j Hj. apply lookup_insert_ne. lia.
Qed.

Lemma read_write_other bs d off off' n :
  off' + Z.of_nat n ≤ off ∨ off + Z.of_nat (length bs) ≤ off' →
  read_bytes (write_bytes d off bs) off' n = read_bytes d off' n.
Proof.
  intros Hapart. apply read_bytes_ext. intros j Hj. apply write_bytes_out. lia.
Qed.

Lemma read_bytes_length n : ∀ d off bs,
  read_bytes d off n = Some bs → length bs = n.
Proof.
  induction n as [|n IH]; intros d off bs; cbn [read_bytes].
  - by intros [= <-].
  - destruct (d !! off); [|done].
    destruct (read_bytes d (off + 1) n) as [rest|] eqn:Hrest; [|done].
    intros [= <-]. cbn. f_equal. by eapply IH.
Qed.

(** What was stored in a slot is what is loaded from it. *)
Lemma load_store_same b slot sz bs :
  0 ≤ slot → slot + sz ≤ blk_size b → Z.of_nat (length bs) = sz →
  load_item (store_item b slot bs) slot sz = Done bs.
Proof.
  intros Hslot Hin Hlen. unfold load_item, in_block. cbn [store_item blk_size blk_data].
  destruct (Z.leb_spec 0 sz); [|lia]. destruct (Z.leb_spec 0 slot); [|lia].
  destruct (Z.leb_spec (slot + sz) (blk_size b)); [|lia]. cbn [andb].
  replace (Z.to_nat sz) with (length bs) by lia. by rewrite read_write_same.
Qed.

(** A store leaves the slots that lie apart from it as they were. *)
Lemma load_store_other b slot slot' sz bs :
  Z.of_nat (length bs) = sz →
  slot' + sz ≤ slot ∨ slot + sz ≤ slot' →
  load_item (store_item b slot bs) slot' sz = load_item b slot' sz.
Proof.
  intros Hlen Hapart. unfold load_item, in_block. cbn [store_item blk_size blk_data].
  destruct (_ && _); [|done]. rewrite read_write_other; [done|lia].
Qed.

Lemma load_item_length b slot sz bs :
  load_item b slot sz = Done bs → Z.of_nat (length bs) = sz.
Proof.
  unfold load_item, in_block. destruct (Z.leb_spec 0 sz); [|done].
  destruct (_ && _); [|done].
  destruct (read_bytes _ _ _) as [bs'|] eqn:Hread; [|done].
  intros [= <-]. apply read_bytes_length in Hread. lia.
Qed.

Lemma load_item_returns b slot sz : load_item b slot sz ≠ Diverges.
Proof. unfold load_item. destruct (in_block _ _ _); [|done]. by destruct (read_bytes _ _ _). Qed.

(** ** Slots *)

(** The size of a block whose byte count fits is the plain product. *)
Lemma fit_size b k item_size :
  0 ≤ k → 0 ≤ item_size →
  SIZEOF_BLOCK + blk_size b = u64 (SIZEOF_BLOCK + u64 (2 ^ k * item_size)) →
  bytes_fit (2 ^ k) item_size →
  blk_size b = 2 ^ k * item_size.
Proof.
  unfold bytes_fit, SIZEOF_BLOCK. intros Hk Hsz Hsize Hfit.
  pose proof (pow2_pos k Hk).
  rewrite (u64_small (2 ^ k * item_size)) in Hsize by nia.
  rewrite u64_small in Hsize by nia. lia.
Qed.

Lemma bytes_fit_mono c c' item_size :
  0 ≤ item_size → c ≤ c' → bytes_fit c' item_size → bytes_fit c item_size.
Proof. unfold bytes_fit. intros. nia. Qed.

(** Every block of at least 64 slots of a configured item size fits. *)
Lemma bytes_fit_64 item_size : 0 ≤ item_size ≤ UINT32_MAX → bytes_fit (2 ^ 6) item_size.
Proof. unfold bytes_fit, SIZEOF_BLOCK, UINT32_MAX. lia. Qed.

(** In a block whose bytes fit the offset of a slot does not wrap. *)
Lemma slot_of_position b x k item_size :
  0 ≤ k ≤ 62 → blk_mask b = 2 ^ k - 1 →
  0 ≤ item_size → bytes_fit (2 ^ k) item_size →
  _spmc_queue_slot b (u64 x) item_size = (x mod 2 ^ k) * item_size.
Proof.
  intros Hk Hm Hsz Hfit. unfold _spmc_queue_slot. rewrite Hm, land_mask by lia.
  pose proof (pow2_pos k ltac:(lia)) as Hpos.
  pose proof (Z.mod_pos_bound x (2 ^ k) Hpos).
  apply u64_small. unfold bytes_fit, SIZEOF_BLOCK in Hfit. nia.
Qed.

(** Two positions less than a capacity apart get slots that do not overlap,
    and every slot lies inside the bytes of the capacity. *)
Lemma slots_apart x y k item_size :
  0 ≤ k → 0 < item_size → x < y < x + 2 ^ k →
  (x mod 2 ^ k) * item_size + item_size ≤ (y mod 2 ^ k) * item_size ∨
  (y mod 2 ^ k) * item_size + item_size ≤ (x mod 2 ^ k) * item_size.
Proof.
  intros Hk Hsz Hxy.
  pose proof (slot_distinct x y (2 ^ k) (pow2_pos k Hk) Hxy) as Hne.
  destruct (Z.lt_trichotomy (x mod 2 ^ k) (y mod 2 ^ k)) as [|[|]]; [left; nia|done|right; nia].
Qed.

Lemma slot_inside x k item_size :
  0 ≤ k → 0 ≤ item_size →
  0 ≤ (x mod 2 ^ k) * item_size ∧
  (x mod 2 ^ k) * item_size + item_size ≤ 2 ^ k * item_size.
Proof.
  intros Hk Hsz. pose proof (Z.mod_pos_bound x (2 ^ k) (pow2_pos k Hk)). nia.
Qed.

(** ** The copy loop of the growth *)

Section copy_live.
Variables (ob : SPMC_Queue_Block) (k k' item_size T H : Z).
Variable l : list (list byte).
Variable nxt : option nat.
Hypothesis Hk : 0 ≤ k ≤ 62.
Hypothesis Hk' : 0 ≤ k' ≤ 62.
Hypothesis Hsz : 0 < item_size.
Hypothesis Hob : blk_mask ob = 2 ^ k - 1.
Hypothesis Hlen : H - T = Z.of_nat (length l).
Hypothesis Hroom : Z.of_nat (length l) ≤ 2 ^ k'.
Hypothesis Hsmall : Z.of_nat (length l) < 2 ^ 63.
Hypothesis Hfit : bytes_fit (2 ^ k) item_size.
Hypothesis Hfit' : bytes_fit (2 ^ k') item_size.
Hypothesis Hold : slots_hold ob k item_size T l.
Hypothesis Hitems : Forall (λ item, Z.of_nat (length item) = item_size) l.

Lemma copy_live_from (n j : nat) (nb : SPMC_Queue_Block) :
  (j + n)%nat = length l →
  blk_mask nb = 2 ^ k' - 1 →
  blk_next nb = nxt →
  blk_size nb = 2 ^ k' * item_size →
  (∀ (i : nat) item, (i < j)%nat → l !! i = Some item →
     load_item nb (((T + Z.of_nat i) mod 2 ^ k') * item_size) item_size = Done item) →
  ∃ nb', copy_live n (u64 (T + Z.of_nat j)) (u64 H) item_size ob nb = Done nb' ∧
         blk_mask nb' = 2 ^ k' - 1 ∧ blk_next nb' = nxt ∧
         blk_size nb' = 2 ^ k' * item_size ∧
         slots_hold nb' k' item_size T l.
Proof.
  revert j nb. induction n as [|n IH]; intros j nb Hjn Hmask Hnext Hsize Hdone;
    cbn [copy_live]; rewrite counter_diff by lia.
  - destruct (Z.ltb_spec (T + Z.of_nat j - H) 0); [lia|].
    exists nb. repeat split; try done.
    intros i item Hi. apply Hdone; [|done]. apply lookup_lt_Some in Hi. lia.
  - destruct (Z.ltb_spec (T + Z.of_nat j - H) 0); [|lia].
    destruct (lookup_lt_is_Some_2 l j ltac:(lia)) as [item Hitem].
    assert (Z.of_nat (length item) = item_size) as Hilen.
    { eapply (Forall_lookup_1 _ l) in Hitems; [exact Hitems|exact Hitem]. }
    rewrite (slot_of_position ob _ k), (slot_of_position nb _ k') by (done || lia).
    rewrite (Hold j item Hitem). cbn [mbind outcome_bind].
    destruct (slot_inside (T + Z.of_nat j) k' item_size ltac:(lia) ltac:(lia)) as [Hlo Hhi].
    unfold in_block. rewrite Hsize.
    destruct (Z.leb_spec 0 item_size); [|lia].
    destruct (Z.leb_spec 0 ((T + Z.of_nat j) mod 2 ^ k' * item_size)); [|lia].
    destruct (Z.leb_spec ((T + Z.of_nat j) mod 2 ^ k' * item_size + item_size)
                (2 ^ k' * item_size)); [|lia].
    cbn [andb]. rewrite u64_add_l.
    replace (T + Z.of_nat j + 1) with (T + Z.of_nat (S j)) by lia.
    apply IH; [lia|done|done|done|].
    intros i item' Hi Hitem'.
    destruct (decide (i = j)) as [->|Hne].
    + assert (item' = item) as -> by congruence.
      apply load_store_same; [done|by rewrite Hsize|done].
    + rewrite load_store_other; [apply Hdone; [lia|done]|done|].
      apply lookup_lt_Some in Hitem.
      destruct (decide (i < j)%nat).
      * destruct (slots_apart (T + Z.of_nat i) (T + Z.of_nat j) k' item_size); lia.
      * lia.
Qed.
End copy_live.

(** ** The block chain and its release *)

Lemma free_chain_terminates fuel (h : gmap nat SPMC_Queue_Block) p :
  (size h ≤ fuel)%nat → free_chain fuel h p ≠ Diverges.
Proof.
  revert h p. induction fuel as [|fuel IH]; intros h p Hsize; destruct p as [a|]; cbn; try done.
  - assert (h = ∅) as -> by (apply map_size_empty_inv; lia).
    by rewrite lookup_empty.
  - destruct (h !! a) as [b|] eqn:Hb; [|done].
    apply IH. rewrite map_size_delete_Some by eauto. lia.
Qed.

Lemma chain_length (h : gmap nat SPMC_Queue_Block) p addrs :
  chain h p addrs → (length addrs ≤ size h)%nat.
Proof.
  revert h p. induction addrs as [|a rest IH]; intros h p; cbn; [lia|].
  intros (-> & b & Hb & Hrest). apply IH in Hrest.
  rewrite map_size_delete_Some in Hrest by eauto.
  assert (size h ≠ 0%nat); [|lia].
  intros Hz. apply map_size_empty_inv in Hz. subst h. by rewrite lookup_empty in Hb.
Qed.

Lemma free_chain_done fuel (h : gmap nat SPMC_Queue_Block) p addrs :
  chain h p addrs → (length addrs ≤ fuel)%nat →
  ∃ h', free_chain fuel h p = Done h'.
Proof.
  revert h p fuel. induction addrs as [|a rest IH]; intros h p fuel; cbn.
  - intros -> _. destruct fuel; cbn; eauto.
  - intros (-> & b & Hb & Hrest) Hfuel. destruct fuel as [|fuel]; [lia|].
    cbn. rewrite Hb. eapply IH; [done|lia].
Qed.
Lemma inv_list_small m l H T E T' :
  Inv m l H T E T' → Z.of_nat (length l) ≤ H - T' ∧ H - T' ≤ 2 ^ 62.
Proof.
  intros [? ? ? ? ? ? ? ? ? ? Hst]. split; [lia|].
  unfold block_ok in Hst. destruct (push_block (queue m)); [|lia].
  destruct Hst as (b & k & addrs & _ & Hk & _ & Hle & _).
  pose proof (pow2_le_mono k 62 ltac:(lia)). lia.
Qed.

(** ** Growth *)

Lemma bind_done {A B} (x : outcome A) (f : A → outcome B) (b : B) :
  x ≫= f = Done b → ∃ a, x = Done a ∧ f a = Done b.
Proof. destruct x; cbn; [eauto|done|done]. Qed.

Lemma malloc_fresh (h : gmap nat SPMC_Queue_Block) size ok a granted :
  malloc h size ok = Some (a, granted) → ok = true ∧ h !! a = None ∧ granted = size.
Proof.
  unfold malloc. destruct ok; [|done]. intros [= <- <-]. split_and!; [done| |done].
  apply not_elem_of_dom, is_fresh.
Qed.

Lemma u64_mask k : 0 ≤ k ≤ 62 → u64 (2 ^ k - 1) = 2 ^ k - 1.
Proof.
  intros. apply u64_small. pose proof (pow2_le_mono k 62 ltac:(lia)).
  pose proof (pow2_pos k ltac:(lia)). lia.
Qed.

(** The copy writes items only: link, mask and size of the new block stay. *)
Lemma copy_live_header fuel i head item_size ob nb nb' :
  copy_live fuel i head item_size ob nb = Done nb' →
  blk_next nb' = blk_next nb ∧ blk_mask nb' = blk_mask nb ∧ blk_size nb' = blk_size nb.
Proof.
  revert i nb. induction fuel as [|fuel IH]; intros i nb; cbn [copy_live].
  - destruct (_ <? _); [done|]. by intros [= <-].
  - destruct (_ <? _); [|by intros [= <-]].
    intros Hrun. apply bind_done in Hrun as (bytes & _ & Hrun).
    destruct (in_block _ _ _); [|done].
    by apply IH in Hrun.
Qed.

Lemma migrate_header m old nb nb' :
  migrate m old nb = Done nb' →
  blk_next nb' = blk_next nb ∧ blk_mask nb' = blk_mask nb ∧ blk_size nb' = blk_size nb.
Proof.
  unfold migrate. destruct old as [oa|]; [|by intros [= <-]].
  intros Hrun. apply bind_done in Hrun as (ob & _ & Hrun).
  by apply copy_live_header in Hrun.
Qed.

(** The copy loop ends within its fuel for any pair of counters: each turn
    brings the signed distance to the head one closer to zero. *)
Lemma copy_live_terminates item_size ob head : ∀ (fuel : nat) i nb,
  Z.of_nat fuel = - i64 (u64 (i - head)) ∨ (fuel = 0%nat ∧ 0 ≤ i64 (u64 (i - head))) →
  copy_live fuel i head item_size ob nb ≠ Diverges.
Proof.
  assert (∀ x, i64 (u64 x) < 0 → i64 (u64 (x + 1)) = i64 (u64 x) + 1) as Hnext.
  { intros x. unfold i64, u64. rewrite !Zplus_mod_idemp_l.
    replace (x + 1 + 2 ^ 63) with (x + 2 ^ 63 + 1) by lia.
    pose proof (Z.mod_pos_bound (x + 2 ^ 63) (2 ^ 64) ltac:(lia)) as Hw.
    intros Hneg. rewrite <- (Zplus_mod_idemp_l (x + 2 ^ 63)).
    rewrite (Z.mod_small (_ + 1)) by lia. lia. }
  induction fuel as [|fuel IH]; intros i nb Hfuel; cbn [copy_live].
  - destruct (Z.ltb_spec (i64 (u64 (i - head))) 0); [lia|done].
  - destruct (Z.ltb_spec (i64 (u64 (i - head))) 0); [|done].
    destruct (load_item _ _ _) as [bytes| |] eqn:Hload; cbn [mbind outcome_bind]; [|done|].
    2:{ by apply load_item_returns in Hload. }
    destruct (in_block _ _ _); [|done].
    apply IH.
    assert (i64 (u64 (u64 (i + 1) - head)) = i64 (u64 (i - head)) + 1) as Hstep.
    { unfold u64 at 2. rewrite <- (Hnext (i - head)) by done.
      f_equal. unfold u64. rewrite Zminus_mod_idemp_l. f_equal. lia. }
    rewrite Hstep. destruct (decide (fuel = 0%nat)) as [->|]; [right|left]; lia.
Qed.

(** So the migration of [_spmc_queue_reserve] always ends. *)
Lemma migrate_terminates m old nb : migrate m old nb ≠ Diverges.
Proof.
  unfold migrate. destruct old as [oa|]; [|done]. unfold deref.
  destruct (heap m !! oa) as [ob|]; [|done]. cbn [mbind outcome_bind].
  apply copy_live_terminates.
  destruct (Z.ltb_spec (i64 (u64 (pop_tail (queue m) - push_head (queue m)))) 0);
    [left|right]; lia.
Qed.

(** A call of [_spmc_queue_reserve] either leaves the machine as it is and
    returns the old block, or allocates. *)
Lemma reserve_cases m n ok m' p :
  _spmc_queue_reserve m n ok = Done (m', p) →
  p = push_block (queue m') ∧ (m' = m ∨ grew m m' n).
Proof.
  unfold _spmc_queue_reserve. intros Hrun.
  apply bind_done in Hrun as (old_cap & Hcap & Hrun).
  destruct (Z.ltb_spec old_cap n) as [Hlt|Hge]; cbn [andb] in Hrun;
    [|injection Hrun as <- <-; auto].
  destruct (Z.leb_spec n (if 0 <=? push_max_capacity (queue m)
                          then push_max_capacity (queue m) else INT64_MAX)) as [Hmax|Hmax];
    [|injection Hrun as <- <-; auto].
  apply bind_done in Hrun as (c & Hgrow & Hrun).
  apply (grow_capacity_inv 64 6) in Hgrow as (k & Hk & -> & Hn & Hmin); [|lia].
  destruct (malloc (heap m) _ ok) as [[a granted]|] eqn:Hmalloc;
    [|injection Hrun as <- <-; auto].
  apply malloc_fresh in Hmalloc as (-> & Hfresh & ->).
  destruct (Z.ltb_spec (u64 (SIZEOF_BLOCK + u64 (2 ^ k * push_item_size (queue m))))
              SIZEOF_BLOCK) as [|Hheader]; [done|].
  apply bind_done in Hrun as (nb & Hnb & Hrun). injection Hrun as <- <-.
  rewrite u64_mask in Hnb by lia.
  destruct (migrate_header _ _ _ _ Hnb) as (Hnext & Hmask & Hsize). cbn in Hnext, Hmask, Hsize.
  split; [done|]. right. exists a, nb, k, old_cap. cbn [heap queue].
  split_and!; try done; try lia.
  intros Hpos. revert Hmax. destruct (Z.leb_spec 0 (push_max_capacity (queue m))); [done|lia].
Qed.

(** When the first call of [_spmc_queue_reserve] did not allocate, either
    the allocator refused or nothing was to be done. *)
Lemma reserve_kept m n ok c :
  block_cap (heap m) (push_block (queue m)) = Done c →
  _spmc_queue_reserve m n ok = Done (m, push_block (queue m)) →
  ok = false ∨ n ≤ c ∨ INT64_MAX < n ∨
  (0 ≤ push_max_capacity (queue m) ∧ push_max_capacity (queue m) < n).
Proof.
  intros Hcap. unfold _spmc_queue_reserve. rewrite Hcap. cbn [mbind outcome_bind].
  destruct ok; [|by auto].
  destruct (Z.ltb_spec c n); [|by auto].
  destruct (Z.leb_spec n (if 0 <=? push_max_capacity (queue m)
                          then push_max_capacity (queue m) else INT64_MAX)) as [Hmax|Hmax].
  2:{ intros _. destruct (Z.leb_spec 0 (push_max_capacity (queue m))); auto. }
  cbn [andb].
  destruct (grow_capacity _ _ _) as [c'| |]; [|done..]. cbn [mbind outcome_bind malloc].
  destruct (_ <? SIZEOF_BLOCK); [done|].
  destruct (migrate _ _ _) as [nb| |]; [|done..]. cbn.
  intros [= Hm _]. exfalso.
  apply (f_equal (λ m', heap m' !! fresh (dom (heap m)))) in Hm. cbn in Hm.
  rewrite lookup_insert_eq in Hm.
  by rewrite (proj1 (not_elem_of_dom _ _) (is_fresh (dom (heap m)))) in Hm.
Qed.

(** The migration into a new block that is large enough and whose bytes fit
    returns, and the new block holds the live range. *)
Lemma migrate_live m l H T E T' c k :
  Inv m l H T E T' → 6 ≤ k ≤ 62 → Z.of_nat (length l) ≤ 2 ^ k →
  capacity_is m c → c ≤ 2 ^ k →
  bytes_fit (2 ^ k) (push_item_size (queue m)) →
  ∃ nb,
    migrate m (push_block (queue m))
      {| blk_next := push_block (queue m); blk_mask := 2 ^ k - 1;
         blk_size := u64 (SIZEOF_BLOCK + u64 (2 ^ k * push_item_size (queue m)))
                     - SIZEOF_BLOCK;
         blk_data := ∅ |}
    = Done nb ∧
    blk_mask nb = 2 ^ k - 1 ∧ blk_next nb = push_block (queue m) ∧
    slots_hold nb k (push_item_size (queue m)) T l.
Proof.
  intros HI Hk Hroom Hc Hck Hfit.
  pose proof (inv_list_small _ _ _ _ _ _ HI) as [Hl1 Hl2].
  destruct HI as [Hbe Hse Hsp Hord Hh Ht He Het Hlen Hit Hst].
  unfold migrate, block_ok, capacity_is in *. destruct (push_block (queue m)) as [oa|] eqn:Hold.
  - destruct Hst as (ob & ko & addrs & Hob & Hko & Hobm & Hle & [Hsize Hslots] & Hchain).
    destruct Hc as (ob' & Hob' & Hmask'). rewrite Hob in Hob'. injection Hob' as <-.
    assert (bytes_fit (2 ^ ko) (push_item_size (queue m))) as Hfito.
    { apply (bytes_fit_mono _ (2 ^ k)); [lia| |done]. lia. }
    unfold deref. rewrite Hob. cbn [mbind outcome_bind].
    rewrite Hh, Ht, counter_diff by lia.
    replace (Z.to_nat (- (T - H))) with (length l) by lia.
    replace (u64 T) with (u64 (T + Z.of_nat 0)) by (f_equal; lia).
    destruct (copy_live_from ob ko k (push_item_size (queue m)) T H l (Some oa)
                ltac:(lia) ltac:(lia) ltac:(lia) Hobm Hlen Hroom ltac:(lia) Hfito Hfit
                (Hslots Hfito) Hit (length l) 0%nat
                {| blk_next := Some oa; blk_mask := 2 ^ k - 1;
                   blk_size := u64 (SIZEOF_BLOCK + u64 (2 ^ k * push_item_size (queue m)))
                               - SIZEOF_BLOCK;
                   blk_data := ∅ |})
      as (nb & Hrun & Hm & Hn & _ & Hs); [lia|done|done| |intros; lia|].
    + cbn. unfold bytes_fit, SIZEOF_BLOCK in *. pose proof (pow2_pos k ltac:(lia)).
      rewrite (u64_small (2 ^ k * _)) by nia. rewrite u64_small by nia. lia.
    + exists nb. split; [exact Hrun|]. done.
  - eexists. split_and!; try done.
    assert (l = []) as -> by (destruct l; [done|cbn in *; lia]).
    by intros i item Hi.
Qed.

(** Growth keeps the representation invariant, with the same content. *)
Lemma reserve_inv m l H T E T' n ok m' p :
  Inv m l H T E T' →
  _spmc_queue_reserve m n ok = Done (m', p) →
  Inv m' l H T E T'.
Proof.
  intros HI Hrun. apply reserve_cases in Hrun as [_ [-> | Hgrew]]; [done|].
  destruct Hgrew as (a & nb & k & old_cap & Hfresh & Hheap & Hq & Hnext & Hmask & Hk &
                     Hn & _ & Hcap & Hlt & _ & Hmig & Hsize).
  pose proof (inv_list_small _ _ _ _ _ _ HI) as [Hl1 Hl2].
  assert (∃ c, capacity_is m c ∧ c ≤ 2 ^ k ∧ H - T' ≤ 2 ^ k) as (c & Hc & Hck & Hroom').
  { pose proof (inv_storage _ _ _ _ _ _ HI) as Hst.
    unfold block_ok, block_cap, capacity_is in *.
    destruct (push_block (queue m)) as [oa|].
    - destruct Hst as (ob & ko & addrs & Hob & Hko & Hobm & Hroom & _).
      unfold deref in Hcap. rewrite Hob in Hcap. cbn in Hcap. injection Hcap as <-.
      rewrite Hobm in Hlt. replace (2 ^ ko - 1 + 1) with (2 ^ ko) in Hlt by lia.
      rewrite u64_small, i64_pow2 in Hlt by
        (pose proof (pow2_le_mono ko 62 ltac:(lia)); pose proof (pow2_pos ko ltac:(lia)); lia).
      exists (2 ^ ko). split_and!; [exists ob; split; [done|lia]|lia|lia].
    - pose proof (pow2_pos k ltac:(lia)). exists 0. split_and!; [done|lia|lia]. }
  assert (data_ok nb k (push_item_size (queue m)) T l) as Hdata.
  { split; [done|]. intros Hfit.
    destruct (migrate_live _ _ _ _ _ _ c k HI Hk ltac:(lia) Hc Hck Hfit)
      as (nb' & Hmig' & _ & _ & Hslots).
    rewrite Hmig in Hmig'. by injection Hmig' as <-. }
  pose proof (inv_storage _ _ _ _ _ _ HI) as Hst.
  destruct HI as [Hbe Hse Hsp Hord Hh Ht He Het Hlen Hit _].
  split; rewrite ?Hq, ?Hheap; cbn; try done.
  exists nb. rewrite lookup_insert_eq, delete_insert_eq, delete_id by done.
  unfold block_ok in Hst. rewrite Hnext. destruct (push_block (queue m)) as [oa|].
  - destruct Hst as (ob & ko & addrs & Hob & _ & _ & _ & _ & Hchain).
    exists k, (oa :: addrs). split_and!; try done; try lia.
    cbn. split; [done|]. by exists ob.
  - exists k, []. split_and!; try done; lia.
Qed.

(** ** Push *)

(** Re-reading the consumers' tail keeps the invariant. *)
Lemma inv_refresh_tail m l H T E T' :
  Inv m l H T E T' →
  Inv {| heap := heap m; queue := set_push_estimate_tail (queue m) (pop_tail (queue m)) |}
      l H T E T.
Proof.
  intros [Hbe Hse Hsp Hord Hh Ht He Het Hlen Hit Hst].
  split; cbn; try done; try lia.
  unfold block_ok in *. destruct (push_block (queue m)) as [a|]; [|lia].
  destruct Hst as (b & k & addrs & ? & ? & ? & ? & ? & ?).
  exists b, k, addrs. split_and!; try done; lia.
Qed.

Lemma push_publish_inv m l H T E T' c tl item sz m' r :
  Inv m l H T E T' →
  capacity_is m c → H - T' < c →
  sz = push_item_size (queue m) →
  push_publish m (push_block (queue m)) (u64 H) tl item sz = Done (m', r) →
  Inv m' (l ++ [take (Z.to_nat sz) item]) (H + 1) T E T' ∧
  r = {| res_head := u64 H; res_tail := tl; res_state := SPMC_QUEUE_OK |}.
Proof.
  intros [Hbe Hse Hsp Hord Hh Ht He Het Hlen Hit Hst] Hcap Hroom ->.
  unfold push_publish, capacity_is, block_ok in *.
  destruct (push_block (queue m)) as [a|] eqn:Hblock; [|done].
  destruct Hst as (b & k & addrs & Hb & Hk & Hmask & Hle & [Hsize Hslots] & Hchain).
  destruct Hcap as (b0 & Hb0 & Hmask0). rewrite Hb in Hb0. injection Hb0 as <-.
  assert (c = 2 ^ k) as -> by lia.
  unfold deref. rewrite Hb. cbn [mbind outcome_bind].
  destruct (Z.ltb_spec (Z.of_nat (length item)) (push_item_size (queue m))) as [|Hitem];
    [done|].
  destruct (in_block _ _ _) eqn:Hin; [|done].
  intros [= <- <-]. split; [|done].
  assert (Z.of_nat (length (take (Z.to_nat (push_item_size (queue m))) item))
          = push_item_size (queue m)) as Htake by (rewrite length_take; lia).
  split; cbn; rewrite ?Hblock; try done; try lia.
  - by rewrite u64_add_l.
  - rewrite length_app. cbn. lia.
  - apply Forall_app. split; [done|]. by apply Forall_singleton.
  - eexists _, k, addrs. rewrite lookup_insert_eq. split_and!; try done; try lia.
    + split; [done|]. intros Hfit.
      pose proof (fit_size b k (push_item_size (queue m)) ltac:(lia) ltac:(lia) Hsize Hfit)
        as Hbytes.
      rewrite (slot_of_position b H k) by (done || lia).
      destruct (slot_inside H k (push_item_size (queue m)) ltac:(lia) ltac:(lia)) as [Hlo Hhi].
      intros i x Hi.
      destruct (decide (i < length l)%nat) as [Hlt|Hge].
      * rewrite lookup_app_l in Hi by done.
        rewrite load_store_other; [by apply Hslots|done|].
        destruct (slots_apart (T + Z.of_nat i) H k (push_item_size (queue m))); lia.
      * assert (i = length l) as ->.
        { apply lookup_lt_Some in Hi. rewrite length_app in Hi. cbn in Hi. lia. }
        rewrite list_lookup_middle in Hi by done. injection Hi as <-.
        replace (T + Z.of_nat (length l)) with H by lia.
        apply load_store_same; [lia|cbn; lia|done].
    + by rewrite delete_insert_eq.
Qed.

Lemma no_room_inv m l H T E T' tl X :
  Inv m l H T E T' → X ≤ H → H - X ≤ 2 ^ 62 → tl = u64 X →
  ∃ c, capacity_is m c ∧ 0 ≤ c ∧
       no_room (heap m) (push_block (queue m)) (u64 H) tl = Done (bool_decide (c ≤ H - X)).
Proof.
  intros [Hbe Hse Hsp Hord Hh Ht He Het Hlen Hit Hst] HX1 HX2 ->.
  unfold capacity_is, no_room, block_ok in *.
  destruct (push_block (queue m)) as [a|].
  - destruct Hst as (b & k & addrs & Hb & Hk & Hmask & Hle & Hslots & Hchain).
    pose proof (pow2_le_mono k 62 ltac:(lia)). pose proof (pow2_pos k ltac:(lia)).
    exists (2 ^ k). split; [exists b; split; [done|lia]|]. split; [lia|].
    unfold deref. rewrite Hb. cbn. rewrite Hmask, i64_small, counter_diff by lia.
    f_equal. destruct (Z.ltb_spec (2 ^ k - 1) (H - X)).
    + by rewrite bool_decide_eq_true_2 by lia.
    + by rewrite bool_decide_eq_false_2 by lia.
  - exists 0. repeat split; try lia. by rewrite bool_decide_eq_true_2 by lia.
Qed.
(** The three ways through [spmc_queue_result_push_st]: room by the cached
    estimate, room after re-reading the tail, or a call of the growth. *)
Lemma push_cases m item sz ok m' r :
  spmc_queue_result_push_st m item sz ok = Done (m', r) →
  let q := queue m in
  let m1 := {| heap := heap m; queue := set_push_estimate_tail q (pop_tail q) |} in
  sz = push_item_size q ∧
  ((no_room (heap m) (push_block q) (push_head q) (push_estimate_tail q) = Done false ∧
    push_publish m (push_block q) (push_head q) (push_estimate_tail q) item sz = Done (m', r))
   ∨ (no_room (heap m) (push_block q) (push_head q) (pop_tail q) = Done false ∧
      push_publish m1 (push_block q) (push_head q) (pop_tail q) item sz = Done (m', r))
   ∨ (no_room (heap m) (push_block q) (push_head q) (pop_tail q) = Done true ∧
      ∃ m2 p,
        _spmc_queue_reserve m1 (i64 (u64 (u64 (push_head q - pop_tail q) + 1))) ok
          = Done (m2, p) ∧
        ((p = push_block q ∧ m' = m2 ∧
          r = {| res_head := push_head q; res_tail := pop_tail q;
                 res_state := SPMC_QUEUE_FULL |})
         ∨ (p ≠ push_block q ∧
            push_publish m2 p (push_head q) (pop_tail q) item sz = Done (m', r))))).
Proof.
  unfold spmc_queue_result_push_st. cbn zeta.
  destruct (Z.eqb_spec (push_item_size (queue m)) sz) as [<-|]; [|done].
  intros Hrun. split; [done|].
  apply bind_done in Hrun as ([|] & Hfull & Hrun); [|by left].
  right. cbn [heap] in Hrun.
  apply bind_done in Hrun as ([|] & Hfull' & Hrun); [|by left].
  right. split; [done|].
  apply bind_done in Hrun as ([m2 p] & Hres & Hrun). cbn [fst snd] in Hrun.
  exists m2, p. split; [done|].
  case_bool_decide as Hp.
  - injection Hrun as <- <-. by left.
  - by right.
Qed.

(** Publishing an item rewrites the current block in place. *)
Lemma push_publish_frame m p hd tl item sz m' r :
  push_publish m p hd tl item sz = Done (m', r) →
  res_state r = SPMC_QUEUE_OK ∧
  queue m' = set_push_head (queue m) (u64 (hd + 1)) ∧
  ∃ a b, p = Some a ∧ heap m !! a = Some b ∧
         heap m' = <[a := store_item b (_spmc_queue_slot b hd sz) (take (Z.to_nat sz) item)]> (heap m).
Proof.
  unfold push_publish. destruct p as [a|]; [|done]. unfold deref.
  destruct (heap m !! a) as [b|] eqn:Hb; [|done]. cbn [mbind outcome_bind].
  destruct (_ <? _); [done|]. destruct (in_block _ _ _); [|done].
  intros [= <- <-]. cbn. eauto 10.
Qed.

(** Publishing an item keeps the capacity of the current block. *)
Lemma publish_keeps_capacity m p hd tl item sz m' r c :
  capacity_is m c → p = push_block (queue m) →
  push_publish m p hd tl item sz = Done (m', r) → capacity_is m' c.
Proof.
  intros Hc -> Hpub.
  apply push_publish_frame in Hpub as (_ & Hq & a & b & Ha & Hb & Hheap).
  unfold capacity_is in *. rewrite Hq. cbn. rewrite Ha in Hc |- *.
  destruct Hc as (b1 & Hb1 & Hm1). rewrite Hb in Hb1. injection Hb1 as <-.
  eexists. rewrite Hheap, lookup_insert_eq. split; [done|]. by cbn.
Qed.

(** A refused push has only refreshed the producer's tail estimate. *)
Lemma push_full_frame m item sz ok m' r :
  spmc_queue_result_push_st m item sz ok = Done (m', r) →
  res_state r = SPMC_QUEUE_FULL →
  m' = {| heap := heap m;
          queue := set_push_estimate_tail (queue m) (pop_tail (queue m)) |}.
Proof.
  intros Hrun Hfull. apply push_cases in Hrun as [_ Hcases]. cbn zeta in Hcases.
  destruct Hcases as [[_ Hpub]|[[_ Hpub]|(Hno & m2 & p & Hres & Hcases)]].
  - apply push_publish_frame in Hpub as [? _]. congruence.
  - apply push_publish_frame in Hpub as [? _]. congruence.
  - destruct Hcases as [(-> & -> & _)|[_ Hpub]].
    + apply reserve_cases in Hres as [Hp [->|Hgrew]]; [done|exfalso].
      destruct Hgrew as (a & nb & k & oc & Hfresh & _ & Hq & _).
      rewrite Hq in Hp. cbn in Hp, Hfresh. unfold no_room in Hno.
      rewrite Hp in Hno. unfold deref in Hno. by rewrite Hfresh in Hno.
    + apply push_publish_frame in Hpub as [? _]. congruence.
Qed.

(** A push writes no field of the consumers' half and leaves item size and
    ceiling as configured. *)
Lemma push_frame m item sz ok m' r :
  spmc_queue_result_push_st m item sz ok = Done (m', r) →
  push_item_size (queue m') = push_item_size (queue m) ∧
  pop_item_size (queue m') = pop_item_size (queue m) ∧
  push_max_capacity (queue m') = push_max_capacity (queue m) ∧
  pop_tail (queue m') = pop_tail (queue m) ∧
  pop_estimate_head (queue m') = pop_estimate_head (queue m).
Proof.
  intros Hrun. apply push_cases in Hrun as [_ Hcases]. cbn zeta in Hcases.
  destruct Hcases as [[_ Hpub]|[[_ Hpub]|(_ & m2 & p & Hres & [(_ & -> & _)|[_ Hpub]])]].
  - by apply push_publish_frame in Hpub as (_ & -> & _).
  - by apply push_publish_frame in Hpub as (_ & -> & _).
  - by apply reserve_cases in Hres as [_ [->|(?&?&?&?&_&_&->&_)]].
  - apply push_publish_frame in Hpub as (_ & -> & _).
    by apply reserve_cases in Hres as [_ [->|(?&?&?&?&_&_&->&_)]].
Qed.

Lemma push_inv m l H T E T' item sz ok m' r :
  Inv m l H T E T' →
  spmc_queue_result_push_st m item sz ok = Done (m', r) →
  res_head r = u64 H ∧
  ((res_state r = SPMC_QUEUE_OK ∧
    ∃ T'', Inv m' (l ++ [take (Z.to_nat sz) item]) (H + 1) T E T'') ∨
   (res_state r = SPMC_QUEUE_FULL ∧ Inv m' l H T E T)).
Proof.
  intros HI Hrun.
  pose proof (inv_list_small _ _ _ _ _ _ HI) as [Hl1 Hl2].
  pose proof (inv_refresh_tail _ _ _ _ _ _ HI) as HI1.
  pose proof (inv_order _ _ _ _ _ _ HI) as Hord.
  pose proof (inv_len _ _ _ _ _ _ HI) as Hlen.
  destruct (no_room_inv m l H T E T' (u64 T') T' HI) as (c & Hc & Hc0 & Hno1); [lia..|done|].
  destruct (no_room_inv m l H T E T' (u64 T) T HI) as (c' & Hc' & _ & Hno2); [lia..|done|].
  assert (c' = c) as ->.
  { unfold capacity_is in *. destruct (push_block (queue m)); [|lia].
    destruct Hc as (b & Hb & ?), Hc' as (b' & Hb' & ?). rewrite Hb in Hb'.
    injection Hb' as <-. lia. }
  apply push_cases in Hrun as [-> Hcases]. cbn zeta in Hcases.
  set (m1 := {| heap := heap m;
                queue := set_push_estimate_tail (queue m) (pop_tail (queue m)) |}) in *.
  rewrite (inv_head _ _ _ _ _ _ HI), (inv_tail _ _ _ _ _ _ HI),
    (inv_est_tail _ _ _ _ _ _ HI) in Hcases.
  rewrite Hno1, Hno2 in Hcases.
  destruct Hcases as [[Hroom Hpub]|[[Hroom Hpub]|(Hroom & m2 & p & Hres & Hcases)]].
  - injection Hroom as Hroom. apply bool_decide_eq_false in Hroom.
    eapply push_publish_inv in Hpub as [HI' ->]; [|done|exact Hc|lia|done].
    split; [done|]. left. eauto.
  - injection Hroom as Hroom. apply bool_decide_eq_false in Hroom.
    apply (push_publish_inv m1 l H T E T c) in Hpub as [HI' ->]; [|exact HI1|exact Hc|lia|done].
    split; [done|]. left. eauto.
  - injection Hroom as Hroom. apply bool_decide_eq_true in Hroom.
    pose proof (reserve_inv _ _ _ _ _ _ _ _ _ _ HI1 Hres) as HI2.
    destruct Hcases as [(-> & -> & ->)|[Hp Hpub]].
    + split; [done|]. by right.
    + apply reserve_cases in Hres as [-> [->|Hgrew]]; [done|].
      destruct Hgrew as (a & nb & k & oc & Hfresh & Hheap & Hq & Hnext & Hmask & Hk &
                         Hn & _).
      rewrite u64_sub, u64_add_l, i64_u64 in Hn by lia.
      eapply (push_publish_inv _ _ _ _ _ _ (2 ^ k)) in Hpub as [HI' ->];
        [|exact HI2| |lia|by rewrite Hq].
      * split; [done|]. left. eauto.
      * unfold capacity_is. rewrite Hq, Hheap. cbn. exists nb.
        rewrite lookup_insert_eq. split; [done|lia].
Qed.
(** ** Pop *)

(** The copy reads the heap and the block pointer only. *)
Lemma pop_copy_refresh m hd tl item sz :
  pop_copy {| heap := heap m; queue := set_pop_estimate_head (queue m) hd |} tl item sz
  = pop_copy m tl item sz.
Proof. done. Qed.

(** The copy out of the oldest slot yields the oldest item, in a block whose
    bytes fit. *)
Lemma pop_copy_oldest m x l H T E T' c item sz :
  Inv m (x :: l) H T E T' →
  capacity_is m c → bytes_fit c sz →
  sz = pop_item_size (queue m) →
  pop_copy m (u64 T) item sz = copy_out x item sz.
Proof.
  intros [Hbe Hse Hsp Hord Hh Ht He Het Hlen Hit Hst] Hc Hfit ->.
  unfold pop_copy, copy_out. destruct item as [buf|]; [|done].
  rewrite Hbe. unfold block_ok, capacity_is in *.
  destruct (push_block (queue m)) as [a|]; [|cbn in Hlen; lia].
  destruct Hst as (b & k & addrs & Hb & Hk & Hmask & Hle & [Hsize Hslots] & Hchain).
  destruct Hc as (b' & Hb' & Hmask'). rewrite Hb in Hb'. injection Hb' as <-.
  assert (c = 2 ^ k) as -> by lia. rewrite Hse in *.
  unfold deref. rewrite Hb. cbn [mbind outcome_bind].
  rewrite (slot_of_position b T k) by (done || lia).
  specialize (Hslots Hfit 0%nat x eq_refl). rewrite Z.add_0_r in Hslots.
  by rewrite Hslots.
Qed.

Lemma copy_out_fits x item sz :
  (∀ buf, item = Some buf → sz ≤ Z.of_nat (length buf)) →
  copy_out x item sz = Done ((λ buf, x ++ drop (Z.to_nat sz) buf) <$> item).
Proof.
  intros Hbuf. destruct item as [buf|]; [|done]. cbn.
  specialize (Hbuf buf eq_refl). by destruct (Z.ltb_spec (Z.of_nat (length buf)) sz); [lia|].
Qed.


Lemma inv_refresh_head m l H T E T' :
  Inv m l H T E T' →
  Inv {| heap := heap m; queue := set_pop_estimate_head (queue m) (push_head (queue m)) |}
      l H T H T'.
Proof.
  intros [Hbe Hse Hsp Hord Hh Ht He Het Hlen Hit Hst].
  split; cbn; try done; lia.
Qed.

Lemma inv_advance_tail m x l H T E T' :
  Inv m (x :: l) H T E T' → T < E →
  Inv {| heap := heap m; queue := set_pop_tail (queue m) (u64 (u64 T + 1)) |}
      l H (T + 1) E T'.
Proof.
  intros [Hbe Hse Hsp Hord Hh Ht He Het Hlen Hit Hst] HE.
  split; cbn; try done; try lia.
  - by rewrite u64_add_l.
  - cbn in Hlen. lia.
  - by inversion Hit.
  - unfold block_ok in *. destruct (push_block (queue m)) as [a|]; [|done].
    destruct Hst as (b & k & addrs & Hb & Hk & Hmask & Hle & [Hsize Hslots] & Hchain).
    exists b, k, addrs. split_and!; try done; try lia.
    split; [done|]. intros Hfit i item Hi. specialize (Hslots Hfit (S i) item Hi).
    by replace (T + 1 + Z.of_nat i) with (T + Z.of_nat (S i)) by lia.
Qed.

(** On an empty queue [pop_st] refreshes its head estimate and reports EMPTY;
    the caller's buffer is not touched. *)
Lemma pop_st_empty m H T E T' item sz :
  Inv m [] H T E T' → sz = pop_item_size (queue m) →
  spmc_queue_result_pop_st m item sz =
    Done ({| heap := heap m;
             queue := set_pop_estimate_head (queue m) (push_head (queue m)) |},
          item,
          {| res_head := u64 H; res_tail := u64 T; res_state := SPMC_QUEUE_EMPTY |}).
Proof.
  intros HI ->. pose proof (inv_list_small _ _ _ _ _ _ HI) as [_ Hl2].
  destruct HI as [Hbe Hse Hsp Hord Hh Ht He Het Hlen Hit Hst]. cbn in Hlen.
  unfold spmc_queue_result_pop_st. rewrite Z.eqb_refl. cbn zeta.
  rewrite Hh, Ht, He, !counter_diff by lia.
  destruct (Z.leb_spec (E - T) 0); [|lia].
  by destruct (Z.leb_spec (H - T) 0); [|lia].
Qed.

(** On a queue holding [x :: l], [pop_st] copies out of the slot of the tail,
    advances the tail and reports OK. *)
Lemma pop_st_steps m x l H T E T' item sz :
  Inv m (x :: l) H T E T' → sz = pop_item_size (queue m) →
  ∃ m' r E',
    spmc_queue_result_pop_st m item sz =
      (item' ← pop_copy m (u64 T) item sz; mret (m', item', r)) ∧
    res_state r = SPMC_QUEUE_OK ∧ res_tail r = u64 T ∧
    heap m' = heap m ∧
    pop_tail (queue m') = u64 (pop_tail (queue m) + 1) ∧
    Inv m' l H (T + 1) E' T'.
Proof.
  intros HI ->. pose proof (inv_list_small _ _ _ _ _ _ HI) as [_ Hl2].
  pose proof (inv_refresh_head _ _ _ _ _ _ HI) as HI1.
  pose proof HI as [Hbe Hse Hsp Hord Hh Ht He Het Hlen Hit Hst]. cbn in Hlen.
  unfold spmc_queue_result_pop_st. rewrite Z.eqb_refl. cbn zeta.
  rewrite Ht, He, !counter_diff by lia.
  destruct (Z.leb_spec (E - T) 0).
  - rewrite Hh, counter_diff by lia. destruct (Z.leb_spec (H - T) 0); [lia|].
    rewrite <- Hh, pop_copy_refresh.
    eexists _, _, H. split; [done|]. cbn. split_and!; try done.
    apply (inv_advance_tail _ _ _ _ _ _ _ HI1). lia.
  - eexists _, _, E. split; [done|]. cbn. split_and!; try done.
    apply (inv_advance_tail _ _ _ _ _ _ _ HI). lia.
Qed.

(** In a block whose bytes fit, what it copies out is [x]. *)
Lemma pop_st_item m x l H T E T' c item sz :
  Inv m (x :: l) H T E T' → sz = pop_item_size (queue m) →
  capacity_is m c → bytes_fit c sz →
  ∃ m' r E',
    spmc_queue_result_pop_st m item sz =
      (item' ← copy_out x item sz; mret (m', item', r)) ∧
    res_state r = SPMC_QUEUE_OK ∧ res_tail r = u64 T ∧
    heap m' = heap m ∧
    pop_tail (queue m') = u64 (pop_tail (queue m) + 1) ∧
    Inv m' l H (T + 1) E' T'.
Proof.
  intros HI Hsz Hc Hfit.
  destruct (pop_st_steps _ _ _ _ _ _ _ item _ HI Hsz) as (m' & r & E' & Hpop & Hrest).
  rewrite (pop_copy_oldest _ _ _ _ _ _ _ c _ _ HI Hc Hfit Hsz) in Hpop.
  by exists m', r, E'.
Qed.

(** Run alone, [pop_weak] does what [pop_st] does: the two emptiness tests
    agree and the compare-and-swap finds the tail it read. *)
Lemma pop_weak_alone m l H T E T' item sz :
  Inv m l H T E T' →
  spmc_queue_result_pop_weak m item sz = spmc_queue_result_pop_st m item sz.
Proof.
  intros HI. pose proof (inv_list_small _ _ _ _ _ _ HI) as [_ Hl2].
  destruct HI as [Hbe Hse Hsp Hord Hh Ht He Het Hlen Hit Hst].
  unfold spmc_queue_result_pop_weak, pop_weak_among, spmc_queue_result_pop_st.
  destruct (_ =? sz); [|done]. cbn zeta.
  rewrite Hh, Ht, He, !counter_diff by lia.
  assert (∀ a b, (0 <=? a - b) = (b - a <=? 0)) as Hflip.
  { intros a b. destruct (Z.leb_spec 0 (a - b)), (Z.leb_spec (b - a) 0); lia || done. }
  rewrite !Hflip.
  assert (∀ m1 hd, pop_tail (queue m1) = u64 T → heap m1 = heap m →
     (item' ← pop_copy m1 (u64 T) item sz;
      let r := cas_tail (id m1) (u64 T) (u64 (u64 T + 1)) in
      mret (r.1, item',
            {| res_head := hd; res_tail := u64 T;
               res_state := if r.2 then SPMC_QUEUE_OK else SPMC_QUEUE_FAILED_RACE |}))
     = (item' ← pop_copy m1 (u64 T) item sz;
        mret ({| heap := heap m1; queue := set_pop_tail (queue m1) (u64 (u64 T + 1)) |},
              item',
              {| res_head := hd; res_tail := u64 T; res_state := SPMC_QUEUE_OK |})))
    as Hcas.
  { intros m1 hd Hm1 _. unfold cas_tail, id. by rewrite Hm1, Z.eqb_refl. }
  destruct (E - T <=? 0); [destruct (H - T <=? 0); [done|]|]; apply Hcas; by cbn.
Qed.

(** So does [pop]: its first turn is not a lost race. *)
Lemma pop_alone m l H T E T' item sz :
  Inv m l H T E T' → sz = pop_item_size (queue m) →
  spmc_queue_result_pop m item sz = spmc_queue_result_pop_st m item sz.
Proof.
  intros HI Hsz. unfold spmc_queue_result_pop. cbn [pop_among].
  rewrite (pop_weak_alone _ _ _ _ _ _ _ _ HI).
  destruct l as [|x l].
  - rewrite (pop_st_empty _ _ _ _ _ _ _ HI Hsz). by cbn.
  - destruct (pop_st_steps _ _ _ _ _ _ _ item _ HI Hsz) as (m' & r & E' & -> & Hr & _).
    destruct (pop_copy m (u64 T) item sz); [|done..]. cbn. by rewrite Hr.
Qed.
(** With no other thread in the window the compare-and-swap succeeds, in any
    state of the machine, so the loop of [pop] ends at its first turn. *)
Lemma pop_weak_never_races m item sz r :
  spmc_queue_result_pop_weak m item sz = Done r →
  res_state r.2 ≠ SPMC_QUEUE_FAILED_RACE.
Proof.
  unfold spmc_queue_result_pop_weak, pop_weak_among.
  destruct (_ =? sz); [|done]. cbn zeta.
  assert (∀ m1 hd, pop_tail (queue m1) = pop_tail (queue m) →
            (it ← pop_copy m1 (pop_tail (queue m)) item sz;
             mret ((cas_tail (id m1) (pop_tail (queue m)) (u64 (pop_tail (queue m) + 1))).1,
                   it,
                   {| res_head := hd; res_tail := pop_tail (queue m);
                      res_state := if (cas_tail (id m1) (pop_tail (queue m))
                                         (u64 (pop_tail (queue m) + 1))).2
                                   then SPMC_QUEUE_OK else SPMC_QUEUE_FAILED_RACE |}))
            = Done r → res_state r.2 ≠ SPMC_QUEUE_FAILED_RACE) as Hfinish.
  { intros m1 hd Htail Hrun. apply bind_done in Hrun as (it & _ & [= <-]).
    unfold cas_tail, id. by rewrite Htail, Z.eqb_refl. }
  destruct (0 <=? _).
  - destruct (0 <=? _).
    + by intros [= <-].
    + intros Hrun. eapply Hfinish; [|exact Hrun]. done.
  - intros Hrun. eapply Hfinish; [|exact Hrun]. done.
Qed.

Lemma pop_returns m item sz : spmc_queue_result_pop m item sz ≠ Diverges.
Proof.
  unfold spmc_queue_result_pop. cbn [pop_among].
  destruct (spmc_queue_result_pop_weak m item sz) as [r| |] eqn:Hweak; cbn [mbind outcome_bind].
  - apply pop_weak_never_races in Hweak. by rewrite bool_decide_eq_false_2.
  - done.
  - exfalso. revert Hweak. unfold spmc_queue_result_pop_weak, pop_weak_among.
    destruct (_ =? sz); [|done]. cbn zeta.
    assert (∀ m1 tl, pop_copy m1 tl item sz ≠ Diverges) as Hcopy.
    { intros m1 tl. unfold pop_copy. destruct item; [|done].
      destruct (pop_block _); [|done]. unfold deref. destruct (_ !! _); [|done].
      cbn [mbind outcome_bind].
      destruct (load_item _ _ _) eqn:Hload; [|done|by apply load_item_returns in Hload].
      cbn [mbind outcome_bind]. by destruct (_ <? _). }
    destruct (0 <=? _); [destruct (0 <=? _); [done|]|].
    + destruct (pop_copy _ _ _ _) eqn:Hc; [done|done|by apply Hcopy in Hc].
    + destruct (pop_copy _ _ _ _) eqn:Hc; [done|done|by apply Hcopy in Hc].
Qed.

(** ** Initialisation and reachable states *)

Lemma init_done_inv m0 isz mx m :
  spmc_queue_init m0 isz mx = Done m →
  0 < isz ≤ UINT32_MAX ∧
  ∃ h, queue m = {| pop_block := None; pop_tail := 0; pop_estimate_head := 0;
                    pop_item_size := isz; push_block := None;
                    push_estimate_tail := 0; push_head := 0;
                    push_item_size := isz; push_max_capacity := mx |} ∧ heap m = h.
Proof.
  unfold spmc_queue_init.
  destruct (Z.ltb_spec 0 isz); [|done]. destruct (Z.leb_spec isz UINT32_MAX); [|done].
  cbn [andb]. intros Hrun. apply bind_done in Hrun as (m1 & Hde & Hrun).
  unfold spmc_queue_deinit in Hde. apply bind_done in Hde as (h & _ & Hde).
  injection Hde as <-. injection Hrun as <-. split; [lia|]. by eexists.
Qed.

Lemma init_inv m0 isz mx m :
  spmc_queue_init m0 isz mx = Done m → Inv m [] 0 0 0 0.
Proof.
  intros Hrun. apply init_done_inv in Hrun as (Hsz & h & Hq & _).
  split; rewrite ?Hq; cbn; try done; lia.
Qed.

(** On the zeroed struct initialisation returns. *)
Lemma init_zero isz mx :
  0 < isz ≤ UINT32_MAX →
  spmc_queue_init machine_zero isz mx =
    Done {| heap := ∅;
            queue := {| pop_block := None; pop_tail := 0; pop_estimate_head := 0;
                        pop_item_size := isz; push_block := None;
                        push_estimate_tail := 0; push_head := 0;
                        push_item_size := isz; push_max_capacity := mx |} |}.
Proof.
  intros Hsz. unfold spmc_queue_init.
  destruct (Z.ltb_spec 0 isz); [|lia]. destruct (Z.leb_spec isz UINT32_MAX); [|lia].
  done.
Qed.

(** Re-initialisation of a queue in use returns too: the chain of blocks is
    well formed and is released within the fuel. *)
Lemma init_total m l H T E T' isz mx :
  Inv m l H T E T' → 0 < isz ≤ UINT32_MAX →
  ∃ m', spmc_queue_init m isz mx = Done m'.
Proof.
  intros HI Hsz. unfold spmc_queue_init, spmc_queue_deinit.
  destruct (Z.ltb_spec 0 isz); [|lia]. destruct (Z.leb_spec isz UINT32_MAX); [|lia].
  cbn [andb].
  assert (∃ addrs, chain (heap m) (push_block (queue m)) addrs) as [addrs Hchain].
  { pose proof (inv_storage _ _ _ _ _ _ HI) as Hst. unfold block_ok in Hst.
    destruct (push_block (queue m)) as [a|]; [|by exists []].
    destruct Hst as (b & k & addrs & Hb & _ & _ & _ & _ & Hchain).
    exists (a :: addrs). cbn. eauto. }
  destruct (free_chain_done (size (heap m)) _ _ _ Hchain) as [h' ->];
    [by eapply chain_length|].
  cbn. eauto.
Qed.

(** A pop that returned, once it is known to be the [pop_st] of the same
    arguments: EMPTY on an empty queue, the oldest item taken otherwise. *)
Ltac pop_step HI Hrun Hsz :=
  match type of HI with
  | Inv _ ?l _ _ _ _ =>
      let item := match type of Hrun with
                  | spmc_queue_result_pop_st _ ?item _ = _ => item
                  end in
      destruct l as [|? ?];
      [ rewrite (pop_st_empty _ _ _ _ _ _ _ HI Hsz) in Hrun;
        injection Hrun as <- <- <-; cbn;
        apply inv_refresh_head in HI; eauto
      | let Heq := fresh "Heq" in
        let Hr := fresh "Hr" in
        let HI' := fresh "HI'" in
        destruct (pop_st_steps _ _ _ _ _ _ _ item _ HI Hsz)
          as (? & ? & ? & Heq & Hr & _ & _ & _ & HI');
        rewrite Heq in Hrun; apply bind_done in Hrun as (? & _ & [= <- <- <-]);
        rewrite Hr; cbn; rewrite drop_0; eauto ]
  end.

Lemma pop_st_size m item sz r :
  spmc_queue_result_pop_st m item sz = Done r → sz = pop_item_size (queue m).
Proof.
  unfold spmc_queue_result_pop_st.
  by destruct (Z.eqb_spec (pop_item_size (queue m)) sz).
Qed.

Lemma step_inv m l H T E T' c m' st :
  Inv m l H T E T' →
  step m c = Done (m', st) →
  ∃ H1 T1 E1 T1', Inv m' (effect c st l) H1 T1 E1 T1'.
Proof.
  intros HI Hstep. destruct c as [isz mx|n ok|item sz ok|item sz|item sz|item sz];
    cbn [step effect] in *.
  - apply bind_done in Hstep as (m1 & Hrun & [= <- <-]).
    apply init_inv in Hrun. eauto.
  - apply bind_done in Hstep as (m1 & Hrun & [= <- <-]).
    unfold spmc_queue_reserve in Hrun. apply bind_done in Hrun as ([m2 p] & Hrun & [= <-]).
    eapply reserve_inv in Hrun; eauto.
  - apply bind_done in Hstep as ([m1 r] & Hrun & [= <- <-]). cbn [fst snd].
    apply (push_inv _ _ _ _ _ _ _ _ _ _ _ HI) in Hrun as [_ [[-> [T'' HI']]|[-> HI']]].
    + rewrite bool_decide_eq_true_2 by done. eauto.
    + rewrite bool_decide_eq_false_2 by done. eauto.
  - apply bind_done in Hstep as ([[m1 item'] r] & Hrun & [= <- <-]). cbn [fst snd].
    pose proof (pop_st_size _ _ _ _ Hrun) as Hsz.
    pop_step HI Hrun Hsz.
  - apply bind_done in Hstep as ([[m1 item'] r] & Hrun & [= <- <-]). cbn [fst snd].
    rewrite (pop_weak_alone _ _ _ _ _ _ _ _ HI) in Hrun.
    pose proof (pop_st_size _ _ _ _ Hrun) as Hsz.
    pop_step HI Hrun Hsz.
  - apply bind_done in Hstep as ([[m1 item'] r] & Hrun & [= <- <-]). cbn [fst snd].
    assert (sz = pop_item_size (queue m)) as Hsz.
    { unfold spmc_queue_result_pop, pop_among, spmc_queue_result_pop_weak, pop_weak_among in Hrun.
      by destruct (Z.eqb_spec (pop_item_size (queue m)) sz). }
    rewrite (pop_alone _ _ _ _ _ _ _ _ HI Hsz) in Hrun.
    pop_step HI Hrun Hsz.
Qed.

(** Every reachable state satisfies the invariant for its logical content. *)
Lemma reach_inv m l : reach m l → ∃ H T E T', Inv m l H T E T'.
Proof.
  induction 1 as [isz mx m Hinit|m l c m' st _ (H & T & E & T' & HI) Hstep].
  - apply init_inv in Hinit. eauto.
  - eapply step_inv; eauto.
Qed.
(** ** Capacity *)

Lemma capacity_inv m l H T E T' :
  Inv m l H T E T' →
  ∃ c, spmc_queue_capacity m = Done c ∧ capacity_is m c ∧
       block_cap (heap m) (push_block (queue m)) = Done c ∧
       H - T' ≤ c ∧ (c = 0 ∨ ∃ k, 6 ≤ k ≤ 62 ∧ c = 2 ^ k).
Proof.
  intros [Hbe Hse Hsp Hord Hh Ht He Het Hlen Hit Hst].
  unfold spmc_queue_capacity, capacity_is, block_cap, block_ok in *. rewrite Hbe.
  destruct (push_block (queue m)) as [a|].
  - destruct Hst as (b & k & addrs & Hb & Hk & Hmask & Hle & _).
    pose proof (pow2_le_mono k 62 ltac:(lia)). pose proof (pow2_pos k ltac:(lia)).
    exists (2 ^ k). unfold deref. rewrite Hb. cbn. rewrite Hmask.
    replace (2 ^ k - 1 + 1) with (2 ^ k) by lia.
    rewrite i64_small, i64_u64 by lia.
    split_and!; [f_equal; lia| |done|done|right; eauto].
    exists b. split; [done|lia].
  - exists 0. split_and!; try done; try lia; by left.
Qed.

(** [count()] is the number of items logically present. *)
Lemma count_inv m l H T E T' :
  Inv m l H T E T' → spmc_queue_count m = Done (Z.of_nat (length l)).
Proof.
  intros HI. pose proof (inv_list_small _ _ _ _ _ _ HI) as [Hl1 Hl2].
  destruct HI as [Hbe Hse Hsp Hord Hh Ht He Het Hlen Hit Hst].
  unfold spmc_queue_count, count_loop. rewrite Z.eqb_refl, Hh, Ht, counter_diff by lia.
  cbn zeta. rewrite u64_small by lia.
  destruct (Z.leb_spec 0 (H - T)); [|lia]. rewrite i64_small by lia.
  cbn. f_equal. lia.
Qed.

Lemma reach_three_pushed :
  reach three_pushed [isize_bytes 0; isize_bytes 1; isize_bytes 2].
Proof.
  pose (m0 := fresh_queue (-1)).
  pose (m1 := machine_of (spmc_queue_result_push_st m0 (isize_bytes 0) 8 true)).
  pose (m2 := machine_of (spmc_queue_result_push_st m1 (isize_bytes 1) 8 true)).
  assert (reach m0 []) as R0 by (by apply (reach_fresh 8 (-1))).
  assert (reach m1 [isize_bytes 0]) as R1.
  { by apply (reach_step m0 [] (Push (isize_bytes 0) 8 true) m1 SPMC_QUEUE_OK R0). }
  assert (reach m2 [isize_bytes 0; isize_bytes 1]) as R2.
  { by apply (reach_step m1 _ (Push (isize_bytes 1) 8 true) m2 SPMC_QUEUE_OK R1). }
  by apply (reach_step m2 _ (Push (isize_bytes 2) 8 true) three_pushed SPMC_QUEUE_OK R2).
Defined.

(** ** Runs of pushes and pops *)

(** A pop writes no field of the producer's half and no block. *)
Lemma pop_st_frame m item sz m' item' r :
  spmc_queue_result_pop_st m item sz = Done (m', item', r) →
  heap m' = heap m ∧ push_block (queue m') = push_block (queue m) ∧
  pop_block (queue m') = pop_block (queue m) ∧
  push_head (queue m') = push_head (queue m) ∧
  push_max_capacity (queue m') = push_max_capacity (queue m).
Proof.
  unfold spmc_queue_result_pop_st. destruct (_ =? sz); [|done]. cbn zeta.
  destruct (_ <=? 0); [destruct (_ <=? 0)|].
  - by intros [= <- _ _].
  - by intros (? & _ & [= <- _ _])%bind_done.
  - by intros (? & _ & [= <- _ _])%bind_done.
Qed.

(** A pop keeps the capacity and the item sizes. *)
Lemma pop_st_keeps m item sz m' item' r c :
  spmc_queue_result_pop_st m item sz = Done (m', item', r) →
  capacity_is m c →
  capacity_is m' c ∧ pop_item_size (queue m') = pop_item_size (queue m) ∧
  push_item_size (queue m') = push_item_size (queue m).
Proof.
  intros Hrun Hc. destruct (pop_st_frame _ _ _ _ _ _ Hrun) as (Hheap & Hblk & _).
  split; [unfold capacity_is in *; by rewrite Hblk, Hheap|].
  revert Hrun. unfold spmc_queue_result_pop_st. destruct (_ =? sz); [|done]. cbn zeta.
  destruct (_ <=? 0); [destruct (_ <=? 0)|].
  - by intros [= <- _ _].
  - by intros (? & _ & [= <- _ _])%bind_done.
  - by intros (? & _ & [= <- _ _])%bind_done.
Qed.

Lemma push_all_inv pushes : ∀ m l H T E T' sz m' rs,
  Inv m l H T E T' →
  push_all m pushes sz = Done (m', rs) →
  Forall (λ r, res_state r = SPMC_QUEUE_OK) rs →
  ∃ T'', Inv m' (l ++ map (λ p, take (Z.to_nat sz) p.1) pushes)
             (H + Z.of_nat (length pushes)) T E T''.
Proof.
  induction pushes as [|p rest IH]; intros m l H T E T' sz m' rs HI Hrun Hok.
  - injection Hrun as <- <-. cbn. rewrite app_nil_r, Z.add_0_r. eauto.
  - cbn [push_all] in Hrun.
    apply bind_done in Hrun as ([m1 r] & Hpush & Hrun).
    apply bind_done in Hrun as ([m2 rs'] & Hrest & [= <- <-]). cbn [fst snd] in *.
    apply Forall_cons in Hok as [Hr Hok].
    apply (push_inv _ _ _ _ _ _ _ _ _ _ _ HI) in Hpush as [_ [[_ [T1 HI1]]|[Hfull _]]];
      [|congruence].
    destruct (IH _ _ _ _ _ _ _ _ _ HI1 Hrest Hok) as [T2 HI2].
    exists T2. cbn [map length]. rewrite <- app_assoc in HI2. cbn [app] in HI2.
    by replace (H + Z.of_nat (S (length rest))) with (H + 1 + Z.of_nat (length rest)) by lia.
Qed.

Lemma push_all_frame pushes : ∀ m sz m' rs,
  push_all m pushes sz = Done (m', rs) →
  push_item_size (queue m') = push_item_size (queue m) ∧
  pop_item_size (queue m') = pop_item_size (queue m) ∧
  push_max_capacity (queue m') = push_max_capacity (queue m) ∧
  pop_tail (queue m') = pop_tail (queue m).
Proof.
  induction pushes as [|p rest IH]; intros m sz m' rs Hrun.
  - by injection Hrun as <- <-.
  - cbn [push_all] in Hrun. apply bind_done in Hrun as ([m1 r] & Hpush & Hrun).
    apply bind_done in Hrun as ([m2 rs'] & Hrest & [= <- <-]). cbn [fst snd] in *.
    destruct (IH _ _ _ _ Hrest) as (-> & -> & -> & ->).
    by destruct (push_frame _ _ _ _ _ _ Hpush) as (-> & -> & -> & -> & _).
Qed.

Lemma pop_all_inv l : ∀ m H T E T' c buf sz,
  Inv m l H T E T' →
  sz = pop_item_size (queue m) →
  sz ≤ Z.of_nat (length buf) →
  capacity_is m c → bytes_fit c sz →
  ∃ m' E',
    pop_all (length l) m buf sz =
      Done (m', map (λ x, (Some (x ++ drop (Z.to_nat sz) buf), SPMC_QUEUE_OK)) l) ∧
    Inv m' [] H (T + Z.of_nat (length l)) E' T' ∧
    pop_item_size (queue m') = sz.
Proof.
  induction l as [|x l IH]; intros m H T E T' c buf sz HI Hsz Hbuf Hc Hfit.
  - exists m, E. cbn. rewrite Z.add_0_r. done.
  - destruct (pop_st_item _ _ _ _ _ _ _ c (Some buf) _ HI Hsz Hc Hfit)
      as (m1 & r & E1 & Hpop & Hr & _ & _ & _ & HI1).
    rewrite copy_out_fits in Hpop by (by intros ? [= <-]).
    destruct (pop_st_keeps _ _ _ _ _ _ c Hpop Hc) as (Hc1 & Hsz1 & _).
    destruct (IH _ _ _ _ _ c buf sz HI1 ltac:(congruence) Hbuf Hc1 Hfit)
      as (m2 & E2 & Hrest & HI2 & Hsz2).
    exists m2, E2. cbn [pop_all length map]. rewrite Hpop. cbn. rewrite Hrest. cbn.
    rewrite Hr. split_and!; [done| |done].
    by replace (T + Z.of_nat (S (length l))) with (T + 1 + Z.of_nat (length l)) by lia.
Qed.

(** ** Reservation *)

(** With the current capacity at or above the request, or the request above
    the ceiling, [_spmc_queue_reserve] does nothing. *)
Lemma reserve_skip m n ok c :
  block_cap (heap m) (push_block (queue m)) = Done c →
  n ≤ c ∨ (0 ≤ push_max_capacity (queue m) ∧ push_max_capacity (queue m) < n) →
  _spmc_queue_reserve m n ok = Done (m, push_block (queue m)).
Proof.
  intros Hcap Hskip. unfold _spmc_queue_reserve. rewrite Hcap. cbn [mbind outcome_bind].
  destruct (Z.ltb_spec c n); [|done].
  destruct Hskip as [|[Hpos Hmax]]; [lia|].
  destruct (Z.leb_spec 0 (push_max_capacity (queue m))); [|lia].
  by destruct (Z.leb_spec n (push_max_capacity (queue m))); [lia|].
Qed.

(** ** Capacity after growth *)

Lemma pow2_lt_inv a b : 0 ≤ b → 2 ^ a < 2 ^ b → a < b.
Proof. intros Hb Hlt. by apply (Z.pow_lt_mono_r_iff 2) in Hlt; [|lia..]. Qed.

Lemma capacity_is_fun m c c' : capacity_is m c → capacity_is m c' → c = c'.
Proof.
  unfold capacity_is. destruct (push_block (queue m)); [|congruence].
  intros (b & Hb & ?) (b' & Hb' & ?). rewrite Hb in Hb'. injection Hb' as <-. lia.
Qed.

(** The capacity a growth step ends with: the least power of two that is at
    least 64 and at least the request, and at least twice the old capacity. *)
Lemma growth_facts m l H T E T' m' n c0 :
  Inv m l H T E T' → grew m m' n → capacity_is m c0 →
  ∃ c, capacity_is m' c ∧ is_pow2 c ∧ n ≤ c ∧ 64 ≤ c ∧
       (∀ c', is_pow2 c' → n ≤ c' → 64 ≤ c' → c ≤ c') ∧
       2 * c0 ≤ c ∧ Z.of_nat (length l) ≤ c.
Proof.
  intros HI Hgrew Hc0.
  destruct (capacity_inv _ _ _ _ _ _ HI) as (c0' & _ & Hc0' & Hcap0 & Hle0 & Hpow0).
  rewrite <- (capacity_is_fun _ _ _ Hc0 Hc0') in *. clear c0' Hc0'.
  pose proof (inv_list_small _ _ _ _ _ _ HI) as [Hl1 _].
  destruct Hgrew as (a & nb & k & oc & Hfresh & Hheap & Hq & Hnext & Hmask & Hk &
                     Hn & Hmin & Hcap & Hlt & _).
  rewrite Hcap0 in Hcap. injection Hcap as <-.
  pose proof (pow2_pos k ltac:(lia)).
  assert (2 ^ 6 ≤ 2 ^ k) as H64 by (apply pow2_le_mono; lia).
  exists (2 ^ k). split_and!.
  - unfold capacity_is. rewrite Hq, Hheap. cbn. exists nb. by rewrite lookup_insert_eq.
  - exists k. split; [lia|done].
  - done.
  - lia.
  - intros c' (j & Hj & ->) Hn' H64'.
    destruct (decide (k = 6)) as [->|Hne]; [lia|].
    assert (k - 1 < j) by (apply pow2_lt_inv; [done|]; lia).
    apply pow2_le_mono. lia.
  - destruct Hpow0 as [->|(k0 & Hk0 & ->)]; [lia|].
    assert (k0 < k) by (apply pow2_lt_inv; lia).
    replace (2 * 2 ^ k0) with (2 ^ (k0 + 1)) by (rewrite Z.pow_add_r; lia).
    apply pow2_le_mono. lia.
  - lia.
Qed.

(** ** The capacity ceiling *)

(** A push that finds no room and whose request exceeds the ceiling is
    refused: the call returns, and returns FULL. *)
Lemma push_refused m l H T E T' c item sz ok :
  Inv m l H T E T' → capacity_is m c → c ≤ H - T →
  0 ≤ push_max_capacity (queue m) < H - T + 1 →
  sz = push_item_size (queue m) →
  spmc_queue_result_push_st m item sz ok =
    Done ({| heap := heap m;
             queue := set_push_estimate_tail (queue m) (pop_tail (queue m)) |},
          {| res_head := u64 H; res_tail := u64 T; res_state := SPMC_QUEUE_FULL |}).
Proof.
  intros HI Hc Hfull Hmax ->.
  pose proof (inv_list_small _ _ _ _ _ _ HI) as [Hl1 Hl2].
  pose proof (inv_refresh_tail _ _ _ _ _ _ HI) as HI1.
  pose proof (inv_order _ _ _ _ _ _ HI) as Hord.
  destruct (no_room_inv m l H T E T' (u64 T') T' HI) as (c1 & Hc1 & _ & Hno1); [lia..|done|].
  destruct (no_room_inv m l H T E T' (u64 T) T HI) as (c2 & Hc2 & _ & Hno2); [lia..|done|].
  rewrite <- (capacity_is_fun _ _ _ Hc Hc1) in Hno1.
  rewrite <- (capacity_is_fun _ _ _ Hc Hc2) in Hno2.
  rewrite bool_decide_eq_true_2 in Hno1 by lia.
  rewrite bool_decide_eq_true_2 in Hno2 by lia.
  destruct (capacity_inv _ _ _ _ _ _ HI1) as (c' & _ & _ & Hcap & _).
  unfold spmc_queue_result_push_st. rewrite Z.eqb_refl. cbn zeta.
  rewrite (inv_est_tail _ _ _ _ _ _ HI), (inv_head _ _ _ _ _ _ HI), Hno1.
  cbn [mbind outcome_bind heap].
  set (m1 := {| heap := heap m;
                queue := set_push_estimate_tail (queue m) (pop_tail (queue m)) |}) in *.
  rewrite (inv_tail _ _ _ _ _ _ HI), Hno2. cbn [mbind outcome_bind].
  rewrite u64_sub, u64_add_l, i64_u64 by lia.
  rewrite (reserve_skip m1 (H - T + 1) ok c' Hcap) by (right; cbn; lia).
  cbn [mbind outcome_bind fst snd]. rewrite bool_decide_eq_true_2 by done.
  by rewrite <- (inv_tail _ _ _ _ _ _ HI).
Qed.

(** With a power-of-two ceiling of at least 64, no push takes the capacity
    over the ceiling. *)
Lemma push_within_ceiling k m item sz ok m' r :
  6 ≤ k ≤ 62 → within_ceiling m (2 ^ k) →
  spmc_queue_result_push_st m item sz ok = Done (m', r) →
  within_ceiling m' (2 ^ k).
Proof.
  intros Hk [Hmax (c & Hc & Hle)] Hrun.
  assert (∀ m1 p hd tl, within_ceiling m1 (2 ^ k) → p = push_block (queue m1) →
            push_publish m1 p hd tl item sz = Done (m', r) →
            within_ceiling m' (2 ^ k)) as Hpublish.
  { intros m1 p hd tl [Hmax1 (c1 & Hc1 & Hle1)] -> Hpub.
    apply push_publish_frame in Hpub as (_ & Hq & a & b & Ha & Hb & Hheap).
    split; [by rewrite Hq|]. exists c1. split; [|done].
    unfold capacity_is in *. rewrite Hq. cbn. rewrite Ha in Hc1 |- *.
    destruct Hc1 as (b1 & Hb1 & Hm1). rewrite Hb in Hb1. injection Hb1 as <-.
    eexists. rewrite Hheap, lookup_insert_eq. split; [done|]. by cbn. }
  assert (within_ceiling {| heap := heap m;
            queue := set_push_estimate_tail (queue m) (pop_tail (queue m)) |} (2 ^ k)) as Hm1.
  { split; [done|]. by exists c. }
  apply push_cases in Hrun as [_ Hcases]. cbn zeta in Hcases.
  destruct Hcases as [[_ Hpub]|[[_ Hpub]|(_ & m2 & p & Hres & Hcases)]].
  - eapply Hpublish; [|done|exact Hpub]. split; [done|]. by exists c.
  - eapply Hpublish; [exact Hm1|done|exact Hpub].
  - assert (within_ceiling m2 (2 ^ k) ∧ p = push_block (queue m2)) as [Hm2 ->].
    { apply reserve_cases in Hres as [-> [->|Hgrew]]; [done|]. split; [|done].
      destruct Hgrew as (a & nb & k2 & oc & Hfresh & Hheap & Hq & Hnext & Hmask & Hk2 &
                         Hn & Hmin & _ & _ & Hceil & _).
      cbn in Hceil. rewrite Hmax in Hceil. pose proof (pow2_pos k ltac:(lia)).
      split; [by rewrite Hq|]. exists (2 ^ k2). split.
      - unfold capacity_is. rewrite Hq, Hheap. cbn. exists nb. by rewrite lookup_insert_eq.
      - apply pow2_le_mono. destruct (decide (k2 = 6)) as [->|]; [lia|].
        assert (k2 - 1 < k); [|lia]. apply pow2_lt_inv; lia. }
    destruct Hcases as [(_ & -> & _)|[_ Hpub]]; [done|].
    by eapply Hpublish.
Qed.

Lemma push_all_within_ceiling k pushes : ∀ m sz m' rs,
  6 ≤ k ≤ 62 → within_ceiling m (2 ^ k) →
  push_all m pushes sz = Done (m', rs) →
  within_ceiling m' (2 ^ k).
Proof.
  induction pushes as [|p rest IH]; intros m sz m' rs Hk Hm Hrun.
  - by injection Hrun as <- <-.
  - cbn [push_all] in Hrun. apply bind_done in Hrun as ([m1 r] & Hpush & Hrun).
    apply bind_done in Hrun as ([m2 rs'] & Hrest & [= <- <-]). cbn [fst snd] in *.
    eapply IH; [done| |exact Hrest]. by eapply push_within_ceiling.
Qed.

(** ** Calls that return *)

(** With room in the current block, and a block whose bytes fit, the item is
    written and published. *)
Lemma push_publish_total m l H T E T' c tl item sz :
  Inv m l H T E T' → capacity_is m c → H - T' < c →
  sz = push_item_size (queue m) → sz ≤ Z.of_nat (length item) →
  bytes_fit c sz →
  ∃ m' r, push_publish m (push_block (queue m)) (u64 H) tl item sz = Done (m', r).
Proof.
  intros HI Hc Hroom -> Hitem Hfit.
  pose proof (inv_order _ _ _ _ _ _ HI) as Hord.
  pose proof (inv_size_pos _ _ _ _ _ _ HI) as Hsp.
  pose proof (inv_storage _ _ _ _ _ _ HI) as Hst.
  unfold push_publish, capacity_is, block_ok in *.
  destruct (push_block (queue m)) as [a|]; [|lia].
  destruct Hst as (b & k & addrs & Hb & Hk & Hmask & Hle & [Hsize _] & _).
  destruct Hc as (b' & Hb' & Hmask'). rewrite Hb in Hb'. injection Hb' as <-.
  assert (c = 2 ^ k) as -> by lia.
  unfold deref. rewrite Hb. cbn [mbind outcome_bind].
  destruct (Z.ltb_spec (Z.of_nat (length item)) (push_item_size (queue m))); [lia|].
  rewrite (slot_of_position b H k) by (done || lia).
  pose proof (fit_size b k (push_item_size (queue m)) ltac:(lia) ltac:(lia) Hsize Hfit)
    as Hbytes.
  destruct (slot_inside H k (push_item_size (queue m)) ltac:(lia) ltac:(lia)) as [Hlo Hhi].
  unfold in_block. rewrite Hbytes.
  destruct (Z.leb_spec 0 (push_item_size (queue m))); [|lia].
  destruct (Z.leb_spec 0 (H mod 2 ^ k * push_item_size (queue m))); [|lia].
  destruct (Z.leb_spec (H mod 2 ^ k * push_item_size (queue m) + push_item_size (queue m))
              (2 ^ k * push_item_size (queue m))); [|lia].
  cbn [andb]. eauto.
Qed.

(** A request above the current capacity, within the ceiling and within a
    power of two whose bytes fit makes [_spmc_queue_reserve] allocate when
    [malloc] succeeds: both loops end and no copy leaves its block. *)
Lemma reserve_grows m l H T E T' c n k :
  Inv m l H T E T' → capacity_is m c → c < n →
  6 ≤ k ≤ 62 → n ≤ 2 ^ k → bytes_fit (2 ^ k) (push_item_size (queue m)) →
  push_max_capacity (queue m) < 0 ∨ n ≤ push_max_capacity (queue m) →
  ∃ m' p, _spmc_queue_reserve m n true = Done (m', p) ∧ grew m m' n.
Proof.
  intros HI Hc Hlt Hk Hn Hfit Hmax.
  destruct (capacity_inv _ _ _ _ _ _ HI) as (c' & _ & Hc' & Hcap & Hroom & _).
  rewrite <- (capacity_is_fun _ _ _ Hc Hc') in *. clear c' Hc'.
  pose proof (inv_list_small _ _ _ _ _ _ HI) as [Hl1 _].
  pose proof (inv_size_pos _ _ _ _ _ _ HI) as Hsp.
  pose proof (pow2_le_mono k 62 ltac:(lia)) as Hk62.
  destruct (grow_capacity_done 64 6 n) as [c2 Hgrow]; [lia..|].
  destruct (grow_capacity_inv 64 6 n c2 ltac:(lia) Hgrow) as (k2 & Hk2 & -> & Hnk & Hmin).
  change (2 ^ 6) with 64 in Hgrow.
  assert (k2 ≤ k) as Hkk.
  { destruct (decide (k2 = 6)) as [->|]; [lia|].
    assert (k2 - 1 < k); [|lia]. apply pow2_lt_inv; lia. }
  assert (bytes_fit (2 ^ k2) (push_item_size (queue m))) as Hfit2.
  { apply (bytes_fit_mono _ (2 ^ k)); [lia|by apply pow2_le_mono; lia|done]. }
  destruct (migrate_live _ _ _ _ _ _ c k2 HI ltac:(lia) ltac:(lia) Hc ltac:(lia) Hfit2)
    as (nb & Hmig & _).
  assert (u64 (SIZEOF_BLOCK + u64 (2 ^ k2 * push_item_size (queue m)))
          = SIZEOF_BLOCK + 2 ^ k2 * push_item_size (queue m)) as Hsize.
  { unfold bytes_fit, SIZEOF_BLOCK in *. pose proof (pow2_pos k2 ltac:(lia)).
    rewrite (u64_small (2 ^ k2 * _)) by nia. rewrite u64_small by nia. done. }
  assert (∃ r, _spmc_queue_reserve m n true = Done r ∧ heap (fst r) ≠ heap m)
    as ([m' p] & Hrun & Hne).
  { unfold _spmc_queue_reserve. rewrite Hcap. cbn [mbind outcome_bind].
    destruct (Z.ltb_spec c n); [|lia]. cbn [andb].
    assert ((n <=? (if 0 <=? push_max_capacity (queue m)
                    then push_max_capacity (queue m) else INT64_MAX)) = true) as ->.
    { apply Z.leb_le. destruct (Z.leb_spec 0 (push_max_capacity (queue m))); [lia|].
      unfold INT64_MAX. pose proof (pow2_le_mono 62 63 ltac:(lia)). lia. }
    rewrite Hgrow. cbn [mbind outcome_bind malloc].
    destruct (Z.ltb_spec (u64 (SIZEOF_BLOCK + u64 (2 ^ k2 * push_item_size (queue m))))
                SIZEOF_BLOCK) as [Hbad|_].
    { rewrite Hsize in Hbad. pose proof (pow2_pos k2 ltac:(lia)). nia. }
    rewrite u64_mask by lia.
    rewrite Hmig. cbn [mbind outcome_bind mret outcome_ret].
    eexists. split; [done|]. cbn. intros Heq.
    apply (f_equal (λ h, h !! fresh (dom (heap m)))) in Heq.
    rewrite lookup_insert_eq in Heq.
    by rewrite (proj1 (not_elem_of_dom _ _) (is_fresh (dom (heap m)))) in Heq. }
  exists m', p. split; [done|].
  apply reserve_cases in Hrun as [_ [->|Hgrew]]; [done|done].
Qed.

(** The capacity after a growth for [n] slots is within every power of two
    of at least 64 that reaches [n]. *)
Lemma grew_within m m' n k :
  grew m m' n → 6 ≤ k → n ≤ 2 ^ k →
  ∃ c, capacity_is m' c ∧ c ≤ 2 ^ k ∧ n ≤ c.
Proof.
  intros (a & nb & k2 & oc & Hfresh & Hheap & Hq & Hnext & Hmask & Hk2 & Hn2 & Hmin & _) Hk Hn.
  exists (2 ^ k2). split_and!; [| |done].
  - unfold capacity_is. rewrite Hq, Hheap. cbn. exists nb. by rewrite lookup_insert_eq.
  - apply pow2_le_mono. destruct (decide (k2 = 6)) as [->|]; [lia|].
    assert (k2 - 1 < k); [|lia]. apply pow2_lt_inv; lia.
Qed.

(** A push returns, and returns OK, whenever the item fits and either the
    block has room or it can grow: the allocator grants the request, the
    ceiling allows one more item, and the bytes of the capacity needed fit
    ([2^k] bounds that capacity). *)
Lemma push_total m l H T E T' c item sz k :
  Inv m l H T E T' → capacity_is m c →
  sz = push_item_size (queue m) → sz ≤ Z.of_nat (length item) →
  6 ≤ k ≤ 62 → c ≤ 2 ^ k → bytes_fit (2 ^ k) sz →
  H - T < c ∨
  (H - T + 1 ≤ 2 ^ k ∧
   (push_max_capacity (queue m) < 0 ∨ H - T + 1 ≤ push_max_capacity (queue m))) →
  ∃ m' r c', spmc_queue_result_push_st m item sz true = Done (m', r) ∧
             res_state r = SPMC_QUEUE_OK ∧ capacity_is m' c' ∧ c' ≤ 2 ^ k.
Proof.
  intros HI Hc -> Hitem Hk Hck Hfit Hroom.
  pose proof (inv_list_small _ _ _ _ _ _ HI) as [Hl1 Hl2].
  pose proof (inv_refresh_tail _ _ _ _ _ _ HI) as HI1.
  pose proof (inv_order _ _ _ _ _ _ HI) as Hord.
  pose proof (inv_len _ _ _ _ _ _ HI) as Hlen.
  pose proof (inv_size_pos _ _ _ _ _ _ HI) as Hsp.
  assert (bytes_fit c (push_item_size (queue m))) as Hfitc.
  { apply (bytes_fit_mono _ (2 ^ k)); [lia|done|done]. }
  destruct (no_room_inv m l H T E T' (u64 T') T' HI) as (c1 & Hc1 & _ & Hno1); [lia..|done|].
  destruct (no_room_inv m l H T E T' (u64 T) T HI) as (c2 & Hc2 & _ & Hno2); [lia..|done|].
  rewrite <- (capacity_is_fun _ _ _ Hc Hc1) in Hno1.
  rewrite <- (capacity_is_fun _ _ _ Hc Hc2) in Hno2. clear c1 c2 Hc1 Hc2.
  assert (∀ m1 p hd tl c1,
            capacity_is m1 c1 → c1 ≤ 2 ^ k → p = push_block (queue m1) →
            (∃ m' r, push_publish m1 p hd tl item (push_item_size (queue m)) = Done (m', r)) →
            ∃ m' r c', push_publish m1 p hd tl item (push_item_size (queue m)) = Done (m', r) ∧
                       res_state r = SPMC_QUEUE_OK ∧ capacity_is m' c' ∧ c' ≤ 2 ^ k)
    as Hwrap.
  { intros m1 p hd tl c1 Hc1 Hle1 Hp (m' & r & Hpub). exists m', r, c1.
    split_and!; [done| | |done].
    - by apply push_publish_frame in Hpub as [? _].
    - by eapply publish_keeps_capacity. }
  unfold spmc_queue_result_push_st. rewrite Z.eqb_refl. cbn zeta.
  rewrite (inv_est_tail _ _ _ _ _ _ HI), (inv_head _ _ _ _ _ _ HI), Hno1.
  cbn [mbind outcome_bind heap].
  set (m1 := {| heap := heap m;
                queue := set_push_estimate_tail (queue m) (pop_tail (queue m)) |}) in *.
  destruct (decide (c ≤ H - T')) as [Hfull1|Hfull1];
    [rewrite bool_decide_eq_true_2 by done|rewrite bool_decide_eq_false_2 by done].
  2:{ apply (Hwrap m _ _ _ c); [exact Hc|done|done|].
      eapply (push_publish_total m); [exact HI|exact Hc|lia|done|lia|done]. }
  rewrite (inv_tail _ _ _ _ _ _ HI), Hno2. cbn [mbind outcome_bind].
  destruct (decide (c ≤ H - T)) as [Hfull2|Hfull2];
    [rewrite bool_decide_eq_true_2 by done|rewrite bool_decide_eq_false_2 by done].
  2:{ apply (Hwrap m1 _ _ _ c); [exact Hc|done|done|].
      rewrite <- (inv_tail _ _ _ _ _ _ HI).
      eapply (push_publish_total m1 l H T E T c); [exact HI1|exact Hc|lia|done|lia|done]. }
  destruct Hroom as [|[Hsmall Hceil]]; [lia|].
  rewrite u64_sub, u64_add_l, i64_u64 by lia.
  destruct (reserve_grows m1 l H T E T c (H - T + 1) k HI1 Hc ltac:(lia) Hk Hsmall
              Hfit Hceil)
    as (m2 & p & Hres & Hgrew).
  rewrite Hres. cbn [mbind outcome_bind fst snd].
  pose proof (reserve_inv _ _ _ _ _ _ _ _ _ _ HI1 Hres) as HI2.
  apply reserve_cases in Hres as [-> _].
  destruct (grew_within _ _ _ k Hgrew ltac:(lia) Hsmall) as (c2 & Hc2 & Hle2 & Hn2).
  destruct Hgrew as (a & nb & k2 & oc & Hfresh & Hheap & Hq & Hnext & Hmask & Hk2 & Hn & _).
  assert (push_block (queue m2) ≠ push_block (queue m)) as Hp.
  { rewrite Hq. cbn. intros Heq.
    pose proof (capacity_inv _ _ _ _ _ _ HI) as (c' & _ & Hc' & _).
    unfold capacity_is in Hc'. rewrite <- Heq in Hc'. destruct Hc' as (b & Hb & _).
    cbn in Hfresh. congruence. }
  rewrite bool_decide_eq_false_2 by done.
  apply (Hwrap m2 _ _ _ c2); [exact Hc2|done|done|].
  eapply (push_publish_total m2 l H T E T c2); [exact HI2|exact Hc2|lia|by rewrite Hq|lia|].
  apply (bytes_fit_mono _ (2 ^ k)); [lia|done|done].
Qed.

(** A run of pushes into an unbounded queue returns with every push OK when
    the allocator grants each request and the bytes of the capacity needed
    for the items that result fit. *)
Lemma push_all_total pushes : ∀ m l H T E T' c sz k,
  Inv m l H T E T' → capacity_is m c →
  sz = push_item_size (queue m) →
  push_max_capacity (queue m) < 0 →
  Forall (λ p, sz ≤ Z.of_nat (length p.1) ∧ p.2 = true) pushes →
  6 ≤ k ≤ 62 → c ≤ 2 ^ k → bytes_fit (2 ^ k) sz →
  H - T + Z.of_nat (length pushes) ≤ 2 ^ k →
  ∃ m' rs c', push_all m pushes sz = Done (m', rs) ∧
              Forall (λ r, res_state r = SPMC_QUEUE_OK) rs ∧
              capacity_is m' c' ∧ c' ≤ 2 ^ k.
Proof.
  induction pushes as [|[item ok] rest IH];
    intros m l H T E T' c sz k HI Hc Hsz Hmax Hall Hk Hck Hfit Hsmall.
  - exists m, [], c. by split_and!.
  - apply Forall_cons in Hall as [[Hitem Hok] Hall]. cbn in Hitem, Hok. subst ok.
    cbn [length] in Hsmall.
    destruct (push_total m l H T E T' c item sz k HI Hc Hsz Hitem Hk Hck Hfit)
      as (m1 & r & c1 & Hpush & Hr & Hc1 & Hle1).
    { right. split; [lia|by left]. }
    destruct (push_inv _ _ _ _ _ _ _ _ _ _ _ HI Hpush) as [_ [[_ [T1 HI1]]|[Hfull _]]];
      [|congruence].
    destruct (push_frame _ _ _ _ _ _ Hpush) as (Hsz1 & _ & Hmax1 & _).
    destruct (IH m1 _ _ _ _ _ c1 sz k HI1 Hc1) as (m2 & rs & c2 & Hrest & Hoks & Hc2 & Hle2);
      [congruence|lia|done|done|done|done|lia|].
    exists m2, (r :: rs), c2. cbn [push_all fst snd]. rewrite Hpush. cbn. rewrite Hrest. cbn.
    split_and!; [done|by apply Forall_cons|done|done].
Qed.

(** ** A ceiling of zero *)

(** The first push into an initialised queue whose ceiling allows one item:
    the first block is allocated and the push reports OK. *)
Lemma first_push_ok isz mx m0 item :
  spmc_queue_init machine_zero isz mx = Done m0 →
  mx < 0 ∨ 1 ≤ mx →
  isz ≤ Z.of_nat (length item) →
  ∃ m1 r, spmc_queue_result_push_st m0 item isz true = Done (m1, r) ∧
          res_state r = SPMC_QUEUE_OK.
Proof.
  intros Hinit Hmx Hitem.
  pose proof (init_inv _ _ _ _ Hinit) as HI.
  destruct (init_done_inv _ _ _ _ Hinit) as (Hsz & h & Hq & _).
  destruct (push_total m0 [] 0 0 0 0 0 item isz 6 HI) as (m1 & r & c' & Hpush & Hr & _).
  - unfold capacity_is. by rewrite Hq.
  - by rewrite Hq.
  - done.
  - lia.
  - lia.
  - apply bytes_fit_64. lia.
  - right. rewrite Hq. cbn. split; lia.
  - eauto.
Qed.

(** * The claims *)

(** ** Pushes into a fresh queue *)

(** When the size of a block of [c] slots fits and that of [2 * c] slots does
    not, the size computed for the latter is too small for [c] items. *)
Lemma wrapped_size_small c sz :
  0 ≤ c → 0 < sz → bytes_fit c sz → ¬ bytes_fit (2 * c) sz →
  u64 (SIZEOF_BLOCK + u64 (2 * c * sz)) - SIZEOF_BLOCK < c * sz.
Proof.
  unfold bytes_fit, SIZEOF_BLOCK, u64. intros Hc Hsz Hfit Hwrap.
  rewrite Zplus_mod_idemp_r.
  rewrite <- (Z.mod_unique_pos (16 + 2 * c * sz) (2 ^ 64) 1 (16 + 2 * c * sz - 2 ^ 64));
    nia.
Qed.

(** Every copy of the growth loop that returned stayed inside the new block. *)
Lemma copy_live_bounds sz ob H : ∀ (fuel : nat) X nb nb',
  X ≤ H → H - X < 2 ^ 63 →
  copy_live fuel (u64 X) (u64 H) sz ob nb = Done nb' →
  ∀ Y, X ≤ Y < H → in_block nb (_spmc_queue_slot nb (u64 Y) sz) sz = true.
Proof.
  induction fuel as [|fuel IH]; intros X nb nb' HX Hd Hrun Y HY;
    cbn [copy_live] in Hrun; rewrite counter_diff in Hrun by lia;
    destruct (Z.ltb_spec (X - H) 0); try lia; [done|].
  apply bind_done in Hrun as (bytes & _ & Hrun).
  destruct (in_block nb _ sz) eqn:Hin; [|done].
  destruct (decide (Y = X)) as [->|Hne]; [done|].
  rewrite u64_add_l in Hrun.
  apply (IH (X + 1) _ _ ltac:(lia) ltac:(lia) Hrun Y ltac:(lia)).
Qed.

(** A push that reported OK on a queue never popped from leaves a block whose
    bytes fit: growth doubles the capacity, and had the size wrapped, the
    copy of the last live item would have left the new block. *)
Lemma push_fresh_fit m l H E T' c item sz ok m' r :
  Inv m l H 0 E T' → capacity_is m c → bytes_fit c sz →
  spmc_queue_result_push_st m item sz ok = Done (m', r) →
  res_state r = SPMC_QUEUE_OK →
  ∃ c', capacity_is m' c' ∧ bytes_fit c' sz.
Proof.
  intros HI Hc Hfit Hpush Hok.
  pose proof (inv_order _ _ _ _ _ _ HI) as Hord.
  pose proof (inv_size_pos _ _ _ _ _ _ HI) as Hsp.
  pose proof (inv_list_small _ _ _ _ _ _ HI) as [Hl1 Hl2].
  pose proof (inv_refresh_tail _ _ _ _ _ _ HI) as HI1.
  destruct (capacity_inv _ _ _ _ _ _ HI) as (c0 & _ & Hc0 & Hbc & Hle & Hpow).
  rewrite <- (capacity_is_fun _ _ _ Hc Hc0) in *. clear c0 Hc0.
  destruct (no_room_inv m l H 0 E T' (u64 0) 0 HI) as (c2 & Hc2 & _ & Hno2); [lia..|done|].
  rewrite <- (capacity_is_fun _ _ _ Hc Hc2) in Hno2. clear c2 Hc2.
  apply push_cases in Hpush as [Hsz Hcases]. cbn zeta in Hcases. subst sz.
  set (m1 := {| heap := heap m;
                queue := set_push_estimate_tail (queue m) (pop_tail (queue m)) |}) in *.
  assert (capacity_is m1 c) as Hc1 by done.
  rewrite (inv_head _ _ _ _ _ _ HI), (inv_tail _ _ _ _ _ _ HI) in Hcases.
  destruct Hcases as [[_ Hp]|[[_ Hp]|(Hroom & m2 & p & Hres & Hcases)]].
  - exists c. split; [|done]. by eapply (publish_keeps_capacity m); [| |exact Hp].
  - exists c. split; [|done]. by eapply (publish_keeps_capacity m1); [| |exact Hp].
  - destruct Hcases as [(_ & _ & ->)|[Hne Hp]]; [done|].
    rewrite Hno2 in Hroom. injection Hroom as Hroom. apply bool_decide_eq_true in Hroom.
    assert (H = c) as -> by lia.
    rewrite u64_sub, u64_add_l, i64_u64 in Hres by lia. rewrite Z.sub_0_r in Hres.
    apply reserve_cases in Hres as Hcases. destruct Hcases as [Hp2 [->|Hgrew]]; [done|].
    destruct Hgrew as (a & b & k & oc & Hfresh & Hheap & Hq & Hnext & Hmask & Hk & Hn &
                       Hmin & _ & _ & _ & Hmig & _).
    assert (capacity_is m2 (2 ^ k)) as Hc2.
    { unfold capacity_is. rewrite Hq, Hheap. cbn. exists b.
      rewrite lookup_insert_eq. split; [done|lia]. }
    exists (2 ^ k). split.
    { eapply (publish_keeps_capacity m2); [exact Hc2|exact Hp2|exact Hp]. }
    destruct Hpow as [->|(j & Hj & ->)].
    { assert (k = 6) as ->; [|by apply bytes_fit_64; lia].
      destruct (decide (k = 6)) as [|Hk6]; [done|exfalso].
      pose proof (pow2_pos (k - 1) ltac:(lia)). lia. }
    pose proof (pow2_pos j ltac:(lia)) as Hjpos.
    pose proof (pow2_le_mono 6 j ltac:(lia)) as Hj6. change (2 ^ 6) with 64 in Hj6.
    assert (k = j + 1) as ->.
    { assert (j < k) by (apply pow2_lt_inv; lia).
      assert (k - 1 < j + 1); [|lia].
      apply pow2_lt_inv; [lia|]. rewrite Z.pow_add_r, Z.pow_1_r by lia. lia. }
    assert (2 ^ (j + 1) = 2 * 2 ^ j) as Hdbl.
    { rewrite Z.pow_add_r, Z.pow_1_r by lia. lia. }
    pose proof (pow2_le_mono j 62 ltac:(lia)) as Hj62.
    destruct (Z.lt_ge_cases (SIZEOF_BLOCK + 2 ^ (j + 1) * push_item_size (queue m)) (2 ^ 64))
      as [|Hwrap]; [done|exfalso].
    rewrite Hdbl in Hwrap.
    pose proof (wrapped_size_small (2 ^ j) (push_item_size (queue m)) ltac:(lia) ltac:(lia)
                  Hfit ltac:(unfold bytes_fit; lia)) as Hsmall.
    unfold capacity_is in Hc. unfold migrate in Hmig.
    change (push_block (queue m1)) with (push_block (queue m)) in Hmig.
    destruct (push_block (queue m)) as [oa|]; [|lia].
    apply bind_done in Hmig as (ob & _ & Hmig).
    change (pop_tail (queue m1)) with (pop_tail (queue m)) in Hmig.
    change (push_head (queue m1)) with (push_head (queue m)) in Hmig.
    change (push_item_size (queue m1)) with (push_item_size (queue m)) in Hmig.
    rewrite (inv_head _ _ _ _ _ _ HI), (inv_tail _ _ _ _ _ _ HI) in Hmig.
    pose proof (copy_live_bounds _ _ (2 ^ j) _ 0 _ _ ltac:(lia) ltac:(lia) Hmig (2 ^ j - 1)
                  ltac:(lia)) as Hin.
    unfold in_block, _spmc_queue_slot in Hin. cbn [blk_mask blk_size] in Hin.
    rewrite land_mask in Hin by lia.
    rewrite Hdbl, (Z.mod_small (2 ^ j - 1)) in Hin by lia.
    rewrite (u64_small ((2 ^ j - 1) * _)) in Hin
      by (unfold bytes_fit, SIZEOF_BLOCK in Hfit; nia).
    rewrite !andb_true_iff, !Z.leb_le in Hin. nia.
Qed.

(** So does a run of pushes that all reported OK. *)
Lemma push_all_fresh_fit pushes : ∀ m l H E T' c sz m' rs,
  Inv m l H 0 E T' → capacity_is m c → bytes_fit c sz →
  push_all m pushes sz = Done (m', rs) →
  Forall (λ r, res_state r = SPMC_QUEUE_OK) rs →
  ∃ c', capacity_is m' c' ∧ bytes_fit c' sz.
Proof.
  induction pushes as [|[item ok] pushes IH]; intros m l H E T' c sz m' rs HI Hc Hfit Hrun Hok.
  - injection Hrun as <- <-. by exists c.
  - cbn [push_all fst snd] in Hrun.
    apply bind_done in Hrun as ([m1 r1] & Hpush & Hrun).
    apply bind_done in Hrun as ([m2 rs2] & Hrest & Hret).
    injection Hret as <- <-. cbn [fst snd] in *.
    apply Forall_cons in Hok as [Hok1 Hok].
    destruct (push_fresh_fit _ _ _ _ _ _ _ _ _ _ _ HI Hc Hfit Hpush Hok1) as (c1 & Hc1 & Hfit1).
    destruct (push_inv _ _ _ _ _ _ _ _ _ _ _ HI Hpush) as [_ [[_ [T1 HI1]]|[Hfull _]]];
      [|congruence].
    by apply (IH m1 _ _ _ _ c1 sz m2 rs2 HI1 Hc1 Hfit1 Hrest Hok).
Qed.

(** C1.  FIFO order: when the producer has pushed a sequence of items one at
    a time into an empty queue with [push_st], growing the queue as needed, a
    single consumer that calls [pop_st] as many times receives exactly those
    items in push order, and the next [pop_st] reports EMPTY (its buffer left
    alone).  This holds as it stands for pushes that reported OK into a queue
    that was just initialised.  It holds for pushes into any reachable empty
    queue, whatever its history, when the bytes of the block the queue ends
    with are a size that 64 bits hold,
    [sizeof(SPMC_Queue_Block) + capacity * item_size < 2^64]:
    [_spmc_queue_reserve] computes that size in [uint64_t] and asks [malloc]
    for it unchecked.  The pushes themselves go through, each reporting OK,
    whenever the queue is unbounded, the allocator grants the growth and some
    capacity [2^k] whose bytes fit covers the items. *)
Theorem fifo_order m0 pushes sz buf :
  reach m0 [] →
  sz = pop_item_size (queue m0) →
  Forall (λ p, Z.of_nat (length p.1) = sz) pushes →
  Z.of_nat (length buf) = sz →
  (∀ mx m1 rs,
     spmc_queue_init machine_zero sz mx = Done m0 →
     push_all m0 pushes sz = Done (m1, rs) →
     Forall (λ r, res_state r = SPMC_QUEUE_OK) rs →
     ∃ m2 m3 r,
       pop_all (length pushes) m1 buf sz =
         Done (m2, map (λ p, (Some p.1, SPMC_QUEUE_OK)) pushes) ∧
       spmc_queue_result_pop_st m2 (Some buf) sz = Done (m3, Some buf, r) ∧
       res_state r = SPMC_QUEUE_EMPTY) ∧
  (∀ m1 rs c1,
     push_all m0 pushes sz = Done (m1, rs) →
     Forall (λ r, res_state r = SPMC_QUEUE_OK) rs →
     spmc_queue_capacity m1 = Done c1 → bytes_fit c1 sz →
     ∃ m2 m3 r,
       pop_all (length pushes) m1 buf sz =
         Done (m2, map (λ p, (Some p.1, SPMC_QUEUE_OK)) pushes) ∧
       spmc_queue_result_pop_st m2 (Some buf) sz = Done (m3, Some buf, r) ∧
       res_state r = SPMC_QUEUE_EMPTY) ∧
  (∀ c0 k,
     push_max_capacity (queue m0) < 0 →
     Forall (λ p, p.2 = true) pushes →
     spmc_queue_capacity m0 = Done c0 →
     6 ≤ k ≤ 62 → c0 ≤ 2 ^ k → Z.of_nat (length pushes) ≤ 2 ^ k →
     bytes_fit (2 ^ k) sz →
     ∃ m1 rs c1, push_all m0 pushes sz = Done (m1, rs) ∧
                 Forall (λ r, res_state r = SPMC_QUEUE_OK) rs ∧
                 spmc_queue_capacity m1 = Done c1 ∧ bytes_fit c1 sz).
Proof.
  intros Hreach Hsz Hitems Hbuf.
  assert (∀ H T E T' m1 rs c1,
            Inv m0 [] H T E T' →
            push_all m0 pushes sz = Done (m1, rs) →
            Forall (λ r, res_state r = SPMC_QUEUE_OK) rs →
            capacity_is m1 c1 → bytes_fit c1 sz →
            ∃ m2 m3 r,
              pop_all (length pushes) m1 buf sz =
                Done (m2, map (λ p, (Some p.1, SPMC_QUEUE_OK)) pushes) ∧
              spmc_queue_result_pop_st m2 (Some buf) sz = Done (m3, Some buf, r) ∧
              res_state r = SPMC_QUEUE_EMPTY) as Hround.
  { intros H T E T' m1 rs c1 HI Hrun Hok Hc1 Hfit.
    pose proof (inv_size_eq _ _ _ _ _ _ HI) as Hsize.
    destruct (push_all_inv _ _ _ _ _ _ _ _ _ _ HI Hrun Hok) as [T1 HI1]. cbn [app] in HI1.
    destruct (push_all_frame _ _ _ _ _ Hrun) as (_ & Hsz1 & _).
    destruct (pop_all_inv _ _ _ _ _ _ c1 buf sz HI1 ltac:(congruence) ltac:(lia) Hc1 Hfit)
      as (m2 & E2 & Hpops & HI2 & Hsz2).
    rewrite length_map in Hpops.
    eexists m2, _, _. split_and!.
    + rewrite Hpops. f_equal. f_equal. rewrite map_map. apply map_ext_Forall.
      eapply Forall_impl; [exact Hitems|]. intros p Hp. cbn in Hp |- *.
      rewrite drop_ge by lia. rewrite app_nil_r. rewrite take_ge by lia. done.
    + by apply (pop_st_empty _ _ _ _ _ _ _ HI2).
    + done. }
  split_and!.
  - intros mx m1 rs Hinit Hrun Hok.
    pose proof (init_inv _ _ _ _ Hinit) as HI0.
    destruct (init_done_inv _ _ _ _ Hinit) as (_ & h & Hq0 & _).
    assert (capacity_is m0 0) as Hc0 by (unfold capacity_is; by rewrite Hq0).
    destruct (push_all_fresh_fit pushes m0 [] 0 0 0 0 sz m1 rs HI0 Hc0)
      as (c1 & Hc1 & Hfit1); [|done|done|].
    { unfold bytes_fit, SIZEOF_BLOCK. lia. }
    by apply (Hround 0 0 0 0 m1 rs c1).
  - intros m1 rs c1 Hrun Hok Hcap1 Hfit.
    destruct (reach_inv _ _ Hreach) as (H & T & E & T' & HI).
    destruct (push_all_inv _ _ _ _ _ _ _ _ _ _ HI Hrun Hok) as [T1 HI1].
    destruct (capacity_inv _ _ _ _ _ _ HI1) as (c1' & Hcap1' & Hc1 & _).
    rewrite Hcap1 in Hcap1'. injection Hcap1' as <-.
    by apply (Hround H T E T' m1 rs c1).
  - intros c0 k Hmax Hoks Hcap0 Hk Hck Hsmall Hfit.
    destruct (reach_inv _ _ Hreach) as (H & T & E & T' & HI).
    pose proof (inv_size_eq _ _ _ _ _ _ HI) as Hsize.
    pose proof (inv_size_pos _ _ _ _ _ _ HI) as Hsp.
    pose proof (inv_len _ _ _ _ _ _ HI) as Hlen. cbn in Hlen.
    destruct (capacity_inv _ _ _ _ _ _ HI) as (c0' & Hcap0' & Hc0 & _).
    rewrite Hcap0 in Hcap0'. injection Hcap0' as <-.
    destruct (push_all_total pushes m0 [] H T E T' c0 sz k HI Hc0)
      as (m1 & rs & c1 & Hrun & Hok & Hc1 & Hle1); [congruence|done| |done|done|done|lia|].
    { apply Forall_forall. intros p Hp. split.
      + rewrite (proj1 (Forall_forall _ _) Hitems p Hp). lia.
      + by apply (proj1 (Forall_forall _ _) Hoks p Hp). }
    destruct (push_all_inv _ _ _ _ _ _ _ _ _ _ HI Hrun Hok) as [T1 HI1].
    destruct (capacity_inv _ _ _ _ _ _ HI1) as (c1' & Hcap1 & Hc1' & _).
    rewrite <- (capacity_is_fun _ _ _ Hc1 Hc1') in Hcap1.
    exists m1, rs, c1. split_and!; [done|done|done|].
    apply (bytes_fit_mono _ (2 ^ k)); [lia|done|done].
Qed.

Lemma fifo_order_witness :
  ∃ m2 m3 r,
    pop_all 2 (machine_of (push_all (fresh_queue (-1))
                 [(isize_bytes 3, true); (isize_bytes 4, true)] 8))
            (isize_bytes 0) 8 =
      Done (m2, [(Some (isize_bytes 3), SPMC_QUEUE_OK); (Some (isize_bytes 4), SPMC_QUEUE_OK)]) ∧
    spmc_queue_result_pop_st m2 (Some (isize_bytes 0)) 8 = Done (m3, Some (isize_bytes 0), r) ∧
    res_state r = SPMC_QUEUE_EMPTY.
Proof.
  pose (m0 := fresh_queue (-1)).
  pose (pushes := [(isize_bytes 3, true); (isize_bytes 4, true)]).
  assert (reach m0 []) as R by (by apply (reach_fresh 8 (-1))).
  assert (Forall (λ p : list byte * bool, Z.of_nat (length p.1) = 8) pushes) as Hitems
    by (by repeat constructor).
  apply (proj1 (fifo_order m0 pushes 8 (isize_bytes 0) R eq_refl Hitems eq_refl)
           (-1) (machine_of (push_all m0 pushes 8))
           [ {| res_head := 0; res_tail := 0; res_state := SPMC_QUEUE_OK |};
             {| res_head := 1; res_tail := 0; res_state := SPMC_QUEUE_OK |} ]).
  - vm_compute. reflexivity.
  - vm_compute. reflexivity.
  - by repeat constructor.
Defined.

(** C2.  In every reachable state, the states after [init], [reserve],
    [push_st], [pop_st], [pop] and [pop_weak] run one after another, the
    signed 64-bit difference [head - tail] is not negative, is the number of
    items logically present (which is also what [count()] returns), and is at
    most the capacity of the current block. *)
Theorem head_minus_tail_counts_items m l :
  reach m l →
  ∃ c, spmc_queue_capacity m = Done c ∧
       0 ≤ i64 (u64 (push_head (queue m) - pop_tail (queue m))) ∧
       i64 (u64 (push_head (queue m) - pop_tail (queue m))) = Z.of_nat (length l) ∧
       i64 (u64 (push_head (queue m) - pop_tail (queue m))) ≤ c ∧
       spmc_queue_count m = Done (Z.of_nat (length l)).
Proof.
  intros (H & T & E & T' & HI)%reach_inv.
  destruct (capacity_inv _ _ _ _ _ _ HI) as (c & Hcap & _ & _ & Hle & _).
  pose proof (inv_list_small _ _ _ _ _ _ HI) as [Hl1 Hl2].
  pose proof (count_inv _ _ _ _ _ _ HI) as Hcount.
  destruct HI as [Hbe Hse Hsp Hord Hh Ht He Het Hlen Hit Hst].
  exists c. rewrite Hh, Ht, counter_diff by lia. split_and!; [done|lia..|done].
Qed.

Lemma head_minus_tail_counts_items_witness :
  ∃ c, spmc_queue_capacity three_pushed = Done c ∧
       0 ≤ i64 (u64 (push_head (queue three_pushed) - pop_tail (queue three_pushed))) ∧
       i64 (u64 (push_head (queue three_pushed) - pop_tail (queue three_pushed))) = 3 ∧
       i64 (u64 (push_head (queue three_pushed) - pop_tail (queue three_pushed))) ≤ c ∧
       spmc_queue_count three_pushed = Done 3.
Proof.
  exact (head_minus_tail_counts_items three_pushed _ reach_three_pushed).
Defined.

(** C3, counterexample.  With [max_capacity = 1] the first push allocates the
    minimum block of 64 slots, and the second push reports OK, not FULL. *)
Lemma second_push_under_ceiling_one_succeeds : ¬ full_after_ceiling 1.
Proof.
  intros Hclaim.
  destruct (Hclaim 8 [(isize_bytes 0, true)] (fresh_queue 1)
              (machine_of (push_all (fresh_queue 1) [(isize_bytes 0, true)] 8))
              [ {| res_head := 0; res_tail := 0; res_state := SPMC_QUEUE_OK |} ]
              (isize_bytes 1) true)
    as (m2 & r & Hrun & Hr); [done|done|by vm_compute|by repeat constructor|].
  vm_compute in Hrun. injection Hrun as _ <-. discriminate Hr.
Qed.

(** C3, as the code has it.  For a ceiling [K = 2^k] with [64 ≤ K ≤ 2^62], on
    a queue initialised with [max_capacity = K], after [K] pushes that
    reported OK and no pop, one more push reports FULL; and [pop_st] on a
    freshly initialised queue reports EMPTY, whatever the ceiling. *)
Theorem full_at_power_of_two_ceiling k sz pushes m0 m1 rs item ok :
  6 ≤ k ≤ 62 →
  spmc_queue_init machine_zero sz (2 ^ k) = Done m0 →
  Z.of_nat (length pushes) = 2 ^ k →
  push_all m0 pushes sz = Done (m1, rs) →
  Forall (λ r, res_state r = SPMC_QUEUE_OK) rs →
  (∃ m2 r, spmc_queue_result_push_st m1 item sz ok = Done (m2, r) ∧
           res_state r = SPMC_QUEUE_FULL) ∧
  (∀ K mf buf, spmc_queue_init machine_zero sz K = Done mf →
     ∃ m' r, spmc_queue_result_pop_st mf buf sz = Done (m', buf, r) ∧
             res_state r = SPMC_QUEUE_EMPTY).
Proof.
  intros Hk Hinit Hlen Hrun Hok. split.
  - pose proof (init_inv _ _ _ _ Hinit) as HI0.
    destruct (init_done_inv _ _ _ _ Hinit) as (Hsz & h & Hq0 & _).
    destruct (push_all_inv _ _ _ _ _ _ _ _ _ _ HI0 Hrun Hok) as (T1 & HI1).
    assert (within_ceiling m0 (2 ^ k)) as Hc0.
    { split; [by rewrite Hq0|]. exists 0. unfold capacity_is. rewrite Hq0. cbn.
      pose proof (pow2_pos k ltac:(lia)). split; [done|lia]. }
    pose proof (push_all_within_ceiling _ _ _ _ _ _ Hk Hc0 Hrun) as [Hmax (c & Hc & Hle)].
    destruct (push_all_frame _ _ _ _ _ Hrun) as (Hsz1 & _). rewrite Hq0 in Hsz1. cbn in Hsz1.
    pose proof (inv_order _ _ _ _ _ _ HI1) as Hord.
    assert (T1 = 0) as -> by lia.
    pose proof (pow2_pos k ltac:(lia)).
    eexists _, _. split.
    + eapply (push_refused _ _ _ _ _ _ c); [exact HI1|exact Hc| | |done].
      * rewrite Z.add_0_l, Z.sub_0_r. lia.
      * rewrite Hmax. lia.
    + reflexivity.
  - intros K mf buf Hinit'. pose proof (init_inv _ _ _ _ Hinit') as HI.
    destruct (init_done_inv _ _ _ _ Hinit') as (_ & h & Hq & _).
    eexists _, _. split.
    + apply (pop_st_empty _ _ _ _ _ _ _ HI). by rewrite Hq.
    + reflexivity.
Qed.

Lemma full_at_power_of_two_ceiling_witness :
  (∃ m2 r, spmc_queue_result_push_st
             (machine_of (push_all (fresh_queue 64) (pushes_of 0 64) 8))
             (isize_bytes 64) 8 true = Done (m2, r) ∧
           res_state r = SPMC_QUEUE_FULL) ∧
  (∀ K mf buf, spmc_queue_init machine_zero 8 K = Done mf →
     ∃ m' r, spmc_queue_result_pop_st mf buf 8 = Done (m', buf, r) ∧
             res_state r = SPMC_QUEUE_EMPTY).
Proof.
  apply (full_at_power_of_two_ceiling 6 8 (pushes_of 0 64) (fresh_queue 64)
           (machine_of (push_all (fresh_queue 64) (pushes_of 0 64) 8))
           (map (λ i, {| res_head := i; res_tail := 0; res_state := SPMC_QUEUE_OK |})
                (seqZ 0 64))).
  - lia.
  - reflexivity.
  - reflexivity.
  - vm_compute. reflexivity.
  - vm_compute. repeat constructor.
Defined.

(** C4, counterexample.  [reserve(8)] has allocated the minimum block of 64
    slots, so the ninth push finds room and installs no new block. *)
Lemma ninth_push_triggers_no_growth : ¬ ninth_push_grows.
Proof.
  intros Hclaim.
  apply (Hclaim (fresh_queue (-1)) scenario_reserved scenario_eight
           (map (λ i, {| res_head := i; res_tail := 0; res_state := SPMC_QUEUE_OK |})
                (seqZ 0 8))
           scenario_nine
           {| res_head := 8; res_tail := 0; res_state := SPMC_QUEUE_OK |});
    vm_compute; reflexivity.
Qed.

(** C4, as the code has it.  On an unbounded queue of 8-byte items,
    [reserve(8)] allocates a block of 64 slots; the integers 0..7 are pushed,
    then one more value, which needs no growth: the capacity stays 64, which
    is at least 16; [count()] then returns 9; eight calls of [pop_st] return
    0, 1, ..., 7 in order, one more returns the ninth value, and the next
    reports EMPTY. *)
Theorem sequential_scenario :
  spmc_queue_init machine_zero 8 (-1) = Done (fresh_queue (-1)) ∧
  spmc_queue_reserve (fresh_queue (-1)) 8 true = Done scenario_reserved ∧
  spmc_queue_capacity scenario_reserved = Done 64 ∧
  push_all scenario_reserved (pushes_of 0 8) 8 =
    Done (scenario_eight,
          map (λ i, {| res_head := i; res_tail := 0; res_state := SPMC_QUEUE_OK |})
              (seqZ 0 8)) ∧
  spmc_queue_result_push_st scenario_eight (isize_bytes 10) 8 true =
    Done (scenario_nine, {| res_head := 8; res_tail := 0; res_state := SPMC_QUEUE_OK |}) ∧
  push_block (queue scenario_nine) = push_block (queue scenario_eight) ∧
  spmc_queue_capacity scenario_nine = Done 64 ∧
  spmc_queue_count scenario_nine = Done 9 ∧
  ∃ m8 m9 m10 r9 r10,
    pop_all 8 scenario_nine (isize_bytes (-1)) 8 =
      Done (m8, map (λ i, (Some (isize_bytes i), SPMC_QUEUE_OK)) (seqZ 0 8)) ∧
    spmc_queue_result_pop_st m8 (Some (isize_bytes (-1))) 8 =
      Done (m9, Some (isize_bytes 10), r9) ∧
    res_state r9 = SPMC_QUEUE_OK ∧
    spmc_queue_result_pop_st m9 (Some (isize_bytes (-1))) 8 =
      Done (m10, Some (isize_bytes (-1)), r10) ∧
    res_state r10 = SPMC_QUEUE_EMPTY.
Proof.
  do 8 (split; [vm_compute; reflexivity|]).
  pose (o8 := pop_all 8 scenario_nine (isize_bytes (-1)) 8).
  pose (o9 := spmc_queue_result_pop_st (machine_of o8) (Some (isize_bytes (-1))) 8).
  pose (o10 := spmc_queue_result_pop_st
                 (machine_of (r ← o9; mret (r.1.1, ()))) (Some (isize_bytes (-1))) 8).
  exists (machine_of o8), (machine_of (r ← o9; mret (r.1.1, ()))),
         (machine_of (r ← o10; mret (r.1.1, ()))),
         {| res_head := 9; res_tail := 8; res_state := SPMC_QUEUE_OK |},
         {| res_head := 9; res_tail := 9; res_state := SPMC_QUEUE_EMPTY |}.
  split_and!; vm_compute; reflexivity.
Qed.




(** C6.  Whenever growth allocates a new block, called through [reserve] or
    from inside [push_st], the new capacity is the smallest power of two that
    is at least the requested size and at least 64; the old capacity being 0
    or a power of two, the new one is at least twice the old one; and
    [capacity()] afterwards returns that power of two, which is at least the
    number of live items. *)
Theorem growth_capacity m l :
  reach m l →
  ∃ c0, spmc_queue_capacity m = Done c0 ∧ (c0 = 0 ∨ is_pow2 c0) ∧
  (∀ n ok m' p,
     _spmc_queue_reserve m n ok = Done (m', p) →
     p ≠ push_block (queue m) →
     ∃ c, spmc_queue_capacity m' = Done c ∧ is_pow2 c ∧ n ≤ c ∧ 64 ≤ c ∧
          (∀ c', is_pow2 c' → n ≤ c' → 64 ≤ c' → c ≤ c') ∧
          2 * c0 ≤ c ∧ Z.of_nat (length l) ≤ c) ∧
  (∀ item sz ok m' r,
     spmc_queue_result_push_st m item sz ok = Done (m', r) →
     push_block (queue m') ≠ push_block (queue m) →
     ∃ c, spmc_queue_capacity m' = Done c ∧ is_pow2 c ∧
          Z.of_nat (length l) + 1 ≤ c ∧ 64 ≤ c ∧
          (∀ c', is_pow2 c' → Z.of_nat (length l) + 1 ≤ c' → 64 ≤ c' → c ≤ c') ∧
          2 * c0 ≤ c ∧ res_state r = SPMC_QUEUE_OK).
Proof.
  intros (H & T & E & T' & HI)%reach_inv.
  destruct (capacity_inv _ _ _ _ _ _ HI) as (c0 & Hcap0 & Hc0 & _ & _ & Hpow0).
  exists c0. split_and!; [done| | |].
  - destruct Hpow0 as [|(k & ? & ->)]; [by left|right]. exists k. split; [lia|done].
  - intros n ok m' p Hres Hp.
    pose proof (reserve_inv _ _ _ _ _ _ _ _ _ _ HI Hres) as HI'.
    apply reserve_cases in Hres as [-> [->|Hgrew]]; [done|].
    destruct (growth_facts _ _ _ _ _ _ _ _ _ HI Hgrew Hc0) as (c & Hc & Hfacts).
    destruct (capacity_inv _ _ _ _ _ _ HI') as (c' & Hcap' & Hc' & _).
    assert (c' = c) as -> by (by eapply capacity_is_fun).
    exists c. by split.
  - intros item sz ok m' r Hpush Hblock.
    pose proof (inv_refresh_tail _ _ _ _ _ _ HI) as HI1.
    pose proof (inv_list_small _ _ _ _ _ _ HI) as [_ Hl2].
    pose proof (inv_order _ _ _ _ _ _ HI) as Hord.
    pose proof (inv_len _ _ _ _ _ _ HI) as Hlen.
    apply push_cases in Hpush as Hcases. destruct Hcases as [_ Hcases]. cbn zeta in Hcases.
    set (m1 := {| heap := heap m;
                  queue := set_push_estimate_tail (queue m) (pop_tail (queue m)) |}) in *.
    destruct (push_inv _ _ _ _ _ _ _ _ _ _ _ HI Hpush) as [_ [[Hok [T2 HI']]|[Hfull _]]].
    2:{ exfalso. apply Hblock. by rewrite (push_full_frame _ _ _ _ _ _ Hpush Hfull). }
    destruct Hcases as [[_ Hpub]|[[_ Hpub]|(_ & m2 & p & Hres & [(_ & _ & ->)|[Hp Hpub]])]].
    + exfalso. apply Hblock. by apply push_publish_frame in Hpub as (_ & -> & _).
    + exfalso. apply Hblock. by apply push_publish_frame in Hpub as (_ & -> & _).
    + discriminate Hok.
    + apply reserve_cases in Hres as [-> [->|Hgrew]]; [done|].
      rewrite (inv_head _ _ _ _ _ _ HI), (inv_tail _ _ _ _ _ _ HI) in Hgrew.
      rewrite u64_sub, u64_add_l, i64_u64 in Hgrew by lia.
      destruct (growth_facts _ _ _ _ _ _ _ _ c0 HI1 Hgrew) as (c & Hc & Hfacts);
        [exact Hc0|].
      destruct (capacity_inv _ _ _ _ _ _ HI') as (c' & Hcap' & Hc' & _).
      assert (c' = c) as ->.
      { apply push_publish_frame in Hpub as (_ & Hq & a & b & Ha & Hb & Hheap).
        unfold capacity_is in Hc, Hc'. rewrite Hq in Hc'. cbn in Hc'. rewrite Ha in Hc, Hc'.
        destruct Hc as (b1 & Hb1 & ?), Hc' as (b2 & Hb2 & ?).
        rewrite Hheap, lookup_insert_eq in Hb2. injection Hb2 as <-.
        rewrite Hb in Hb1. injection Hb1 as <-. cbn in *. lia. }
      exists c. replace (Z.of_nat (length l) + 1) with (H - T + 1) by lia.
      destruct Hfacts as (? & ? & ? & ? & ? & ?). split_and!; done.
Qed.

Lemma growth_capacity_witness :
  ∃ c, spmc_queue_capacity
         (machine_of (_spmc_queue_reserve three_pushed 100 true)) = Done c ∧
       is_pow2 c ∧ 100 ≤ c ∧ 64 ≤ c ∧
       (∀ c', is_pow2 c' → 100 ≤ c' → 64 ≤ c' → c ≤ c') ∧
       2 * 64 ≤ c ∧ 3 ≤ c.
Proof.
  destruct (growth_capacity three_pushed _ reach_three_pushed) as (c0 & Hc0 & _ & Hres & _).
  injection Hc0 as <-.
  apply (Hres 100 true (machine_of (_spmc_queue_reserve three_pushed 100 true)) (Some 1%nat)).
  - vm_compute. reflexivity.
  - discriminate.
Defined.

(** C7.  Whenever [push_st] reports FULL, because the ceiling is reached or
    because the allocation failed, the call has changed neither the published
    head, nor the published tail, nor the current block, nor any stored item:
    the heap is the same and the item was written nowhere. *)
Theorem push_full_leaves_queue m item sz ok m' r :
  spmc_queue_result_push_st m item sz ok = Done (m', r) →
  res_state r = SPMC_QUEUE_FULL →
  heap m' = heap m ∧
  push_head (queue m') = push_head (queue m) ∧
  pop_tail (queue m') = pop_tail (queue m) ∧
  push_block (queue m') = push_block (queue m) ∧
  pop_block (queue m') = pop_block (queue m).
Proof.
  intros Hrun Hfull. by rewrite (push_full_frame _ _ _ _ _ _ Hrun Hfull).
Qed.

Lemma push_full_leaves_queue_witness :
  let m := fresh_queue (-1) in
  let m' := machine_of (spmc_queue_result_push_st (fresh_queue (-1)) (isize_bytes 3) 8 false) in
  heap m' = heap m ∧
  push_head (queue m') = push_head (queue m) ∧
  pop_tail (queue m') = pop_tail (queue m) ∧
  push_block (queue m') = push_block (queue m) ∧
  pop_block (queue m') = pop_block (queue m).
Proof.
  intros m m'.
  apply (push_full_leaves_queue m (isize_bytes 3) 8 false m'
           {| res_head := 0; res_tail := 0; res_state := SPMC_QUEUE_FULL |}).
  - vm_compute. reflexivity.
  - reflexivity.
Defined.

(** C8.  [reserve] is idempotent.  Two calls of [reserve(n)] in a row leave
    exactly the state of one call, the one call being granted its block if
    either of the two was ([ok1 = ok2] is the allocator answering both alike);
    and a call of [reserve(n)] when the current capacity already covers [n]
    changes nothing. *)
Theorem reserve_idempotent m n ok1 ok2 :
  (m1 ← spmc_queue_reserve m n ok1; spmc_queue_reserve m1 n ok2) =
    spmc_queue_reserve m n (ok1 || ok2) ∧
  (∀ c ok, block_cap (heap m) (push_block (queue m)) = Done c → n ≤ c →
           spmc_queue_reserve m n ok = Done m).
Proof.
  split.
  - unfold spmc_queue_reserve.
    destruct (_spmc_queue_reserve m n ok1) as [[m1 p]| |] eqn:Hfirst.
    + cbn [mbind outcome_bind mret outcome_ret fst].
      apply reserve_cases in Hfirst as Hcases. destruct Hcases as [_ [->|Hgrew]].
      * (* the first call allocated nothing *)
        destruct ok1; [|done]. cbn [orb].
        revert Hfirst. unfold _spmc_queue_reserve.
        destruct (block_cap _ _) as [c| |]; [|done..]. cbn [mbind outcome_bind].
        destruct (_ && _); [|by intros _].
        destruct (grow_capacity _ _ _) as [c'| |]; [|done..]. cbn [mbind outcome_bind malloc].
        destruct (_ <? SIZEOF_BLOCK); [done|].
        destruct (migrate _ _ _) as [nb| |]; [|done..]. cbn.
        intros [= Hm _]. exfalso.
        assert (heap m !! fresh (dom (heap m)) = None) as Hnone
          by apply not_elem_of_dom, is_fresh.
        remember (fresh (dom (heap m))) as a eqn:Ha. clear Ha.
        apply (f_equal (λ m', heap m' !! a)) in Hm. cbn in Hm.
        by rewrite lookup_insert_eq, Hnone in Hm.
      * (* the first call allocated: the second finds the capacity covering [n] *)
        destruct Hgrew as (a & nb & k & oc & Hfresh & Hheap & Hq & Hnext & Hmask & Hk &
                           Hn & _ & Hcap & Hlt & Hmax & Hmig & _).
        pose proof (pow2_le_mono k 62 ltac:(lia)). pose proof (pow2_pos k ltac:(lia)).
        rewrite (reserve_skip m1 n ok2 (2 ^ k)).
        -- cbn. destruct ok1; cbn [orb].
           ++ by rewrite Hfirst.
           ++ exfalso. assert (m1 = m) as ->.
              { revert Hfirst. unfold _spmc_queue_reserve. rewrite Hcap.
                cbn [mbind outcome_bind].
                destruct (_ && _); [destruct (grow_capacity _ _ _); [|done..]|];
                  cbn [mbind outcome_bind mret outcome_ret malloc]; by intros [= -> _]. }
              apply (f_equal (λ h, h !! a)) in Hheap.
              by rewrite lookup_insert_eq, Hfresh in Hheap.
        -- rewrite Hq, Hheap. cbn. unfold deref. rewrite lookup_insert_eq. cbn.
           rewrite Hmask. replace (2 ^ k - 1 + 1) with (2 ^ k) by lia.
           by rewrite i64_u64 by lia.
        -- by left.
    + (* the first call faults: so does the single call *)
      cbn. revert Hfirst. unfold _spmc_queue_reserve.
      destruct (block_cap _ _) as [c| |]; [|done..]. cbn [mbind outcome_bind].
      destruct (_ && _); [|done].
      destruct (grow_capacity _ _ _) as [c'| |]; [|done..]. cbn [mbind outcome_bind].
      destruct ok1; [|done]. cbn [malloc orb].
      destruct (_ <? SIZEOF_BLOCK); [done|].
      by destruct (migrate _ _ _) as [nb| |].
    + (* the first call does not return: neither does the single call *)
      cbn. revert Hfirst. unfold _spmc_queue_reserve.
      destruct (block_cap _ _) as [c| |]; [|done..]. cbn [mbind outcome_bind].
      destruct (_ && _); [|done].
      destruct (grow_capacity _ _ _) as [c'| |]; [|done..]. cbn [mbind outcome_bind].
      destruct ok1; [|done]. cbn [malloc orb].
      destruct (_ <? SIZEOF_BLOCK); [done|].
      by destruct (migrate _ _ _) as [nb| |].
  - intros c ok Hcap Hn. unfold spmc_queue_reserve.
    by rewrite (reserve_skip m n ok c Hcap) by (by left).
Qed.

Lemma reserve_idempotent_witness :
  spmc_queue_reserve three_pushed 40 true = Done three_pushed.
Proof.
  apply (proj2 (reserve_idempotent three_pushed 40 true true) 64 true).
  - reflexivity.
  - lia.
Defined.

(** C9.  On a queue initialised with [max_capacity = 0] every call of
    [push_st] returns FULL and [reserve] never allocates a block: no call
    other than a new [init] changes the machine, whose heap stays empty.
    Zero is a ceiling of zero; a strictly negative [max_capacity] is what
    disables the ceiling, the first push then allocating and reporting OK. *)
Theorem zero_ceiling_refuses isz m0 m :
  spmc_queue_init machine_zero isz 0 = Done m0 →
  reach_from m0 m →
  (∀ item ok, ∃ r, spmc_queue_result_push_st m item isz ok = Done (m, r) ∧
                   res_state r = SPMC_QUEUE_FULL) ∧
  (∀ n ok, _spmc_queue_reserve m n ok = Done (m, None)) ∧
  heap m = ∅ ∧ push_block (queue m) = None ∧ pop_block (queue m) = None ∧
  (∀ mx mn item, mx < 0 → spmc_queue_init machine_zero isz mx = Done mn →
     isz ≤ Z.of_nat (length item) →
     ∃ m1 r, spmc_queue_result_push_st mn item isz true = Done (m1, r) ∧
             res_state r = SPMC_QUEUE_OK).
Proof.
  intros Hinit Hreach.
  destruct (init_done_inv _ _ _ _ Hinit) as (Hsz & _).
  rewrite init_zero in Hinit by done. injection Hinit as <-.
  set (m0 := {| heap := ∅; queue := _ |}) in *.
  assert (∀ n ok, _spmc_queue_reserve m0 n ok = Done (m0, None)) as Hreserve.
  { intros n ok. apply (reserve_skip m0 n ok 0); [done|].
    destruct (Z.le_gt_cases n 0); [by left|right]. cbn. lia. }
  assert (∀ item ok, spmc_queue_result_push_st m0 item isz ok =
            Done (m0, {| res_head := 0; res_tail := 0; res_state := SPMC_QUEUE_FULL |}))
    as Hpush.
  { intros item ok. unfold spmc_queue_result_push_st.
    cbn [m0 queue heap push_item_size push_block push_head push_estimate_tail pop_tail
         no_room mbind outcome_bind set_push_estimate_tail].
    rewrite Z.eqb_refl. fold m0. rewrite Hreserve. cbn [mbind outcome_bind fst snd].
    by rewrite bool_decide_eq_true_2 by done. }
  assert (∀ item sz m' it' r, spmc_queue_result_pop_st m0 item sz = Done (m', it', r) →
            m' = m0) as Hpop.
  { intros item sz m' it' r. unfold spmc_queue_result_pop_st.
    cbn [m0 queue heap pop_item_size pop_tail pop_estimate_head push_head
         set_pop_estimate_head].
    destruct (isz =? sz); [|done]. change (i64 (u64 (0 - 0)) <=? 0) with true.
    cbn zeta. by intros [= <- _ _]. }
  assert (m = m0) as ->.
  { induction Hreach as [|m c m' st _ -> Hc Hstep]; [done|].
    destruct c as [? ?|n ok|item sz ok|item sz|item sz|item sz]; [done|..];
      cbn [step] in Hstep; apply bind_done in Hstep as (x & Hrun & [= <- _]).
    - unfold spmc_queue_reserve in Hrun. rewrite Hreserve in Hrun. by injection Hrun as <-.
    - destruct x as [m' r]. apply push_cases in Hrun as Hsz'. destruct Hsz' as [-> _].
      rewrite Hpush in Hrun. by injection Hrun as <- _.
    - destruct x as [[m' it'] r]. by apply Hpop in Hrun.
    - destruct x as [[m' it'] r].
      rewrite (pop_weak_alone m0 [] 0 0 0 0) in Hrun by (by eapply init_inv, init_zero).
      by apply Hpop in Hrun.
    - destruct x as [[m' it'] r]. unfold spmc_queue_result_pop in Hrun. cbn [pop_among] in Hrun.
      apply bind_done in Hrun as ([[m2 it2] r2] & Hweak & Hrun).
      rewrite (pop_weak_alone m0 [] 0 0 0 0) in Hweak by (by eapply init_inv, init_zero).
      apply Hpop in Hweak as ->. destruct (bool_decide _); [done|]. by injection Hrun as <- _ _. }
  split_and!; try done.
  - intros item ok. eexists. by rewrite Hpush.
  - intros mx mn item Hmx Hinit Hitem. eapply first_push_ok; eauto.
Qed.

Lemma zero_ceiling_refuses_witness :
  ∃ r, spmc_queue_result_push_st (fresh_queue 0) (isize_bytes 5) 8 true
         = Done (fresh_queue 0, r) ∧
       res_state r = SPMC_QUEUE_FULL.
Proof.
  refine (proj1 (zero_ceiling_refuses 8 (fresh_queue 0) (fresh_queue 0) _ _)
            (isize_bytes 5) true).
  - reflexivity.
  - apply (reach_from_step _ (fresh_queue 0) (PopSt None 8) (fresh_queue 0) SPMC_QUEUE_EMPTY).
    + apply reach_from_start.
    + reflexivity.
    + reflexivity.
Defined.

(** C10.  On a queue that is not empty, [pop_st], [pop_weak] and [pop] called
    with a NULL output pointer still dequeue the oldest item: each returns OK,
    has advanced the tail by one, leaves the rest of the content in place and
    copies nothing out (the heap is not touched, no buffer is returned). *)
Theorem pop_null_dequeues m x l sz :
  reach m (x :: l) →
  sz = pop_item_size (queue m) →
  (∃ m' r, spmc_queue_result_pop_st m None sz = Done (m', None, r) ∧
           res_state r = SPMC_QUEUE_OK ∧ heap m' = heap m ∧
           pop_tail (queue m') = u64 (pop_tail (queue m) + 1) ∧ reach m' l) ∧
  (∃ m' r, spmc_queue_result_pop_weak m None sz = Done (m', None, r) ∧
           res_state r = SPMC_QUEUE_OK ∧ heap m' = heap m ∧
           pop_tail (queue m') = u64 (pop_tail (queue m) + 1) ∧ reach m' l) ∧
  (∃ m' r, spmc_queue_result_pop m None sz = Done (m', None, r) ∧
           res_state r = SPMC_QUEUE_OK ∧ heap m' = heap m ∧
           pop_tail (queue m') = u64 (pop_tail (queue m) + 1) ∧ reach m' l).
Proof.
  intros Hreach Hsz. destruct (reach_inv _ _ Hreach) as (H & T & E & T' & HI).
  destruct (pop_st_steps _ _ _ _ _ _ _ None _ HI Hsz)
    as (m' & r & E' & Hpop & Hr & _ & Hheap & Htail & _).
  cbn in Hpop.
  rewrite (pop_alone _ _ _ _ _ _ None _ HI Hsz), (pop_weak_alone _ _ _ _ _ _ None sz HI).
  split_and!; exists m', r; split_and!; try done.
  - apply (reach_step m (x :: l) (PopSt None sz) m' SPMC_QUEUE_OK Hreach).
    cbn. rewrite Hpop. cbn. by rewrite Hr.
  - apply (reach_step m (x :: l) (PopSt None sz) m' SPMC_QUEUE_OK Hreach).
    cbn. rewrite Hpop. cbn. by rewrite Hr.
  - apply (reach_step m (x :: l) (PopSt None sz) m' SPMC_QUEUE_OK Hreach).
    cbn. rewrite Hpop. cbn. by rewrite Hr.
Qed.

Lemma pop_null_dequeues_witness :
  ∃ m' r, spmc_queue_result_pop three_pushed None 8 = Done (m', None, r) ∧
          res_state r = SPMC_QUEUE_OK ∧ heap m' = heap three_pushed ∧
          pop_tail (queue m') = u64 (pop_tail (queue three_pushed) + 1) ∧
          reach m' [isize_bytes 1; isize_bytes 2].
Proof.
  apply (pop_null_dequeues three_pushed (isize_bytes 0) [isize_bytes 1; isize_bytes 2] 8).
  - exact reach_three_pushed.
  - reflexivity.
Defined.

(** * Further properties of the interface *)

(** ** One call, step by step *)

(** [pop], run alone on a state of the invariant, is the [pop_st] of the same
    arguments, whatever the item size passed. *)
Lemma pop_is_pop_st m l H T E T' item sz :
  Inv m l H T E T' →
  spmc_queue_result_pop m item sz = spmc_queue_result_pop_st m item sz.
Proof.
  intros HI. destruct (decide (sz = pop_item_size (queue m))) as [Hsz|Hsz].
  - by eapply pop_alone.
  - unfold spmc_queue_result_pop. cbn [pop_among].
    rewrite (pop_weak_alone _ _ _ _ _ _ _ _ HI).
    unfold spmc_queue_result_pop_st.
    by destruct (Z.eqb_spec (pop_item_size (queue m)) sz); [congruence|].
Qed.

(** What a call other than [init] does to the counters and to the capacity:
    the head and the tail move forward by at most one, the capacity does not
    shrink, the configuration stays. *)
Lemma step_progress m l H T E T' c0 c m' st :
  Inv m l H T E T' → capacity_is m c0 →
  is_init c = false →
  step m c = Done (m', st) →
  ∃ H1 T1 E1 T1' c1,
    Inv m' (effect c st l) H1 T1 E1 T1' ∧
    H ≤ H1 ≤ H + 1 ∧ T ≤ T1 ≤ T + 1 ∧
    capacity_is m' c1 ∧ c0 ≤ c1 ∧
    push_max_capacity (queue m') = push_max_capacity (queue m) ∧
    push_item_size (queue m') = push_item_size (queue m).
Proof.
  intros HI Hc0 Hinit Hstep.
  assert (∀ item sz m1 item' r,
            spmc_queue_result_pop_st m item sz = Done (m1, item', r) →
            ∃ H1 T1 E1 T1' c1,
              Inv m1 (effect (PopSt item sz) (res_state r) l) H1 T1 E1 T1' ∧
              H ≤ H1 ≤ H + 1 ∧ T ≤ T1 ≤ T + 1 ∧
              capacity_is m1 c1 ∧ c0 ≤ c1 ∧
              push_max_capacity (queue m1) = push_max_capacity (queue m) ∧
              push_item_size (queue m1) = push_item_size (queue m)) as Hpop.
  { intros item sz m1 item' r Hrun.
    pose proof (pop_st_size _ _ _ _ Hrun) as Hsz.
    destruct (pop_st_frame _ _ _ _ _ _ Hrun) as (Hheap & Hblk & _ & _ & Hmax).
    assert (capacity_is m1 c0) as Hc1 by (unfold capacity_is in *; by rewrite Hblk, Hheap).
    assert (push_item_size (queue m1) = push_item_size (queue m)) as Hisz.
    { revert Hrun. unfold spmc_queue_result_pop_st. destruct (_ =? sz); [|done]. cbn zeta.
      destruct (_ <=? 0); [destruct (_ <=? 0)|].
      - by intros [= <- _ _].
      - by intros (? & _ & [= <- _ _])%bind_done.
      - by intros (? & _ & [= <- _ _])%bind_done. }
    cbn [effect]. destruct l as [|x l].
    - rewrite (pop_st_empty _ _ _ _ _ _ _ HI Hsz) in Hrun. injection Hrun as <- <- <-.
      cbn. apply inv_refresh_head in HI. exists H, T, H, T', c0. split_and!; try done; lia.
    - destruct (pop_st_steps _ _ _ _ _ _ _ item _ HI Hsz) as (m2 & r2 & E' & Heq & Hr & _ & _ & _ & HI').
      rewrite Heq in Hrun. apply bind_done in Hrun as (it & _ & [= <- <- <-]).
      rewrite Hr. cbn. rewrite drop_0. exists H, (T + 1), E', T', c0.
      split_and!; try done; lia. }
  destruct c as [isz mx|n ok|item sz ok|item sz|item sz|item sz]; [done|..];
    cbn [step] in Hstep.
  - apply bind_done in Hstep as (m1 & Hrun & [= <- <-]). cbn [effect].
    unfold spmc_queue_reserve in Hrun. apply bind_done in Hrun as ([m2 p] & Hrun & [= <-]).
    pose proof (reserve_inv _ _ _ _ _ _ _ _ _ _ HI Hrun) as HI'.
    apply reserve_cases in Hrun as [_ [->|Hgrew]].
    + exists H, T, E, T', c0. split_and!; try done; lia.
    + destruct (growth_facts _ _ _ _ _ _ _ _ _ HI Hgrew Hc0) as (c1 & Hc1 & _ & _ & _ & _ & Hdouble & _).
      destruct (capacity_inv _ _ _ _ _ _ HI) as (c0' & _ & Hc0' & _ & Hle & _).
      rewrite <- (capacity_is_fun _ _ _ Hc0 Hc0') in Hle.
      pose proof (inv_order _ _ _ _ _ _ HI).
      destruct Hgrew as (?&?&?&?&_&_&Hq&_).
      exists H, T, E, T', c1. rewrite Hq. split_and!; try done; lia.
  - apply bind_done in Hstep as ([m1 r] & Hrun & [= <- <-]). cbn [fst snd effect].
    destruct (push_frame _ _ _ _ _ _ Hrun) as (Hisz & _ & Hmax & _).
    pose proof (inv_order _ _ _ _ _ _ HI) as Hord.
    destruct (capacity_inv _ _ _ _ _ _ HI) as (c0' & _ & Hc0' & _ & Hle & _).
    rewrite <- (capacity_is_fun _ _ _ Hc0 Hc0') in Hle. clear c0' Hc0'.
    assert (∃ c1, capacity_is m1 c1 ∧ c0 ≤ c1) as (c1 & Hc1 & Hle1).
    { apply push_cases in Hrun as Hcases. destruct Hcases as [_ Hcases]. cbn zeta in Hcases.
      assert (∀ m2 c2 p hd tl, capacity_is m2 c2 → p = push_block (queue m2) →
                push_publish m2 p hd tl item sz = Done (m1, r) → capacity_is m1 c2) as Hpub.
      { intros m2 c2 p hd tl Hc2 -> Hpub.
        apply push_publish_frame in Hpub as (_ & Hq & a & b & Ha & Hb & Hheap).
        unfold capacity_is in *. rewrite Hq. cbn. rewrite Ha in Hc2 |- *.
        destruct Hc2 as (b1 & Hb1 & Hm1). rewrite Hb in Hb1. injection Hb1 as <-.
        eexists. rewrite Hheap, lookup_insert_eq. split; [done|]. by cbn. }
      destruct Hcases as [[_ Hp]|[[_ Hp]|(_ & m2 & p & Hres & Hcases)]].
      - exists c0. split; [|lia]. by eapply (Hpub m).
      - exists c0. split; [|lia]. eapply (Hpub _ c0); [| |exact Hp]; done.
      - pose proof (inv_refresh_tail _ _ _ _ _ _ HI) as HI1.
        apply reserve_cases in Hres as [-> [->|Hgrew]].
        + exists c0. split; [|lia]. destruct Hcases as [(_ & -> & _)|[_ Hp]]; [done|].
          eapply (Hpub _ c0); [| |exact Hp]; done.
        + destruct (growth_facts _ _ _ _ _ _ _ _ c0 HI1 Hgrew) as (c1 & Hc1 & _ & _ & _ & _ & Hdouble & _);
            [done|].
          exists c1. split; [|lia]. destruct Hcases as [(_ & -> & _)|[_ Hp]]; [done|].
          by eapply Hpub. }
    apply (push_inv _ _ _ _ _ _ _ _ _ _ _ HI) in Hrun as [_ [[-> [T'' HI']]|[-> HI']]].
    + rewrite bool_decide_eq_true_2 by done.
      exists (H + 1), T, E, T'', c1. split_and!; try done; lia.
    + rewrite bool_decide_eq_false_2 by done.
      exists H, T, E, T, c1. split_and!; try done; lia.
  - apply bind_done in Hstep as ([[m1 item'] r] & Hrun & [= <- <-]). cbn [fst snd].
    by eapply Hpop.
  - apply bind_done in Hstep as ([[m1 item'] r] & Hrun & [= <- <-]). cbn [fst snd].
    rewrite (pop_weak_alone _ _ _ _ _ _ _ _ HI) in Hrun. by eapply Hpop.
  - apply bind_done in Hstep as ([[m1 item'] r] & Hrun & [= <- <-]). cbn [fst snd].
    rewrite (pop_is_pop_st _ _ _ _ _ _ _ _ HI) in Hrun. by eapply Hpop.
Qed.

(** The same over a run of calls. *)
Lemma run_progress cs : ∀ m l H T E T' c0 m' l',
  Inv m l H T E T' → capacity_is m c0 →
  forallb (λ c, negb (is_init c)) cs = true →
  run m l cs = Done (m', l') →
  ∃ H1 T1 E1 T1' c1,
    Inv m' l' H1 T1 E1 T1' ∧
    H ≤ H1 ≤ H + Z.of_nat (length cs) ∧ T ≤ T1 ≤ T + Z.of_nat (length cs) ∧
    capacity_is m' c1 ∧ c0 ≤ c1 ∧
    push_max_capacity (queue m') = push_max_capacity (queue m) ∧
    push_item_size (queue m') = push_item_size (queue m).
Proof.
  induction cs as [|c cs IH]; intros m l H T E T' c0 m' l' HI Hc0 Hno Hrun.
  - injection Hrun as <- <-. exists H, T, E, T', c0. cbn. split_and!; try done; lia.
  - cbn [run] in Hrun. apply bind_done in Hrun as ([m1 st] & Hstep & Hrun).
    cbn [fst snd] in Hrun. cbn [forallb] in Hno. apply andb_prop in Hno as [Hc Hno].
    apply negb_true_iff in Hc.
    destruct (step_progress _ _ _ _ _ _ _ _ _ _ HI Hc0 Hc Hstep)
      as (H1 & T1 & E1 & T1' & c1 & HI1 & HH & HT & Hc1 & Hle & Hmax & Hisz).
    destruct (IH _ _ _ _ _ _ _ _ _ HI1 Hc1 Hno Hrun)
      as (H2 & T2 & E2 & T2' & c2 & HI2 & HH2 & HT2 & Hc2 & Hle2 & Hmax2 & Hisz2).
    exists H2, T2, E2, T2', c2. cbn [length]. split_and!; try done; try lia; congruence.
Qed.

Lemma run_reach cs : ∀ m l m' l',
  reach m l → run m l cs = Done (m', l') → reach m' l'.
Proof.
  induction cs as [|c cs IH]; intros m l m' l' Hreach Hrun.
  - by injection Hrun as <- <-.
  - cbn [run] in Hrun. apply bind_done in Hrun as ([m1 st] & Hstep & Hrun).
    eapply IH; [|exact Hrun]. by eapply reach_step.
Qed.

(** ** Ownership of the blocks *)

Lemma free_chain_exact addrs : ∀ (h : gmap nat SPMC_Queue_Block) p (fuel : nat),
  chain h p addrs → (length addrs ≤ fuel)%nat →
  ∃ h', free_chain fuel h p = Done h' ∧ (size h' + length addrs = size h)%nat.
Proof.
  induction addrs as [|a rest IH]; intros h p fuel; cbn.
  - intros -> _. exists h. split; [by destruct fuel|lia].
  - intros (-> & b & Hb & Hrest) Hfuel. destruct fuel as [|fuel]; [lia|].
    cbn. rewrite Hb. destruct (IH _ _ fuel Hrest ltac:(lia)) as (h' & -> & Hsize).
    exists h'. split; [done|]. rewrite map_size_delete_Some in Hsize by eauto.
    assert (size h ≠ 0%nat); [|lia].
    intros Hz. apply map_size_empty_inv in Hz. subst h. by rewrite lookup_empty in Hb.
Qed.

Lemma deinit_owned m : owns_heap m → spmc_queue_deinit m = Done machine_zero.
Proof.
  intros (addrs & Hchain & Hsize). unfold spmc_queue_deinit.
  destruct (free_chain_exact _ _ _ (size (heap m)) Hchain ltac:(lia)) as (h' & -> & Hs).
  cbn. assert (h' = ∅) as -> by (apply map_size_empty_inv; lia). done.
Qed.

Lemma owns_heap_publish m p hd tl item sz m' r :
  owns_heap m → p = push_block (queue m) →
  push_publish m p hd tl item sz = Done (m', r) → owns_heap m'.
Proof.
  intros (addrs & Hchain & Hsize) -> Hpub.
  apply push_publish_frame in Hpub as (_ & Hq & a & b & Ha & Hb & Hheap).
  exists addrs. rewrite Hq, Hheap. cbn [push_block set_push_head]. rewrite Ha in *.
  destruct addrs as [|a' rest]; [done|]. cbn in Hchain |- *.
  destruct Hchain as ([= <-] & b' & Hb' & Hrest). rewrite Hb in Hb'. injection Hb' as <-.
  split.
  - split; [done|]. eexists. rewrite lookup_insert_eq. split; [done|].
    by rewrite delete_insert_eq.
  - rewrite map_size_insert_Some by eauto. done.
Qed.

Lemma owns_heap_reserve m n ok m' p :
  owns_heap m → _spmc_queue_reserve m n ok = Done (m', p) → owns_heap m'.
Proof.
  intros (addrs & Hchain & Hsize) Hres.
  apply reserve_cases in Hres as [_ [->|Hgrew]]; [by exists addrs|].
  destruct Hgrew as (a & nb & k & oc & Hfresh & Hheap & Hq & Hnext & _).
  exists (a :: addrs). rewrite Hq, Hheap. cbn. split.
  - split; [done|]. exists nb. rewrite lookup_insert_eq. split; [done|].
    by rewrite delete_insert_eq, delete_id, Hnext.
  - rewrite map_size_insert_None by done. lia.
Qed.

Lemma owns_heap_refresh m tl :
  owns_heap m → owns_heap {| heap := heap m; queue := set_push_estimate_tail (queue m) tl |}.
Proof. done. Qed.

(** In every reachable state the heap holds the chain of the current block
    and nothing else. *)
Lemma reach_owns m l : reach m l → owns_heap m.
Proof.
  induction 1 as [isz mx m Hinit|m l c m' st Hreach IH Hstep].
  - rewrite init_zero in Hinit by (by apply init_done_inv in Hinit as [? _]).
    injection Hinit as <-. by exists [].
  - destruct (reach_inv _ _ Hreach) as (H & T & E & T' & HI).
    destruct c as [isz mx|n ok|item sz ok|item sz|item sz|item sz]; cbn [step] in Hstep.
    + apply bind_done in Hstep as (m1 & Hrun & [= <- _]).
      unfold spmc_queue_init in Hrun. destruct (_ && _); [|done].
      rewrite (deinit_owned _ IH) in Hrun. injection Hrun as <-. by exists [].
    + apply bind_done in Hstep as (m1 & Hrun & [= <- _]).
      unfold spmc_queue_reserve in Hrun. apply bind_done in Hrun as ([m2 p] & Hrun & [= <-]).
      by eapply owns_heap_reserve.
    + apply bind_done in Hstep as ([m1 r] & Hrun & [= <- _]).
      apply push_cases in Hrun as [_ Hcases]. cbn zeta in Hcases.
      destruct Hcases as [[_ Hp]|[[_ Hp]|(_ & m2 & p & Hres & Hcases)]].
      * by eapply owns_heap_publish.
      * eapply owns_heap_publish; [|done|exact Hp]. by apply owns_heap_refresh.
      * pose proof (owns_heap_reserve _ _ _ _ _ (owns_heap_refresh _ _ IH) Hres) as IH2.
        destruct Hcases as [(_ & -> & _)|[_ Hp]]; [done|].
        apply reserve_cases in Hres as [-> _]. by eapply owns_heap_publish.
    + apply bind_done in Hstep as ([[m1 item'] r] & Hrun & [= <- _]).
      destruct (pop_st_frame _ _ _ _ _ _ Hrun) as (Hheap & Hblk & _).
      unfold owns_heap. by rewrite Hheap, Hblk.
    + apply bind_done in Hstep as ([[m1 item'] r] & Hrun & [= <- _]).
      rewrite (pop_weak_alone _ _ _ _ _ _ _ _ HI) in Hrun.
      destruct (pop_st_frame _ _ _ _ _ _ Hrun) as (Hheap & Hblk & _).
      unfold owns_heap. by rewrite Hheap, Hblk.
    + apply bind_done in Hstep as ([[m1 item'] r] & Hrun & [= <- _]).
      rewrite (pop_is_pop_st _ _ _ _ _ _ _ _ HI) in Hrun.
      destruct (pop_st_frame _ _ _ _ _ _ Hrun) as (Hheap & Hblk & _).
      unfold owns_heap. by rewrite Hheap, Hblk.
Qed.

(** X1.  Teardown releases everything: on every reachable queue
    [spmc_queue_deinit] returns, has freed every block that was ever
    allocated (the current one and all retired ones) and leaves the zeroed
    struct, so that a second [spmc_queue_deinit] finds nothing to do. *)
Theorem deinit_releases_every_block m l :
  reach m l →
  spmc_queue_deinit m = Done machine_zero ∧
  spmc_queue_deinit machine_zero = Done machine_zero.
Proof.
  intros Hreach. split; [|done]. by apply deinit_owned, (reach_owns m l).
Qed.

Lemma deinit_releases_every_block_witness :
  spmc_queue_deinit three_pushed = Done machine_zero ∧
  spmc_queue_deinit machine_zero = Done machine_zero.
Proof.
  exact (deinit_releases_every_block three_pushed _ reach_three_pushed).
Defined.

(** X2.  Re-initialising a queue that is in use is initialising a zeroed one:
    for every item size and ceiling the call returns exactly what it returns
    on the zeroed struct, with no block left allocated, and the queue is then
    empty ([pop_st] reports EMPTY, [count()] and [capacity()] return 0). *)
Theorem init_of_used_queue_is_fresh m l isz mx :
  reach m l →
  0 < isz ≤ UINT32_MAX →
  spmc_queue_init m isz mx = spmc_queue_init machine_zero isz mx ∧
  ∃ m', spmc_queue_init m isz mx = Done m' ∧ heap m' = ∅ ∧
        spmc_queue_count m' = Done 0 ∧ spmc_queue_capacity m' = Done 0 ∧
        ∀ item, ∃ r, spmc_queue_result_pop_st m' item isz = Done (m', item, r) ∧
                     res_state r = SPMC_QUEUE_EMPTY.
Proof.
  intros Hreach Hsz.
  assert (spmc_queue_init m isz mx = spmc_queue_init machine_zero isz mx) as Heq.
  { unfold spmc_queue_init. destruct (_ && _); [|done].
    by rewrite (deinit_owned _ (reach_owns _ _ Hreach)). }
  split; [done|]. rewrite Heq, init_zero by done. eexists. split; [done|].
  split_and!; try done.
  intros item. eexists. split.
  - unfold spmc_queue_result_pop_st. cbn. by rewrite Z.eqb_refl.
  - reflexivity.
Qed.

Lemma init_of_used_queue_is_fresh_witness :
  spmc_queue_init three_pushed 4 16 = spmc_queue_init machine_zero 4 16 ∧
  ∃ m', spmc_queue_init three_pushed 4 16 = Done m' ∧ heap m' = ∅ ∧
        spmc_queue_count m' = Done 0 ∧ spmc_queue_capacity m' = Done 0 ∧
        ∀ item, ∃ r, spmc_queue_result_pop_st m' item 4 = Done (m', item, r) ∧
                     res_state r = SPMC_QUEUE_EMPTY.
Proof.
  apply (init_of_used_queue_is_fresh three_pushed
           [isize_bytes 0; isize_bytes 1; isize_bytes 2] 4 16 reach_three_pushed).
  unfold UINT32_MAX. lia.
Defined.

(** ** Pops *)

(** X3.  Run by a single thread, [pop_weak] and [pop] do exactly what
    [pop_st] does, on every reachable queue and for all arguments: same
    machine afterwards, same buffer, same result. *)
Theorem pops_agree_when_alone m l item sz :
  reach m l →
  spmc_queue_result_pop_weak m item sz = spmc_queue_result_pop_st m item sz ∧
  spmc_queue_result_pop m item sz = spmc_queue_result_pop_st m item sz.
Proof.
  intros (H & T & E & T' & HI)%reach_inv. split.
  - by eapply pop_weak_alone.
  - by eapply pop_is_pop_st.
Qed.

Lemma pops_agree_when_alone_witness :
  spmc_queue_result_pop_weak three_pushed (Some (isize_bytes 9)) 8 =
    spmc_queue_result_pop_st three_pushed (Some (isize_bytes 9)) 8 ∧
  spmc_queue_result_pop three_pushed (Some (isize_bytes 9)) 8 =
    spmc_queue_result_pop_st three_pushed (Some (isize_bytes 9)) 8.
Proof.
  exact (pops_agree_when_alone three_pushed _ (Some (isize_bytes 9)) 8 reach_three_pushed).
Defined.

(** X4.  A pop on an empty queue, fresh or drained: [pop_st], [pop_weak] and
    [pop] all report EMPTY, hand the caller's buffer back untouched and change
    neither the heap nor the head nor the tail; the queue stays usable. *)
Theorem pop_on_empty_queue m item sz :
  reach m [] →
  sz = pop_item_size (queue m) →
  ∃ m' r,
    spmc_queue_result_pop_st m item sz = Done (m', item, r) ∧
    spmc_queue_result_pop_weak m item sz = Done (m', item, r) ∧
    spmc_queue_result_pop m item sz = Done (m', item, r) ∧
    res_state r = SPMC_QUEUE_EMPTY ∧
    heap m' = heap m ∧ push_head (queue m') = push_head (queue m) ∧
    pop_tail (queue m') = pop_tail (queue m) ∧ reach m' [].
Proof.
  intros Hreach Hsz. destruct (reach_inv _ _ Hreach) as (H & T & E & T' & HI).
  pose proof (pop_st_empty _ _ _ _ _ item _ HI Hsz) as Hpop.
  eexists _, _.
  rewrite (pop_weak_alone _ _ _ _ _ _ _ _ HI), (pop_is_pop_st _ _ _ _ _ _ _ _ HI).
  split_and!; try exact Hpop; try done.
  apply (reach_step m [] (PopSt item sz) _ SPMC_QUEUE_EMPTY Hreach).
  cbn. by rewrite Hpop.
Qed.

Lemma pop_on_empty_queue_witness :
  ∃ m' r,
    spmc_queue_result_pop_st (fresh_queue 16) (Some (isize_bytes 9)) 8
      = Done (m', Some (isize_bytes 9), r) ∧
    spmc_queue_result_pop_weak (fresh_queue 16) (Some (isize_bytes 9)) 8
      = Done (m', Some (isize_bytes 9), r) ∧
    spmc_queue_result_pop (fresh_queue 16) (Some (isize_bytes 9)) 8
      = Done (m', Some (isize_bytes 9), r) ∧
    res_state r = SPMC_QUEUE_EMPTY ∧
    heap m' = heap (fresh_queue 16) ∧
    push_head (queue m') = push_head (queue (fresh_queue 16)) ∧
    pop_tail (queue m') = pop_tail (queue (fresh_queue 16)) ∧ reach m' [].
Proof.
  apply (pop_on_empty_queue (fresh_queue 16) (Some (isize_bytes 9)) 8).
  - by apply (reach_fresh 8 16).
  - reflexivity.
Defined.

(** What [capacity()] returns on a reachable queue is the capacity of the
    current block. *)
Lemma capacity_reach m l c :
  reach m l → spmc_queue_capacity m = Done c → capacity_is m c.
Proof.
  intros (H & T & E & T' & HI)%reach_inv Hcap.
  destruct (capacity_inv _ _ _ _ _ _ HI) as (c' & Hcap' & Hc & _).
  rewrite Hcap in Hcap'. by injection Hcap' as <-.
Qed.

(** Draining a reachable queue whose bytes fit, with the states it goes
    through. *)
Lemma drain_reach l : ∀ m c buf sz,
  reach m l →
  sz = pop_item_size (queue m) →
  Z.of_nat (length buf) = sz →
  capacity_is m c → bytes_fit c sz →
  ∃ m',
    pop_all (length l) m buf sz = Done (m', map (λ x, (Some x, SPMC_QUEUE_OK)) l) ∧
    reach m' [] ∧ pop_item_size (queue m') = sz.
Proof.
  induction l as [|x l IH]; intros m c buf sz Hreach Hsz Hbuf Hc Hfit.
  - exists m. by cbn.
  - destruct (reach_inv _ _ Hreach) as (H & T & E & T' & HI).
    destruct (pop_st_item _ _ _ _ _ _ _ c (Some buf) _ HI Hsz Hc Hfit)
      as (m1 & r & E1 & Hpop & Hr & _ & _ & _ & HI1).
    rewrite copy_out_fits in Hpop by (intros ? [= <-]; lia).
    cbn [fmap option_fmap option_map mbind outcome_bind] in Hpop.
    assert (x ++ drop (Z.to_nat sz) buf = x) as Hx.
    { rewrite drop_ge by lia. apply app_nil_r. }
    rewrite Hx in Hpop.
    assert (reach m1 l) as Hreach1.
    { apply (reach_step m (x :: l) (PopSt (Some buf) sz) m1 SPMC_QUEUE_OK Hreach).
      cbn. rewrite Hpop. cbn. by rewrite Hr. }
    destruct (pop_st_keeps _ _ _ _ _ _ c Hpop Hc) as (Hc1 & Hsz1 & _).
    destruct (IH m1 c buf sz Hreach1 ltac:(congruence) Hbuf Hc1 Hfit)
      as (m2 & Hrest & Hreach2 & Hsz2).
    exists m2. cbn [pop_all length map]. rewrite Hpop. cbn. rewrite Hrest. cbn.
    by rewrite Hr.
Qed.

(** X5.  The queue holds a list: in every reachable state whose block has
    bytes that fit ([sizeof(SPMC_Queue_Block) + capacity * item_size < 2^64],
    so that the size asked from [malloc] did not wrap), whatever pushes, pops
    and growth steps led to it, as many calls of [pop_st] as there are items
    return exactly the items logically present, oldest first, each with OK,
    and the call after that reports EMPTY.  Growth has lost, duplicated or
    reordered nothing. *)
Theorem drain_returns_content m l c buf sz :
  reach m l →
  sz = pop_item_size (queue m) →
  Z.of_nat (length buf) = sz →
  spmc_queue_capacity m = Done c → bytes_fit c sz →
  ∃ m' m'' r,
    pop_all (length l) m buf sz = Done (m', map (λ x, (Some x, SPMC_QUEUE_OK)) l) ∧
    spmc_queue_result_pop_st m' (Some buf) sz = Done (m'', Some buf, r) ∧
    res_state r = SPMC_QUEUE_EMPTY.
Proof.
  intros Hreach Hsz Hbuf Hcap Hfit.
  pose proof (capacity_reach _ _ _ Hreach Hcap) as Hc.
  destruct (drain_reach l m c buf sz Hreach Hsz Hbuf Hc Hfit) as (m' & Hdrain & Hreach' & Hsz').
  destruct (reach_inv _ _ Hreach') as (H & T & E & T' & HI).
  exists m'. eexists _, _. split; [done|]. split.
  - by apply (pop_st_empty _ _ _ _ _ _ _ HI).
  - done.
Qed.

Lemma drain_returns_content_witness :
  ∃ m' m'' r,
    pop_all 3 three_pushed (isize_bytes 9) 8 =
      Done (m', [(Some (isize_bytes 0), SPMC_QUEUE_OK); (Some (isize_bytes 1), SPMC_QUEUE_OK);
                 (Some (isize_bytes 2), SPMC_QUEUE_OK)]) ∧
    spmc_queue_result_pop_st m' (Some (isize_bytes 9)) 8 = Done (m'', Some (isize_bytes 9), r) ∧
    res_state r = SPMC_QUEUE_EMPTY.
Proof.
  apply (drain_returns_content three_pushed _ 64 (isize_bytes 9) 8 reach_three_pushed).
  - reflexivity.
  - reflexivity.
  - reflexivity.
  - vm_compute. reflexivity.
Defined.

(** X6.  The boolean wrappers [spmc_queue_pop_st] and [spmc_queue_pop] return
    true exactly when the queue holds an item; the caller then has the oldest
    item in its buffer and the queue holds the rest (the bytes of the block
    being a size that fits, as in X5). *)
Theorem pop_succeeds_iff_not_empty m l c buf sz :
  reach m l →
  sz = pop_item_size (queue m) →
  Z.of_nat (length buf) = sz →
  spmc_queue_capacity m = Done c → bytes_fit c sz →
  ∃ m',
    spmc_queue_pop_st m (Some buf) sz =
      Done (m', Some (default buf (head l)), bool_decide (l ≠ [])) ∧
    spmc_queue_pop m (Some buf) sz =
      Done (m', Some (default buf (head l)), bool_decide (l ≠ [])) ∧
    reach m' (drop 1 l).
Proof.
  intros Hreach Hsz Hbuf Hcap Hfit.
  pose proof (capacity_reach _ _ _ Hreach Hcap) as Hc.
  destruct (reach_inv _ _ Hreach) as (H & T & E & T' & HI).
  unfold spmc_queue_pop_st, spmc_queue_pop. rewrite (pop_is_pop_st _ _ _ _ _ _ _ _ HI).
  destruct l as [|x l].
  - pose proof (pop_st_empty _ _ _ _ _ (Some buf) _ HI Hsz) as Hpop.
    rewrite Hpop. eexists. split_and!; try done.
    apply (reach_step m [] (PopSt (Some buf) sz) _ SPMC_QUEUE_EMPTY Hreach).
    cbn. by rewrite Hpop.
  - destruct (pop_st_item _ _ _ _ _ _ _ c (Some buf) _ HI Hsz Hc Hfit)
      as (m1 & r & E1 & Hpop & Hr & _ & _ & _ & HI1).
    rewrite copy_out_fits in Hpop by (intros ? [= <-]; lia).
    cbn [fmap option_fmap option_map mbind outcome_bind] in Hpop.
    rewrite drop_ge, app_nil_r in Hpop by lia.
    rewrite Hpop. cbn. rewrite Hr. exists m1. split_and!; try done.
    apply (reach_step m (x :: l) (PopSt (Some buf) sz) m1 SPMC_QUEUE_OK Hreach).
    cbn. rewrite Hpop. cbn. by rewrite Hr.
Qed.

Lemma pop_succeeds_iff_not_empty_witness :
  ∃ m',
    spmc_queue_pop_st three_pushed (Some (isize_bytes 9)) 8 =
      Done (m', Some (isize_bytes 0), true) ∧
    spmc_queue_pop three_pushed (Some (isize_bytes 9)) 8 =
      Done (m', Some (isize_bytes 0), true) ∧
    reach m' [isize_bytes 1; isize_bytes 2].
Proof.
  apply (pop_succeeds_iff_not_empty three_pushed _ 64 (isize_bytes 9) 8 reach_three_pushed).
  - reflexivity.
  - reflexivity.
  - reflexivity.
  - vm_compute. reflexivity.
Defined.

(** The copy of a pop never loops. *)
Lemma pop_copy_returns m tl item sz : pop_copy m tl item sz ≠ Diverges.
Proof.
  unfold pop_copy. destruct item; [|done].
  destruct (pop_block _); [|done]. unfold deref. destruct (_ !! _); [|done].
  cbn [mbind outcome_bind].
  destruct (load_item _ _ _) eqn:Hload; [|done|by apply load_item_returns in Hload].
  cbn [mbind outcome_bind]. by destruct (_ <? _).
Qed.

Lemma pop_weak_among_returns others m item sz :
  pop_weak_among others m item sz ≠ Diverges.
Proof.
  unfold pop_weak_among. destruct (_ =? sz); [|done]. cbn zeta.
  destruct (0 <=? _); [destruct (0 <=? _); [done|]|].
  - destruct (pop_copy _ _ _ _) eqn:Hc; [done|done|by apply pop_copy_returns in Hc].
  - destruct (pop_copy _ _ _ _) eqn:Hc; [done|done|by apply pop_copy_returns in Hc].
Qed.

(** X7.  [pop] never reports a lost race and never spins for ever on its own
    account: whatever the other threads do in finitely many of its turns, in
    any state of the machine, the loop around [pop_weak] ends, and when it
    returns a result the result is OK or EMPTY, never FAILED_RACE. *)
Theorem pop_hides_lost_races races m item sz :
  pop_among races m item sz ≠ Diverges ∧
  ∀ r, pop_among races m item sz = Done r →
       res_state r.2 = SPMC_QUEUE_OK ∨ res_state r.2 = SPMC_QUEUE_EMPTY.
Proof.
  revert m item. induction races as [|others races IH]; intros m item; cbn [pop_among].
  - split.
    + apply (pop_returns m item sz).
    + intros r Hrun. apply bind_done in Hrun as (r0 & Hweak & Hrun).
      pose proof (pop_weak_never_races _ _ _ _ Hweak) as Hnr.
      rewrite bool_decide_eq_false_2 in Hrun by done. injection Hrun as <-.
      revert Hweak. unfold spmc_queue_result_pop_weak, pop_weak_among.
      destruct (_ =? sz); [|done]. cbn zeta.
      destruct (0 <=? _); [destruct (0 <=? _)|].
      * intros [= <-]. by right.
      * intros (? & _ & [= <-])%bind_done. cbn in *. destruct (snd _); [by left|done].
      * intros (? & _ & [= <-])%bind_done. cbn in *. destruct (snd _); [by left|done].
  - destruct (pop_weak_among others m item sz) as [r0| |] eqn:Hweak;
      cbn [mbind outcome_bind].
    + case_bool_decide as Hrace; [apply IH|]. split; [done|].
      intros r [= <-]. revert Hweak Hrace. unfold pop_weak_among.
      destruct (_ =? sz); [|done]. cbn zeta.
      destruct (0 <=? _); [destruct (0 <=? _)|].
      * intros [= <-]. by right.
      * intros (? & _ & [= <-])%bind_done. cbn. destruct (snd _); [by left|done].
      * intros (? & _ & [= <-])%bind_done. cbn. destruct (snd _); [by left|done].
    + split; [done|done].
    + by apply pop_weak_among_returns in Hweak.
Qed.

Lemma pop_hides_lost_races_witness :
  let m := machine_of
             (spmc_queue_result_push_st (fresh_queue (-1)) (isize_bytes 7) 8 true) in
  let r := (machine_of (r ← pop_among [rival_pop] m None 8; mret (r.1.1, ())),
            @None (list byte),
            {| res_head := 1; res_tail := 1; res_state := SPMC_QUEUE_EMPTY |}) in
  pop_among [rival_pop] m None 8 = Done r ∧
  (res_state r.2 = SPMC_QUEUE_OK ∨ res_state r.2 = SPMC_QUEUE_EMPTY).
Proof.
  intros m r.
  assert (pop_among [rival_pop] m None 8 = Done r) as Hrun by (vm_compute; reflexivity).
  split; [exact Hrun|].
  exact (proj2 (pop_hides_lost_races [rival_pop] m None 8) r Hrun).
Defined.

(** ** Pushes and reservation *)

(** With room in the current block a push goes through whatever the allocator
    would answer, and installs no block. *)
Lemma push_room m l H T E T' c item sz ok :
  Inv m l H T E T' → capacity_is m c →
  sz = push_item_size (queue m) → sz ≤ Z.of_nat (length item) →
  H - T < c → bytes_fit c sz →
  ∃ m' r, spmc_queue_result_push_st m item sz ok = Done (m', r) ∧
          res_state r = SPMC_QUEUE_OK ∧
          push_block (queue m') = push_block (queue m) ∧
          dom (heap m') = dom (heap m) ∧ capacity_is m' c.
Proof.
  intros HI Hc -> Hitem Hroom Hfit.
  pose proof (inv_list_small _ _ _ _ _ _ HI) as [Hl1 Hl2].
  pose proof (inv_refresh_tail _ _ _ _ _ _ HI) as HI1.
  pose proof (inv_order _ _ _ _ _ _ HI) as Hord.
  destruct (no_room_inv m l H T E T' (u64 T') T' HI) as (c1 & Hc1 & _ & Hno1); [lia..|done|].
  destruct (no_room_inv m l H T E T' (u64 T) T HI) as (c2 & Hc2 & _ & Hno2); [lia..|done|].
  rewrite <- (capacity_is_fun _ _ _ Hc Hc1) in Hno1.
  rewrite <- (capacity_is_fun _ _ _ Hc Hc2) in Hno2. clear c1 c2 Hc1 Hc2.
  rewrite (bool_decide_eq_false_2 (c ≤ H - T)) in Hno2 by lia.
  assert (∀ m1 tl, heap m1 = heap m → push_block (queue m1) = push_block (queue m) →
            (∃ m' r, push_publish m1 (push_block (queue m)) (u64 H) tl item
                       (push_item_size (queue m)) = Done (m', r)) →
            ∃ m' r, push_publish m1 (push_block (queue m)) (u64 H) tl item
                      (push_item_size (queue m)) = Done (m', r) ∧
                    res_state r = SPMC_QUEUE_OK ∧
                    push_block (queue m') = push_block (queue m) ∧
                    dom (heap m') = dom (heap m) ∧ capacity_is m' c) as Hwrap.
  { intros m1 tl Hheap Hblk (m' & r & Hpub). exists m', r. split; [done|].
    assert (capacity_is m' c) as Hc'.
    { eapply (publish_keeps_capacity m1); [|symmetry; exact Hblk|exact Hpub].
      unfold capacity_is. by rewrite Hblk, Hheap. }
    apply push_publish_frame in Hpub as (Hr & Hq & a & b & Ha & Hb & Hh').
    split_and!; [done|by rewrite Hq| |done].
    rewrite Hh', dom_insert_L, Hheap. rewrite Hheap in Hb.
    apply subseteq_union_1_L, singleton_subseteq_l, elem_of_dom. eauto. }
  unfold spmc_queue_result_push_st. rewrite Z.eqb_refl. cbn zeta.
  rewrite (inv_est_tail _ _ _ _ _ _ HI), (inv_head _ _ _ _ _ _ HI), Hno1.
  cbn [mbind outcome_bind heap].
  set (m1 := {| heap := heap m;
                queue := set_push_estimate_tail (queue m) (pop_tail (queue m)) |}) in *.
  destruct (decide (c ≤ H - T')) as [Hfull1|Hfull1];
    [rewrite bool_decide_eq_true_2 by done|rewrite bool_decide_eq_false_2 by done].
  - rewrite (inv_tail _ _ _ _ _ _ HI), Hno2. cbn [mbind outcome_bind].
    rewrite <- (inv_tail _ _ _ _ _ _ HI). apply (Hwrap m1); [done|done|].
    eapply (push_publish_total m1 l H T E T c); [exact HI1|exact Hc|lia|done|lia|exact Hfit].
  - apply (Hwrap m); [done|done|].
    eapply (push_publish_total m); [exact HI|exact Hc|lia|done|lia|exact Hfit].
Qed.

(** X8.  While the queue holds fewer items than its capacity, and the byte
    size of the current block, [sizeof(SPMC_Queue_Block) + capacity *
    item_size], did not wrap around in the 64-bit computation handed to
    [malloc], [push_st] succeeds whatever [malloc] would answer and whatever
    the ceiling: it reports OK, allocates nothing (same block, same set of
    allocated blocks) and the capacity stays.  Pre-sizing with [reserve]
    therefore makes the following pushes allocation-free. *)
Theorem push_with_room_never_allocates m l c item sz ok :
  reach m l →
  spmc_queue_capacity m = Done c →
  Z.of_nat (length l) < c →
  sz = push_item_size (queue m) → sz ≤ Z.of_nat (length item) →
  bytes_fit c sz →
  ∃ m' r, spmc_queue_result_push_st m item sz ok = Done (m', r) ∧
          res_state r = SPMC_QUEUE_OK ∧
          push_block (queue m') = push_block (queue m) ∧
          dom (heap m') = dom (heap m) ∧
          spmc_queue_capacity m' = Done c ∧
          reach m' (l ++ [take (Z.to_nat sz) item]).
Proof.
  intros Hreach Hcap Hlen Hsz Hitem Hfit.
  destruct (reach_inv _ _ Hreach) as (H & T & E & T' & HI).
  destruct (capacity_inv _ _ _ _ _ _ HI) as (c' & Hcap' & Hc & _).
  rewrite Hcap in Hcap'. injection Hcap' as <-.
  pose proof (inv_len _ _ _ _ _ _ HI) as Hl.
  destruct (push_room m l H T E T' c item sz ok HI Hc Hsz Hitem ltac:(lia) Hfit)
    as (m' & r & Hpush & Hr & Hblk & Hdom & Hc').
  assert (reach m' (l ++ [take (Z.to_nat sz) item])) as Hreach'.
  { apply (reach_step m l (Push item sz ok) m' SPMC_QUEUE_OK Hreach).
    cbn. rewrite Hpush. cbn. by rewrite Hr. }
  exists m', r. split_and!; try done.
  destruct (reach_inv _ _ Hreach') as (H1 & T1 & E1 & T1' & HI').
  destruct (capacity_inv _ _ _ _ _ _ HI') as (c1 & -> & Hc1 & _).
  by rewrite (capacity_is_fun _ _ _ Hc' Hc1).
Qed.

Lemma push_with_room_never_allocates_witness :
  ∃ m' r, spmc_queue_result_push_st three_pushed (isize_bytes 3) 8 false = Done (m', r) ∧
          res_state r = SPMC_QUEUE_OK ∧
          push_block (queue m') = push_block (queue three_pushed) ∧
          dom (heap m') = dom (heap three_pushed) ∧
          spmc_queue_capacity m' = Done 64 ∧
          reach m' ([isize_bytes 0; isize_bytes 1; isize_bytes 2]
                      ++ [take (Z.to_nat 8) (isize_bytes 3)]).
Proof.
  apply (push_with_room_never_allocates three_pushed _ 64 (isize_bytes 3) 8 false
           reach_three_pushed).
  - reflexivity.
  - reflexivity.
  - reflexivity.
  - reflexivity.
  - vm_compute. reflexivity.
Defined.

(** X9.  FULL means full: when [push_st] reports FULL on a reachable queue,
    the queue holds exactly as many items as its capacity (0 when no block
    was allocated yet), and growth was refused either by [malloc] or by a
    ceiling that does not exceed the number of items held. *)
Theorem full_means_full m l item sz ok m' r :
  reach m l →
  spmc_queue_result_push_st m item sz ok = Done (m', r) →
  res_state r = SPMC_QUEUE_FULL →
  spmc_queue_capacity m = Done (Z.of_nat (length l)) ∧
  (ok = false ∨
   0 ≤ push_max_capacity (queue m) ≤ Z.of_nat (length l)).
Proof.
  intros Hreach Hpush Hfull.
  destruct (reach_inv _ _ Hreach) as (H & T & E & T' & HI).
  destruct (capacity_inv _ _ _ _ _ _ HI) as (c & Hcap & Hc & Hbc & Hle & Hpow).
  pose proof (inv_list_small _ _ _ _ _ _ HI) as [Hl1 Hl2].
  pose proof (inv_refresh_tail _ _ _ _ _ _ HI) as HI1.
  pose proof (inv_order _ _ _ _ _ _ HI) as Hord.
  pose proof (inv_len _ _ _ _ _ _ HI) as Hlen.
  destruct (no_room_inv m l H T E T' (u64 T) T HI) as (c2 & Hc2 & _ & Hno2); [lia..|done|].
  rewrite <- (capacity_is_fun _ _ _ Hc Hc2) in Hno2. clear c2 Hc2.
  apply push_cases in Hpush as [Hsz Hcases]. cbn zeta in Hcases.
  set (m1 := {| heap := heap m;
                queue := set_push_estimate_tail (queue m) (pop_tail (queue m)) |}) in *.
  rewrite (inv_head _ _ _ _ _ _ HI), (inv_tail _ _ _ _ _ _ HI) in Hcases.
  rewrite Hno2 in Hcases.
  destruct Hcases as [[_ Hp]|[[_ Hp]|(Hroom & m2 & p & Hres & Hcases)]].
  - apply push_publish_frame in Hp as [? _]. congruence.
  - apply push_publish_frame in Hp as [? _]. congruence.
  - destruct Hcases as [(Hp & -> & _)|[_ Hp]];
      [|apply push_publish_frame in Hp as [? _]; congruence].
    injection Hroom as Hroom. apply bool_decide_eq_true in Hroom.
    assert (c = Z.of_nat (length l)) as -> by lia.
    split; [done|].
    rewrite u64_sub, u64_add_l, i64_u64 in Hres by lia.
    pose proof (inv_storage _ _ _ _ _ _ HI) as Hst.
    apply reserve_cases in Hres as Hcases. destruct Hcases as [Hp2 [->|Hgrew]].
    + destruct (reserve_kept m1 (H - T + 1) ok (Z.of_nat (length l)))
        as [?|[?|[?|[? ?]]]]; [exact Hbc|by rewrite Hp2 in Hres|by left|lia| |].
      * unfold INT64_MAX in *. pose proof (pow2_le_mono 62 63 ltac:(lia)). lia.
      * right. cbn in *. lia.
    + exfalso. destruct Hgrew as (a & nb & k & oc & Hfresh & Hheap & Hq & _).
      rewrite Hq in Hp2. cbn in Hp2. rewrite Hp in Hp2.
      unfold block_ok in Hst.
      rewrite Hp2 in Hst. destruct Hst as (b & ? & ? & Hb & _). cbn in Hfresh. congruence.
Qed.

Lemma full_means_full_witness :
  spmc_queue_capacity (fresh_queue (-1)) = Done 0 ∧
  (false = false ∨ 0 ≤ push_max_capacity (queue (fresh_queue (-1))) ≤ 0).
Proof.
  apply (full_means_full (fresh_queue (-1)) [] (isize_bytes 3) 8 false
           (fresh_queue (-1))
           {| res_head := 0; res_tail := 0; res_state := SPMC_QUEUE_FULL |}).
  - by apply (reach_fresh 8 (-1)).
  - reflexivity.
  - reflexivity.
Defined.

(** A run of pushes that all fit in the current block. *)
Lemma pushes_room pushes : ∀ m l c sz,
  reach m l → spmc_queue_capacity m = Done c →
  sz = push_item_size (queue m) → bytes_fit c sz →
  Forall (λ p, sz ≤ Z.of_nat (length p.1)) pushes →
  Z.of_nat (length l) + Z.of_nat (length pushes) ≤ c →
  ∃ m' rs, push_all m pushes sz = Done (m', rs) ∧
           Forall (λ r, res_state r = SPMC_QUEUE_OK) rs ∧
           push_block (queue m') = push_block (queue m) ∧
           dom (heap m') = dom (heap m) ∧
           reach m' (l ++ map (λ p, take (Z.to_nat sz) p.1) pushes).
Proof.
  induction pushes as [|[item ok] pushes IH];
    intros m l c sz Hreach Hcap Hsz Hfit Hitems Hlen.
  - exists m, []. rewrite app_nil_r. by split_and!.
  - apply Forall_cons in Hitems as [Hitem Hitems]. cbn [fst] in Hitem.
    cbn [length] in Hlen.
    destruct (reach_inv _ _ Hreach) as (H & T & E & T' & HI).
    destruct (capacity_inv _ _ _ _ _ _ HI) as (c' & Hcap' & Hc & _).
    rewrite Hcap in Hcap'. injection Hcap' as <-.
    pose proof (inv_len _ _ _ _ _ _ HI) as Hl.
    destruct (push_room m l H T E T' c item sz ok HI Hc Hsz Hitem ltac:(lia) Hfit)
      as (m1 & r & Hpush & Hr & Hblk & Hdom & Hc1).
    assert (reach m1 (l ++ [take (Z.to_nat sz) item])) as Hreach1.
    { apply (reach_step m l (Push item sz ok) m1 SPMC_QUEUE_OK Hreach).
      cbn. rewrite Hpush. cbn. by rewrite Hr. }
    destruct (reach_inv _ _ Hreach1) as (H1 & T1 & E1 & T1' & HI1).
    destruct (capacity_inv _ _ _ _ _ _ HI1) as (c1 & Hcap1 & Hc1' & _).
    rewrite <- (capacity_is_fun _ _ _ Hc1 Hc1') in Hcap1. clear c1 Hc1'.
    destruct (push_frame _ _ _ _ _ _ Hpush) as (Hsz1 & _).
    destruct (IH m1 _ c sz Hreach1 Hcap1 ltac:(congruence) Hfit Hitems)
      as (m2 & rs & Hrest & Hok & Hblk2 & Hdom2 & Hreach2).
    { rewrite length_app. cbn [length]. lia. }
    exists m2, (r :: rs). cbn [push_all fst snd]. rewrite Hpush.
    cbn [mbind outcome_bind fst snd]. rewrite Hrest. cbn [mbind outcome_bind fst snd].
    split_and!; [done|by constructor|congruence|congruence|].
    cbn [map fst]. by rewrite <- app_assoc in Hreach2.
Qed.

(** What [reserve] does on a reachable queue when it has to grow and may. *)
Lemma reserve_reach m l n c0 k :
  reach m l → spmc_queue_capacity m = Done c0 →
  6 ≤ k ≤ 62 → n ≤ 2 ^ k → c0 ≤ 2 ^ k →
  bytes_fit (2 ^ k) (push_item_size (queue m)) →
  push_max_capacity (queue m) < 0 ∨ n ≤ push_max_capacity (queue m) →
  ∃ m' c, spmc_queue_reserve m n true = Done m' ∧
          spmc_queue_capacity m' = Done c ∧ n ≤ c ∧ c ≤ 2 ^ k ∧ reach m' l ∧
          push_item_size (queue m') = push_item_size (queue m).
Proof.
  intros Hreach Hcap Hk Hn Hck Hfit Hmax.
  destruct (reach_inv _ _ Hreach) as (H & T & E & T' & HI).
  destruct (capacity_inv _ _ _ _ _ _ HI) as (c0' & Hcap0 & Hc0 & Hbc0 & _).
  rewrite Hcap in Hcap0. injection Hcap0 as <-.
  assert (∀ m', spmc_queue_reserve m n true = Done m' → reach m' l) as Hstep.
  { intros m' Hres. apply (reach_step m l (Reserve n true) m' SPMC_QUEUE_OK Hreach).
    cbn. by rewrite Hres. }
  destruct (decide (n ≤ c0)) as [Hle|Hgt].
  - exists m, c0. unfold spmc_queue_reserve in *.
    rewrite (reserve_skip m n true c0 Hbc0) in * by (by left).
    split_and!; [done|done|done|done|by apply Hstep|done].
  - destruct (reserve_grows m l H T E T' c0 n k HI Hc0 ltac:(lia) Hk Hn Hfit Hmax)
      as (m' & p & Hres & Hgrew).
    destruct (grew_within m m' n k Hgrew ltac:(lia) Hn) as (c & Hc & Hck' & Hnc).
    assert (spmc_queue_reserve m n true = Done m') as Hres'.
    { unfold spmc_queue_reserve. by rewrite Hres. }
    pose proof (reserve_inv _ _ _ _ _ _ _ _ _ _ HI Hres) as HI'.
    destruct (capacity_inv _ _ _ _ _ _ HI') as (c' & Hcap' & Hc' & _).
    rewrite <- (capacity_is_fun _ _ _ Hc Hc') in Hcap'.
    exists m', c. split_and!; [done|done|done|done|by apply Hstep|].
    destruct Hgrew as (?&?&?&?&_&_&->&_). done.
Qed.

(** X10.  [reserve(n)] followed by pushes.  Take a reachable queue holding
    the items [l] and a power of two [2^k], between 64 and [2^62], that bounds
    both the request [n] and the current capacity, and for which the byte
    size of a block, [sizeof(SPMC_Queue_Block) + 2^k * item_size], fits in 64
    bits.  A request of [n] slots that the ceiling allows is granted when
    [malloc] succeeds: [reserve] returns, the content is kept and the capacity
    is at least [n].  From then on, as long as the queue holds at most [n]
    items, every [push_st] reports OK even if every later [malloc] fails, and
    no further block is installed. *)
Theorem reserve_then_pushes_need_no_malloc m l n items sz c0 k :
  reach m l →
  spmc_queue_capacity m = Done c0 →
  6 ≤ k ≤ 62 → n ≤ 2 ^ k → c0 ≤ 2 ^ k →
  push_max_capacity (queue m) < 0 ∨ n ≤ push_max_capacity (queue m) →
  sz = push_item_size (queue m) →
  bytes_fit (2 ^ k) sz →
  Forall (λ item, sz ≤ Z.of_nat (length item)) items →
  Z.of_nat (length l) + Z.of_nat (length items) ≤ n →
  ∃ m1 c m2 rs,
    spmc_queue_reserve m n true = Done m1 ∧
    spmc_queue_capacity m1 = Done c ∧ n ≤ c ∧ reach m1 l ∧
    push_all m1 (map (λ item, (item, false)) items) sz = Done (m2, rs) ∧
    Forall (λ r, res_state r = SPMC_QUEUE_OK) rs ∧
    push_block (queue m2) = push_block (queue m1) ∧
    dom (heap m2) = dom (heap m1) ∧
    reach m2 (l ++ map (take (Z.to_nat sz)) items).
Proof.
  intros Hreach Hcap0 Hk Hn Hck Hmax Hsz Hfit Hitems Hlen.
  destruct (reach_inv _ _ Hreach) as (H & T & E & T' & HI).
  pose proof (inv_size_pos _ _ _ _ _ _ HI) as Hsp.
  destruct (reserve_reach m l n c0 k Hreach Hcap0 Hk Hn Hck ltac:(by rewrite <- Hsz) Hmax)
    as (m1 & c & Hres & Hcap & Hnc & Hck1 & Hreach1 & Hsz1).
  destruct (pushes_room (map (λ item, (item, false)) items) m1 l c sz Hreach1 Hcap)
    as (m2 & rs & Hrun & Hok & Hblk & Hdom & Hreach2).
  - congruence.
  - apply (bytes_fit_mono c (2 ^ k) sz); [lia|done|done].
  - by rewrite Forall_map.
  - rewrite length_map. lia.
  - exists m1, c, m2, rs. split_and!; try done.
    by rewrite map_map in Hreach2.
Qed.

Lemma reserve_then_pushes_need_no_malloc_witness :
  ∃ m1 c m2 rs,
    spmc_queue_reserve three_pushed 100 true = Done m1 ∧
    spmc_queue_capacity m1 = Done c ∧ 100 ≤ c ∧
    reach m1 [isize_bytes 0; isize_bytes 1; isize_bytes 2] ∧
    push_all m1 (map (λ item, (item, false)) [isize_bytes 3; isize_bytes 4]) 8
      = Done (m2, rs) ∧
    Forall (λ r, res_state r = SPMC_QUEUE_OK) rs ∧
    push_block (queue m2) = push_block (queue m1) ∧
    dom (heap m2) = dom (heap m1) ∧
    reach m2 ([isize_bytes 0; isize_bytes 1; isize_bytes 2]
                ++ map (take (Z.to_nat 8)) [isize_bytes 3; isize_bytes 4]).
Proof.
  apply (reserve_then_pushes_need_no_malloc three_pushed _ 100
           [isize_bytes 3; isize_bytes 4] 8 64 7 reach_three_pushed).
  - reflexivity.
  - lia.
  - vm_compute. discriminate.
  - vm_compute. discriminate.
  - left. reflexivity.
  - reflexivity.
  - vm_compute. reflexivity.
  - repeat constructor; vm_compute; discriminate.
  - vm_compute. discriminate.
Defined.

(** X11.  A refused reservation is silent.  [reserve] returns nothing, and on
    a reachable queue it returns normally with the machine exactly as it was
    when the ceiling is below the request, and when [malloc] fails on a
    request of at most [2^62] slots; the capacity reported afterwards is the
    one reported before. *)
Theorem refused_reserve_is_silent m l n ok :
  reach m l →
  (0 ≤ push_max_capacity (queue m) ∧ push_max_capacity (queue m) < n) ∨
  (ok = false ∧ n ≤ 2 ^ 62) →
  spmc_queue_reserve m n ok = Done m.
Proof.
  intros Hreach Hrefused.
  destruct (reach_inv _ _ Hreach) as (H & T & E & T' & HI).
  destruct (capacity_inv _ _ _ _ _ _ HI) as (c0 & _ & Hc0 & Hbc0 & _).
  unfold spmc_queue_reserve.
  destruct Hrefused as [Hceil|[-> Hn]].
  - by rewrite (reserve_skip m n ok c0 Hbc0) by (by right).
  - unfold _spmc_queue_reserve. rewrite Hbc0. cbn [mbind outcome_bind].
    destruct (_ && _); [|done].
    destruct (grow_capacity_done 64 6 n ltac:(lia) Hn ltac:(lia)) as (c & Hgrow).
    change (2 ^ 6) with 64 in Hgrow. rewrite Hgrow. done.
Qed.

Lemma refused_reserve_is_silent_witness :
  spmc_queue_reserve three_pushed 1000 false = Done three_pushed.
Proof.
  apply (refused_reserve_is_silent three_pushed _ 1000 false reach_three_pushed).
  right. split; [reflexivity|]. vm_compute. discriminate.
Defined.

(** X12.  The doubling loop of [_spmc_queue_reserve] has no upper bound of
    its own.  On a reachable queue a request above [2^62] slots that the
    ceiling allows never returns, whether or not [malloc] would succeed:
    [new_cap] reaches [2^63], which is negative as an [isize], then 0, and
    stays below the request.  The allocator is not even asked. *)
Theorem reserve_above_2_62_never_returns m l n ok :
  reach m l →
  2 ^ 62 < n →
  push_max_capacity (queue m) < 0 ∨ n ≤ push_max_capacity (queue m) →
  n ≤ INT64_MAX →
  _spmc_queue_reserve m n ok = Diverges ∧ spmc_queue_reserve m n ok = Diverges.
Proof.
  intros Hreach Hn Hmax Hrange.
  destruct (reach_inv _ _ Hreach) as (H & T & E & T' & HI).
  destruct (capacity_inv _ _ _ _ _ _ HI) as (c0 & _ & Hc0 & Hbc0 & _ & Hpow).
  assert (c0 ≤ 2 ^ 62) as Hc62.
  { destruct Hpow as [->|(k & Hk & ->)]; [lia|]. apply pow2_le_mono. lia. }
  assert (_spmc_queue_reserve m n ok = Diverges) as Hdiv.
  { unfold _spmc_queue_reserve. rewrite Hbc0. cbn [mbind outcome_bind].
    destruct (Z.ltb_spec c0 n); [|lia].
    assert ((n <=? (if 0 <=? push_max_capacity (queue m)
                    then push_max_capacity (queue m) else INT64_MAX)) = true) as ->.
    { apply Z.leb_le. destruct (Z.leb_spec 0 (push_max_capacity (queue m))); lia. }
    cbn [andb].
    pose proof (grow_capacity_diverges 64 6 n ltac:(lia) Hn) as Hd.
    change (2 ^ 6) with 64 in Hd. by rewrite Hd. }
  split; [done|]. unfold spmc_queue_reserve. by rewrite Hdiv.
Qed.

Lemma reserve_above_2_62_never_returns_witness :
  _spmc_queue_reserve three_pushed (2 ^ 62 + 1) false = Diverges ∧
  spmc_queue_reserve three_pushed (2 ^ 62 + 1) false = Diverges.
Proof.
  apply (reserve_above_2_62_never_returns three_pushed _ (2 ^ 62 + 1) false
           reach_three_pushed).
  - vm_compute. reflexivity.
  - left. reflexivity.
  - vm_compute. discriminate.
Defined.

(** ** The count estimates *)

Lemma u64_nonneg z : 0 ≤ u64 z < 2 ^ 64.
Proof. unfold u64. apply Z.mod_pos_bound. lia. Qed.

Lemma i64_bounds z : - 2 ^ 63 ≤ i64 z < 2 ^ 63.
Proof. unfold i64. pose proof (Z.mod_pos_bound (z + 2 ^ 63) (2 ^ 64) ltac:(lia)). lia. Qed.

(** [diff >= 0 ? diff : 0] on [uint64_t diff = (isize) x]. *)
Lemma clamp_dead x :
  i64 (if 0 <=? u64 (i64 x) then u64 (i64 x) else 0) = i64 x.
Proof.
  pose proof (u64_nonneg (i64 x)).
  destruct (Z.leb_spec 0 (u64 (i64 x))); [|lia].
  apply i64_u64, i64_bounds.
Qed.

(** The counters before and after what the other threads do between the two
    loads of an estimate. *)
Lemma loads_apart others m l l' cs :
  reach m l → interleaved others m l l' cs → Z.of_nat (length cs) < 2 ^ 62 →
  ∃ H T H1 T1,
    H - T = Z.of_nat (length l) ∧ H1 - T1 = Z.of_nat (length l') ∧
    H ≤ H1 ≤ H + Z.of_nat (length cs) ∧ T ≤ T1 ≤ T + Z.of_nat (length cs) ∧
    H - T ≤ 2 ^ 62 ∧
    push_head (queue m) = u64 H ∧ pop_tail (queue m) = u64 T ∧
    push_head (queue (others m)) = u64 H1 ∧ pop_tail (queue (others m)) = u64 T1.
Proof.
  intros Hreach [Hno Hrun] Hcs.
  destruct (reach_inv _ _ Hreach) as (H & T & E & T' & HI).
  destruct (capacity_inv _ _ _ _ _ _ HI) as (c0 & _ & Hc0 & _).
  pose proof (inv_list_small _ _ _ _ _ _ HI) as [_ Hl2].
  pose proof (inv_order _ _ _ _ _ _ HI) as Hord.
  destruct (run_progress cs m l H T E T' c0 _ _ HI Hc0 Hno Hrun)
    as (H1 & T1 & E1 & T1' & c1 & HI1 & HH & HT & _).
  exists H, T, H1, T1.
  split_and!; try lia;
    eauto using inv_len, inv_head, inv_tail.
Qed.

(** X13.  [spmc_queue_count_upper] never under-estimates.  It loads the tail,
    then the head.  Whatever calls (other than a new [init], fewer than
    [2^62] of them) the other threads complete between the two loads, the
    result is the number of items at the first load plus the number pushed in
    between, and also the number of items at the second load plus the number
    popped in between: at least the count at either instant. *)
Theorem count_upper_never_underestimates others m l l' cs :
  reach m l → interleaved others m l l' cs → Z.of_nat (length cs) < 2 ^ 62 →
  let pushed := i64 (u64 (push_head (queue (others m)) - push_head (queue m))) in
  let popped := i64 (u64 (pop_tail (queue (others m)) - pop_tail (queue m))) in
  0 ≤ pushed ∧ 0 ≤ popped ∧
  count_upper_among others m = Z.of_nat (length l) + pushed ∧
  count_upper_among others m = Z.of_nat (length l') + popped.
Proof.
  intros Hreach Hint Hcs.
  destruct (loads_apart _ _ _ _ _ Hreach Hint Hcs)
    as (H & T & H1 & T1 & Hl & Hl' & HH & HT & Hsmall & Hh & Ht & Hh1 & Ht1).
  unfold count_upper_among. cbn zeta.
  rewrite clamp_dead, Hh, Ht, Hh1, Ht1, !u64_sub.
  rewrite (i64_u64 (H1 - H)), (i64_u64 (T1 - T)), (i64_u64 (H1 - T)) by lia.
  lia.
Qed.

Lemma count_upper_never_underestimates_witness :
  let m := three_pushed in
  let pushed := i64 (u64 (push_head (queue (rival_pop m)) - push_head (queue m))) in
  let popped := i64 (u64 (pop_tail (queue (rival_pop m)) - pop_tail (queue m))) in
  0 ≤ pushed ∧ 0 ≤ popped ∧
  count_upper_among rival_pop m = Z.of_nat 3 + pushed ∧
  count_upper_among rival_pop m = Z.of_nat 2 + popped.
Proof.
  apply (count_upper_never_underestimates rival_pop three_pushed
           [isize_bytes 0; isize_bytes 1; isize_bytes 2]
           [isize_bytes 1; isize_bytes 2] [PopSt None 8] reach_three_pushed).
  - split; vm_compute; reflexivity.
  - vm_compute. reflexivity.
Defined.

(** X14.  [spmc_queue_count_lower] never over-estimates.  It loads the head,
    then the tail.  Under the same interference the result is the number of
    items at the first load minus the number popped in between, and also the
    number of items at the second load minus the number pushed in between: at
    most the count at either instant, and negative when more items were
    popped in between than the queue held at the first load. *)
Theorem count_lower_never_overestimates others m l l' cs :
  reach m l → interleaved others m l l' cs → Z.of_nat (length cs) < 2 ^ 62 →
  let pushed := i64 (u64 (push_head (queue (others m)) - push_head (queue m))) in
  let popped := i64 (u64 (pop_tail (queue (others m)) - pop_tail (queue m))) in
  0 ≤ pushed ∧ 0 ≤ popped ∧
  count_lower_among others m = Z.of_nat (length l) - popped ∧
  count_lower_among others m = Z.of_nat (length l') - pushed.
Proof.
  intros Hreach Hint Hcs.
  destruct (loads_apart _ _ _ _ _ Hreach Hint Hcs)
    as (H & T & H1 & T1 & Hl & Hl' & HH & HT & Hsmall & Hh & Ht & Hh1 & Ht1).
  unfold count_lower_among. cbn zeta.
  rewrite clamp_dead, Hh, Ht, Hh1, Ht1, !u64_sub.
  rewrite (i64_u64 (H1 - H)), (i64_u64 (T1 - T)), (i64_u64 (H - T1)) by lia.
  lia.
Qed.

Lemma count_lower_never_overestimates_witness :
  let others m :=
    machine_of (run m [] [Push (isize_bytes 7) 8 true; PopSt None 8]) in
  let m := fresh_queue (-1) in
  let pushed := i64 (u64 (push_head (queue (others m)) - push_head (queue m))) in
  let popped := i64 (u64 (pop_tail (queue (others m)) - pop_tail (queue m))) in
  0 ≤ pushed ∧ 0 ≤ popped ∧
  count_lower_among others m = Z.of_nat 0 - popped ∧
  count_lower_among others m = Z.of_nat 0 - pushed.
Proof.
  apply (count_lower_never_overestimates
           (λ m, machine_of (run m [] [Push (isize_bytes 7) 8 true; PopSt None 8]))
           (fresh_queue (-1)) [] [] [Push (isize_bytes 7) 8 true; PopSt None 8]).
  - by apply (reach_fresh 8 (-1)).
  - split; vm_compute; reflexivity.
  - vm_compute. reflexivity.
Defined.

(** X15.  The two estimates on the producer's thread.  When the head does not
    move between the two loads, as when the producer itself asks while
    consumers keep popping, both estimates are exact: [count_upper] is the
    number of items at its first load and [count_lower] the number at its
    second load.  With no other thread in between they agree with each other
    and with [spmc_queue_count]. *)
Theorem estimates_exact_for_producer others m l l' cs :
  reach m l → interleaved others m l l' cs → Z.of_nat (length cs) < 2 ^ 62 →
  push_head (queue (others m)) = push_head (queue m) →
  count_upper_among others m = Z.of_nat (length l) ∧
  count_lower_among others m = Z.of_nat (length l') ∧
  spmc_queue_count_upper m = Z.of_nat (length l) ∧
  spmc_queue_count_lower m = Z.of_nat (length l) ∧
  spmc_queue_count m = Done (Z.of_nat (length l)).
Proof.
  intros Hreach Hint Hcs Hhead.
  destruct (loads_apart _ _ _ _ _ Hreach Hint Hcs)
    as (H & T & H1 & T1 & Hl & Hl' & HH & HT & Hsmall & Hh & Ht & Hh1 & Ht1).
  assert (H1 = H) as ->.
  { rewrite Hh, Hh1 in Hhead.
    assert (u64 (H1 - H) = 0) as H0.
    { rewrite <- u64_sub, Hhead, u64_sub, Z.sub_diag. done. }
    rewrite u64_small in H0 by lia. lia. }
  destruct (reach_inv _ _ Hreach) as (H' & T' & E' & T'' & HI).
  unfold spmc_queue_count_upper, spmc_queue_count_lower,
    count_upper_among, count_lower_among. cbn [id]. cbn zeta.
  rewrite !clamp_dead, Hh, Ht, Hh1, Ht1, !u64_sub.
  rewrite (i64_u64 (H - T)), (i64_u64 (H - T1)) by lia.
  split_and!; [lia..|]. by eapply count_inv.
Qed.

Lemma estimates_exact_for_producer_witness :
  count_upper_among rival_pop three_pushed = Z.of_nat 3 ∧
  count_lower_among rival_pop three_pushed = Z.of_nat 2 ∧
  spmc_queue_count_upper three_pushed = Z.of_nat 3 ∧
  spmc_queue_count_lower three_pushed = Z.of_nat 3 ∧
  spmc_queue_count three_pushed = Done (Z.of_nat 3).
Proof.
  apply (estimates_exact_for_producer rival_pop three_pushed
           [isize_bytes 0; isize_bytes 1; isize_bytes 2]
           [isize_bytes 1; isize_bytes 2] [PopSt None 8] reach_three_pushed).
  - split; vm_compute; reflexivity.
  - vm_compute. reflexivity.
  - vm_compute. reflexivity.
Defined.

(** X16.  The guard [diff >= 0 ? diff : 0] of the three counting functions
    tests a [uint64_t] and is never false: in every state of the machine, and
    whatever happens between the two loads, each function returns the signed
    difference of the head and the tail it loaded, negative values
    included. *)
Theorem count_guard_never_clamps others m :
  count_upper_among others m =
    i64 (u64 (push_head (queue (others m)) - pop_tail (queue m))) ∧
  count_lower_among others m =
    i64 (u64 (push_head (queue m) - pop_tail (queue (others m)))) ∧
  spmc_queue_count m = Done (i64 (u64 (push_head (queue m) - pop_tail (queue m)))).
Proof.
  unfold count_upper_among, count_lower_among, spmc_queue_count, count_loop.
  rewrite Z.eqb_refl. cbn zeta. by rewrite !clamp_dead.
Qed.

(** ** Slots, capacity and tickets *)

(** X17.  [_spmc_queue_slot] on the current block of a reachable queue, with
    the offset computed in [uint64_t] as the code does.  The block was
    obtained by asking [malloc] for [sizeof(SPMC_Queue_Block) + (mask + 1) *
    item_size] bytes, a size computed modulo [2^64].  When that size does not
    wrap around, the block holds exactly [(mask + 1) * item_size] bytes of
    items, the slot of every position lies inside them, and two positions
    less than a capacity apart get slots that do not overlap: no live item is
    overwritten by a push, none is read twice by pops. *)
Theorem slots_in_bounds_and_disjoint m l a b x y sz :
  reach m l →
  push_block (queue m) = Some a → heap m !! a = Some b →
  sz = push_item_size (queue m) →
  let cap := blk_mask b + 1 in
  let slot i := _spmc_queue_slot b (u64 i) sz in
  SIZEOF_BLOCK + blk_size b = u64 (SIZEOF_BLOCK + u64 (cap * sz)) ∧
  (bytes_fit cap sz →
   blk_size b = cap * sz ∧
   0 ≤ slot x ∧ slot x + sz ≤ blk_size b ∧
   (x < y < x + cap → slot x + sz ≤ slot y ∨ slot y + sz ≤ slot x)).
Proof.
  intros Hreach Ha Hb ->.
  destruct (reach_inv _ _ Hreach) as (H & T & E & T' & HI).
  pose proof (inv_size_pos _ _ _ _ _ _ HI) as Hsp.
  pose proof (inv_storage _ _ _ _ _ _ HI) as Hst. unfold block_ok in Hst.
  rewrite Ha in Hst.
  destruct Hst as (b' & k & addrs & Hb' & Hk & Hmask & _ & [Hsize _] & _).
  rewrite Hb in Hb'. injection Hb' as <-.
  cbv beta zeta. rewrite Hmask.
  replace (2 ^ k - 1 + 1) with (2 ^ k) by lia.
  split; [done|]. intros Hfit.
  rewrite !(slot_of_position b _ k) by (lia || done).
  rewrite (fit_size b k (push_item_size (queue m)) ltac:(lia) ltac:(lia) Hsize Hfit).
  destruct (slot_inside x k (push_item_size (queue m))) as [? ?]; [lia..|].
  split_and!; [done|done|done|].
  intros Hxy. apply slots_apart; [lia|lia|done].
Qed.

Lemma slots_in_bounds_and_disjoint_witness :
  let b := default {| blk_next := None; blk_mask := 0; blk_size := 0; blk_data := ∅ |}
             (a ← push_block (queue three_pushed); heap three_pushed !! a) in
  let cap := blk_mask b + 1 in
  let slot i := _spmc_queue_slot b (u64 i) 8 in
  bytes_fit cap 8 ∧
  blk_size b = cap * 8 ∧
  0 ≤ slot 63 ∧ slot 63 + 8 ≤ blk_size b ∧
  (63 < 64 < 63 + cap → slot 63 + 8 ≤ slot 64 ∨ slot 64 + 8 ≤ slot 63).
Proof.
  cbv zeta. split; [vm_compute; reflexivity|].
  refine (proj2 (slots_in_bounds_and_disjoint three_pushed _
                   (default 0%nat (push_block (queue three_pushed))) _ 63 64 8
                   reach_three_pushed _ _ _) _).
  - vm_compute. reflexivity.
  - vm_compute. reflexivity.
  - reflexivity.
  - vm_compute. reflexivity.
Defined.

(** X18.  Over any sequence of calls that does not re-initialise the queue
    the capacity never shrinks, the configured item size and ceiling stay, and
    the number of items changes by at most one per call. *)
Theorem capacity_never_shrinks m l cs m' l' c :
  reach m l →
  forallb (λ c, negb (is_init c)) cs = true →
  run m l cs = Done (m', l') →
  spmc_queue_capacity m = Done c →
  ∃ c', spmc_queue_capacity m' = Done c' ∧ c ≤ c' ∧
        push_max_capacity (queue m') = push_max_capacity (queue m) ∧
        push_item_size (queue m') = push_item_size (queue m) ∧
        pop_item_size (queue m') = pop_item_size (queue m) ∧
        Z.of_nat (length l) - Z.of_nat (length cs) ≤ Z.of_nat (length l') ∧
        Z.of_nat (length l') ≤ Z.of_nat (length l) + Z.of_nat (length cs).
Proof.
  intros Hreach Hno Hrun Hcap.
  destruct (reach_inv _ _ Hreach) as (H & T & E & T' & HI).
  destruct (capacity_inv _ _ _ _ _ _ HI) as (c0 & Hcap0 & Hc0 & _).
  rewrite Hcap in Hcap0. injection Hcap0 as <-.
  destruct (run_progress cs m l H T E T' c _ _ HI Hc0 Hno Hrun)
    as (H1 & T1 & E1 & T1' & c1 & HI1 & HH & HT & Hc1 & Hle & Hmax & Hsz).
  destruct (capacity_inv _ _ _ _ _ _ HI1) as (c1' & Hcap1 & Hc1' & _).
  rewrite <- (capacity_is_fun _ _ _ Hc1 Hc1') in Hcap1.
  pose proof (inv_len _ _ _ _ _ _ HI). pose proof (inv_len _ _ _ _ _ _ HI1).
  exists c1. split_and!; try done; try lia.
  rewrite (inv_size_eq _ _ _ _ _ _ HI), (inv_size_eq _ _ _ _ _ _ HI1). done.
Qed.

Lemma capacity_never_shrinks_witness :
  ∃ c', spmc_queue_capacity (rival_pop three_pushed) = Done c' ∧ 64 ≤ c' ∧
        push_max_capacity (queue (rival_pop three_pushed))
          = push_max_capacity (queue three_pushed) ∧
        push_item_size (queue (rival_pop three_pushed))
          = push_item_size (queue three_pushed) ∧
        pop_item_size (queue (rival_pop three_pushed))
          = pop_item_size (queue three_pushed) ∧
        Z.of_nat 3 - Z.of_nat 1 ≤ Z.of_nat 2 ∧ Z.of_nat 2 ≤ Z.of_nat 3 + Z.of_nat 1.
Proof.
  apply (capacity_never_shrinks three_pushed
           [isize_bytes 0; isize_bytes 1; isize_bytes 2] [PopSt None 8]
           (rival_pop three_pushed) [isize_bytes 1; isize_bytes 2] 64
           reach_three_pushed).
  - reflexivity.
  - vm_compute. reflexivity.
  - vm_compute. reflexivity.
Defined.


Lemma publish_ceiling m p hd tl item sz m' r :
  ceiling_respected m → p = push_block (queue m) →
  push_publish m p hd tl item sz = Done (m', r) → ceiling_respected m'.
Proof.
  intros HP Hp Hpub Hmax.
  pose proof Hpub as (_ & Hq & _)%push_publish_frame.
  rewrite Hq in Hmax |- *. cbn in Hmax |- *.
  destruct (HP Hmax) as (c & Hc & Hbound). exists c. split; [|done].
  by eapply publish_keeps_capacity.
Qed.

Lemma reserve_ceiling m n ok m' p :
  ceiling_respected m →
  _spmc_queue_reserve m n ok = Done (m', p) → ceiling_respected m'.
Proof.
  intros HP Hres. apply reserve_cases in Hres as [_ [->|Hgrew]]; [done|].
  destruct Hgrew as (a & b & k & oc & _ & Hheap & Hq & _ & Hmask & Hk & _ & Hmin &
                     _ & _ & Hceil & _).
  intros Hmax. rewrite Hq in Hmax |- *. cbn in Hmax |- *. specialize (Hceil Hmax).
  exists (2 ^ k). split.
  - unfold capacity_is. rewrite Hq. cbn. exists b. by rewrite Hheap, lookup_insert_eq.
  - destruct (decide (k = 6)) as [->|]; [right; left; done|right; right].
    specialize (Hmin ltac:(lia)).
    replace (2 ^ k) with (2 * 2 ^ (k - 1)); [lia|].
    rewrite <- Z.pow_succ_r by lia. f_equal. lia.
Qed.

Lemma step_ceiling m l H T E T' c m' st :
  Inv m l H T E T' → ceiling_respected m →
  step m c = Done (m', st) → ceiling_respected m'.
Proof.
  intros HI HP Hstep.
  assert (∀ item sz m1 item' r,
            spmc_queue_result_pop_st m item sz = Done (m1, item', r) →
            ceiling_respected m1) as Hpop.
  { intros item sz m1 item' r Hrun Hmax.
    destruct (pop_st_frame _ _ _ _ _ _ Hrun) as (Hheap & Hblk & _ & _ & Hmx).
    rewrite Hmx in Hmax |- *. destruct (HP Hmax) as (c1 & Hc1 & Hb). exists c1.
    split; [|done]. unfold capacity_is in *. by rewrite Hblk, Hheap. }
  destruct c as [isz mx|n ok|item sz ok|item sz|item sz|item sz]; cbn [step] in Hstep.
  - apply bind_done in Hstep as (m1 & Hrun & [= <- _]).
    apply init_done_inv in Hrun as (_ & h & Hq & _).
    intros _. exists 0. split; [|by left]. unfold capacity_is. by rewrite Hq.
  - apply bind_done in Hstep as (m1 & Hrun & [= <- _]).
    unfold spmc_queue_reserve in Hrun. apply bind_done in Hrun as ([m2 p] & Hrun & [= <-]).
    by eapply reserve_ceiling.
  - apply bind_done in Hstep as ([m1 r] & Hrun & [= <- _]). cbn [fst].
    apply push_cases in Hrun as [_ Hcases]. cbn zeta in Hcases.
    destruct Hcases as [[_ Hp]|[[_ Hp]|(_ & m2 & p & Hres & [(_ & -> & _)|[_ Hp]])]].
    + by eapply (publish_ceiling m).
    + eapply publish_ceiling; [| |exact Hp]; [exact HP|reflexivity].
    + eapply reserve_ceiling; [|exact Hres]. exact HP.
    + eapply publish_ceiling; [| |exact Hp].
      * eapply reserve_ceiling; [|exact Hres]. exact HP.
      * by apply reserve_cases in Hres as [-> _].
  - apply bind_done in Hstep as ([[m1 item'] r] & Hrun & [= <- _]). by eapply Hpop.
  - apply bind_done in Hstep as ([[m1 item'] r] & Hrun & [= <- _]).
    rewrite (pop_weak_alone _ _ _ _ _ _ _ _ HI) in Hrun. by eapply Hpop.
  - apply bind_done in Hstep as ([[m1 item'] r] & Hrun & [= <- _]).
    rewrite (pop_is_pop_st _ _ _ _ _ _ _ _ HI) in Hrun. by eapply Hpop.
Qed.

Lemma reach_ceiling m l : reach m l → ceiling_respected m.
Proof.
  induction 1 as [isz mx m Hinit|m l c m' st Hreach IH Hstep].
  - apply init_done_inv in Hinit as (_ & h & Hq & _).
    intros _. exists 0. split; [|by left]. unfold capacity_is. by rewrite Hq.
  - destruct (reach_inv _ _ Hreach) as (H & T & E & T' & HI).
    by eapply step_ceiling.
Qed.

(** X19.  What [max_capacity] bounds.  On every reachable queue with a
    ceiling [K ≥ 0] the capacity is 0 (nothing allocated), 64 (the smallest
    block there is) or less than [2 * K]; the queue therefore never holds
    [max 65 (2 * K)] items or more.  The ceiling is enforced on the
    requested size, before rounding up, not on the capacity. *)
Theorem capacity_below_twice_ceiling m l :
  reach m l →
  0 ≤ push_max_capacity (queue m) →
  ∃ c, spmc_queue_capacity m = Done c ∧
       (c = 0 ∨ c = 64 ∨ c < 2 * push_max_capacity (queue m)) ∧
       Z.of_nat (length l) ≤ c ∧
       Z.of_nat (length l) < Z.max 65 (2 * push_max_capacity (queue m)).
Proof.
  intros Hreach Hmax.
  destruct (reach_ceiling _ _ Hreach Hmax) as (c & Hc & Hbound).
  destruct (reach_inv _ _ Hreach) as (H & T & E & T' & HI).
  destruct (capacity_inv _ _ _ _ _ _ HI) as (c' & Hcap & Hc' & _ & Hle & _).
  rewrite <- (capacity_is_fun _ _ _ Hc Hc') in *.
  pose proof (inv_len _ _ _ _ _ _ HI). pose proof (inv_order _ _ _ _ _ _ HI).
  exists c. split_and!; [done|done|lia|lia].
Qed.

Lemma capacity_below_twice_ceiling_witness :
  let m := machine_of (spmc_queue_result_push_st (fresh_queue 1) (isize_bytes 3) 8 true) in
  ∃ c, spmc_queue_capacity m = Done c ∧
       (c = 0 ∨ c = 64 ∨ c < 2 * push_max_capacity (queue m)) ∧
       Z.of_nat (length [isize_bytes 3]) ≤ c ∧
       Z.of_nat (length [isize_bytes 3]) < Z.max 65 (2 * push_max_capacity (queue m)).
Proof.
  apply (capacity_below_twice_ceiling
           (machine_of (spmc_queue_result_push_st (fresh_queue 1) (isize_bytes 3) 8 true))
           [isize_bytes 3]).
  - apply (reach_step (fresh_queue 1) [] (Push (isize_bytes 3) 8 true) _ SPMC_QUEUE_OK).
    + by apply (reach_fresh 8 1).
    + vm_compute. reflexivity.
  - vm_compute. discriminate.
Defined.

(** Draining the first items of the content. *)
Lemma pop_all_prefix l : ∀ rest m H T E T' c buf sz,
  Inv m (l ++ rest) H T E T' →
  sz = pop_item_size (queue m) →
  sz ≤ Z.of_nat (length buf) →
  capacity_is m c → bytes_fit c sz →
  ∃ m' E',
    pop_all (length l) m buf sz =
      Done (m', map (λ x, (Some (x ++ drop (Z.to_nat sz) buf), SPMC_QUEUE_OK)) l) ∧
    Inv m' rest H (T + Z.of_nat (length l)) E' T' ∧
    pop_item_size (queue m') = sz ∧ capacity_is m' c.
Proof.
  induction l as [|x l IH]; intros rest m H T E T' c buf sz HI Hsz Hbuf Hc Hfit.
  - exists m, E. cbn. rewrite Z.add_0_r. done.
  - cbn [app] in HI.
    destruct (pop_st_item _ _ _ _ _ _ _ c (Some buf) _ HI Hsz Hc Hfit)
      as (m1 & r & E1 & Hpop & Hr & _ & _ & _ & HI1).
    rewrite copy_out_fits in Hpop by (by intros ? [= <-]).
    destruct (pop_st_keeps _ _ _ _ _ _ c Hpop Hc) as (Hc1 & Hsz1 & _).
    destruct (IH rest _ _ _ _ _ c buf sz HI1 ltac:(congruence) Hbuf Hc1 Hfit)
      as (m2 & E2 & Hrest & HI2 & Hsz2 & Hc2).
    exists m2, E2. cbn [pop_all length map]. rewrite Hpop. cbn. rewrite Hrest. cbn.
    rewrite Hr. split_and!; [done| |done|done].
    by replace (T + Z.of_nat (S (length l))) with (T + 1 + Z.of_nat (length l)) by lia.
Qed.

(** X20.  Tickets.  The head that a successful [push_st] reports is the tail
    reported by the [pop_st] that takes that very item out.  On a reachable
    queue holding [l], after a push that reported OK and left a block whose
    byte size [sizeof(SPMC_Queue_Block) + capacity * item_size] fits in 64
    bits, [length l] further calls of [pop_st] return the older items, the
    next [pop_st] returns the pushed bytes, and its [tail] is the push's
    [head]. *)
Theorem push_ticket_is_pop_ticket m l item sz ok m1 r c buf :
  reach m l →
  spmc_queue_result_push_st m item sz ok = Done (m1, r) →
  res_state r = SPMC_QUEUE_OK →
  spmc_queue_capacity m1 = Done c → bytes_fit c sz →
  Z.of_nat (length buf) = sz →
  ∃ m2 m3 r',
    pop_all (length l) m1 buf sz = Done (m2, map (λ x, (Some x, SPMC_QUEUE_OK)) l) ∧
    spmc_queue_result_pop_st m2 (Some buf) sz
      = Done (m3, Some (take (Z.to_nat sz) item), r') ∧
    res_state r' = SPMC_QUEUE_OK ∧
    res_tail r' = res_head r.
Proof.
  intros Hreach Hpush Hok Hcap Hfit Hbuf.
  destruct (reach_inv _ _ Hreach) as (H & T & E & T' & HI).
  pose proof (inv_len _ _ _ _ _ _ HI) as Hlen.
  pose proof (inv_items _ _ _ _ _ _ HI) as Hitems.
  pose proof (inv_size_eq _ _ _ _ _ _ HI) as Hse.
  pose proof (push_cases _ _ _ _ _ _ Hpush) as [Hsz _].
  destruct (push_frame _ _ _ _ _ _ Hpush) as (Hsz1 & Hpsz1 & _).
  destruct (push_inv _ _ _ _ _ _ _ _ _ _ _ HI Hpush) as [Hhead [[_ [T1 HI1]]|[Hfull _]]];
    [|congruence].
  pose proof (inv_items _ _ _ _ _ _ HI1) as Hitems1.
  destruct (capacity_inv _ _ _ _ _ _ HI1) as (c' & Hcap' & Hc & _).
  rewrite Hcap in Hcap'. injection Hcap' as <-.
  destruct (pop_all_prefix l [take (Z.to_nat sz) item] m1 _ _ _ _ c buf sz HI1)
    as (m2 & E2 & Hdrain & HI2 & Hsz2 & Hc2); [congruence|lia|done|done|].
  destruct (pop_st_item _ _ _ _ _ _ _ c (Some buf) sz HI2 (eq_sym Hsz2) Hc2 Hfit)
    as (m3 & r' & E3 & Hpop & Hr' & Htail & _).
  rewrite copy_out_fits in Hpop by (by intros ? [= <-]; lia).
  exists m2, m3, r'. split_and!.
  - rewrite Hdrain. do 2 f_equal. apply map_ext_Forall.
    eapply Forall_impl; [exact Hitems|]. intros x Hx. cbn beta.
    rewrite drop_ge, app_nil_r; [done|]. lia.
  - rewrite Hpop. cbn. do 4 f_equal.
    apply Forall_app in Hitems1 as [_ Hlast]. apply Forall_singleton in Hlast.
    rewrite drop_ge, app_nil_r; [done|]. lia.
  - done.
  - rewrite Htail, Hhead. f_equal. lia.
Qed.

Lemma push_ticket_is_pop_ticket_witness :
  let m1 := machine_of (spmc_queue_result_push_st three_pushed (isize_bytes 3) 8 false) in
  ∃ m2 m3 r',
    pop_all 3 m1 (isize_bytes 9) 8
      = Done (m2, map (λ x, (Some x, SPMC_QUEUE_OK))
                    [isize_bytes 0; isize_bytes 1; isize_bytes 2]) ∧
    spmc_queue_result_pop_st m2 (Some (isize_bytes 9)) 8
      = Done (m3, Some (take (Z.to_nat 8) (isize_bytes 3)), r') ∧
    res_state r' = SPMC_QUEUE_OK ∧
    res_tail r' = 3.
Proof.
  apply (push_ticket_is_pop_ticket three_pushed
           [isize_bytes 0; isize_bytes 1; isize_bytes 2] (isize_bytes 3) 8 false
           (machine_of (spmc_queue_result_push_st three_pushed (isize_bytes 3) 8 false))
           {| res_head := 3; res_tail := 0; res_state := SPMC_QUEUE_OK |}
           64 (isize_bytes 9) reach_three_pushed).
  - vm_compute. reflexivity.
  - reflexivity.
  - vm_compute. reflexivity.
  - vm_compute. reflexivity.
  - reflexivity.
Defined.



(** ** Retired blocks *)

Lemma blocks_kept_refl m : blocks_kept m m.
Proof. split; [done|]. by intros. Qed.

Lemma blocks_kept_trans m1 m2 m3 :
  blocks_kept m1 m2 → blocks_kept m2 m3 → blocks_kept m1 m3.
Proof.
  intros [Hd1 Hk1] [Hd2 Hk2]. split; [by etrans|].
  intros a b Hb Hne. destruct (Hk1 a b Hb Hne) as [Hb2 Hne2]. by apply Hk2.
Qed.

(** Same heap and same current block. *)
Lemma blocks_kept_same m m' :
  heap m' = heap m → push_block (queue m') = push_block (queue m) → blocks_kept m m'.
Proof. intros Hh Hp. split; [by rewrite Hh|]. intros a b Hb Hne. by rewrite Hh, Hp. Qed.

Lemma publish_keeps_blocks m p hd tl item sz m' r :
  p = push_block (queue m) →
  push_publish m p hd tl item sz = Done (m', r) → blocks_kept m m'.
Proof.
  intros -> Hpub.
  apply push_publish_frame in Hpub as (_ & Hq & a0 & b0 & Ha0 & Hb0 & Hheap).
  split.
  - rewrite Hheap, dom_insert_L. apply union_subseteq_r.
  - intros a b Hb Hne. rewrite Hq, Hheap. cbn. split; [|done].
    rewrite lookup_insert_ne; [done|]. intros <-. by rewrite Ha0 in Hne.
Qed.

Lemma reserve_keeps_blocks m n ok m' p :
  _spmc_queue_reserve m n ok = Done (m', p) → blocks_kept m m'.
Proof.
  intros Hres. apply reserve_cases in Hres as [_ [->|Hgrew]]; [apply blocks_kept_refl|].
  destruct Hgrew as (a' & b' & k & oc & Hfresh & Hheap & Hq & _).
  split.
  - rewrite Hheap, dom_insert_L. apply union_subseteq_r.
  - intros a b Hb Hne. rewrite Hq, Hheap. cbn.
    assert (a' ≠ a) by (intros <-; congruence).
    split; [by rewrite lookup_insert_ne|congruence].
Qed.

Lemma step_keeps_blocks m l H T E T' c m' st :
  Inv m l H T E T' → is_init c = false →
  step m c = Done (m', st) → blocks_kept m m'.
Proof.
  intros HI Hinit Hstep.
  assert (∀ item sz m1 item' r,
            spmc_queue_result_pop_st m item sz = Done (m1, item', r) →
            blocks_kept m m1) as Hpop.
  { intros item sz m1 item' r Hrun.
    destruct (pop_st_frame _ _ _ _ _ _ Hrun) as (Hheap & Hblk & _).
    by apply blocks_kept_same. }
  destruct c as [isz mx|n ok|item sz ok|item sz|item sz|item sz];
    [done|..]; cbn [step] in Hstep.
  - apply bind_done in Hstep as (m1 & Hrun & [= <- _]).
    unfold spmc_queue_reserve in Hrun. apply bind_done in Hrun as ([m2 p] & Hrun & [= <-]).
    by eapply reserve_keeps_blocks.
  - apply bind_done in Hstep as ([m1 r] & Hrun & [= <- _]). cbn [fst].
    apply push_cases in Hrun as [_ Hcases]. cbn zeta in Hcases.
    set (mr := {| heap := heap m;
                  queue := set_push_estimate_tail (queue m) (pop_tail (queue m)) |}) in *.
    assert (blocks_kept m mr) as Hmr by (by apply blocks_kept_same).
    destruct Hcases as [[_ Hp]|[[_ Hp]|(_ & m2 & p & Hres & [(_ & -> & _)|[_ Hp]])]].
    + by eapply (publish_keeps_blocks m).
    + eapply blocks_kept_trans; [exact Hmr|].
      eapply publish_keeps_blocks; [|exact Hp]. reflexivity.
    + eapply blocks_kept_trans; [exact Hmr|]. by eapply reserve_keeps_blocks.
    + eapply blocks_kept_trans; [exact Hmr|].
      eapply blocks_kept_trans; [by eapply reserve_keeps_blocks|].
      eapply publish_keeps_blocks; [|exact Hp].
      by apply reserve_cases in Hres as [-> _].
  - apply bind_done in Hstep as ([[m1 item'] r] & Hrun & [= <- _]). by eapply Hpop.
  - apply bind_done in Hstep as ([[m1 item'] r] & Hrun & [= <- _]).
    rewrite (pop_weak_alone _ _ _ _ _ _ _ _ HI) in Hrun. by eapply Hpop.
  - apply bind_done in Hstep as ([[m1 item'] r] & Hrun & [= <- _]).
    rewrite (pop_is_pop_st _ _ _ _ _ _ _ _ HI) in Hrun. by eapply Hpop.
Qed.

Lemma run_keeps_blocks cs : ∀ m l H T E T' m' l',
  Inv m l H T E T' →
  forallb (λ c, negb (is_init c)) cs = true →
  run m l cs = Done (m', l') → blocks_kept m m'.
Proof.
  induction cs as [|c cs IH]; intros m l H T E T' m' l' HI Hno Hrun.
  - injection Hrun as <- <-. apply blocks_kept_refl.
  - cbn [run] in Hrun. apply bind_done in Hrun as ([m1 st] & Hstep & Hrun).
    cbn [fst snd] in Hrun. cbn [forallb] in Hno. apply andb_prop in Hno as [Hc Hno].
    apply negb_true_iff in Hc.
    destruct (step_inv _ _ _ _ _ _ _ _ _ HI Hstep) as (H1 & T1 & E1 & T1' & HI1).
    eapply blocks_kept_trans; [by eapply step_keeps_blocks|].
    by eapply IH.
Qed.

(** X22.  Blocks are retired, never freed or reused, until teardown.  Over
    any sequence of calls that does not re-initialise the queue every block
    that was allocated stays allocated, and a block that growth has replaced
    keeps its link, its mask and all its items for good and never becomes the
    current block again: a consumer that still holds a pointer to it reads
    what was there when it was retired. *)
Theorem retired_blocks_are_kept m l cs m' l' :
  reach m l →
  forallb (λ c, negb (is_init c)) cs = true →
  run m l cs = Done (m', l') →
  dom (heap m) ⊆ dom (heap m') ∧
  ∀ a b, heap m !! a = Some b → push_block (queue m) ≠ Some a →
         heap m' !! a = Some b ∧ push_block (queue m') ≠ Some a.
Proof.
  intros Hreach Hno Hrun.
  destruct (reach_inv _ _ Hreach) as (H & T & E & T' & HI).
  exact (run_keeps_blocks cs m l H T E T' m' l' HI Hno Hrun).
Qed.

Lemma retired_blocks_are_kept_witness :
  let m := machine_of (spmc_queue_reserve three_pushed 100 true ≫= λ m, mret (m, ())) in
  let cs := [Reserve 1000 true; Push (isize_bytes 3) 8 true; PopSt None 8] in
  let m' := machine_of (run m [] cs) in
  dom (heap m) ⊆ dom (heap m') ∧
  ∀ a b, heap m !! a = Some b → push_block (queue m) ≠ Some a →
         heap m' !! a = Some b ∧ push_block (queue m') ≠ Some a.
Proof.
  apply (retired_blocks_are_kept
           (machine_of (spmc_queue_reserve three_pushed 100 true ≫= λ m, mret (m, ())))
           [isize_bytes 0; isize_bytes 1; isize_bytes 2]
           [Reserve 1000 true; Push (isize_bytes 3) 8 true; PopSt None 8]
           (machine_of
              (run (machine_of (spmc_queue_reserve three_pushed 100 true
                                  ≫= λ m, mret (m, ()))) []
                 [Reserve 1000 true; Push (isize_bytes 3) 8 true; PopSt None 8]))
           [isize_bytes 1; isize_bytes 2; isize_bytes 3]).
  - apply (reach_step three_pushed [isize_bytes 0; isize_bytes 1; isize_bytes 2]
             (Reserve 100 true) _ SPMC_QUEUE_OK reach_three_pushed).
    vm_compute. reflexivity.
  - reflexivity.
  - vm_compute. reflexivity.
Defined.

(** X23.  The byte size handed to [malloc] is computed in [uint64_t] and not
    checked.  On a fresh unbounded queue of 8-byte items, [reserve(2^61)]
    with a [malloc] that answers asks for
    [sizeof(SPMC_Queue_Block) + 2^61 * 8 = 16] bytes modulo [2^64]: the call
    returns, [capacity()] reports [2^61], the installed block has no byte for
    items, and the next [push_st] copies its item outside the block. *)
Theorem reserve_size_wraps_around :
  ∃ m1 a b,
    spmc_queue_reserve (fresh_queue (-1)) (2 ^ 61) true = Done m1 ∧
    spmc_queue_capacity m1 = Done (2 ^ 61) ∧
    push_block (queue m1) = Some a ∧ heap m1 !! a = Some b ∧ blk_size b = 0 ∧
    ¬ bytes_fit (2 ^ 61) 8 ∧
    spmc_queue_result_push_st m1 (isize_bytes 7) 8 true = Fault.
Proof.
  exists (machine_of (m ← spmc_queue_reserve (fresh_queue (-1)) (2 ^ 61) true; mret (m, ()))).
  eexists _, _.
  split_and!; [vm_compute; reflexivity..|reflexivity|vm_compute; by intros [=]|
               vm_compute; reflexivity].
Qed.

(** ** A block whose byte size wrapped *)

Lemma write_bytes_in bs : ∀ d off j,
  off ≤ j < off + Z.of_nat (length bs) →
  write_bytes d off bs !! j = bs !! Z.to_nat (j - off).
Proof.
  induction bs as [|x bs IH]; intros d off j Hj; cbn [write_bytes length] in *; [lia|].
  destruct (decide (j = off)) as [->|Hne].
  - by rewrite lookup_insert_eq, Z.sub_diag.
  - rewrite lookup_insert_ne by done. rewrite IH by lia.
    by replace (Z.to_nat (j - off)) with (S (Z.to_nat (j - (off + 1)))) by lia.
Qed.

Lemma read_bytes_first d off n bs :
  read_bytes d off (S n) = Some bs → d !! off = head bs.
Proof.
  cbn [read_bytes]. destruct (d !! off) as [x|]; [|done].
  destruct (read_bytes d (off + 1) n); [|done]. by intros [= <-].
Qed.

(** On an empty queue nothing is copied into the new block. *)
Lemma migrate_empty m H E T' nb :
  Inv m [] H H E T' → migrate m (push_block (queue m)) nb = Done nb.
Proof.
  intros HI. pose proof (inv_storage _ _ _ _ _ _ HI) as Hst.
  unfold migrate, block_ok in *. destruct (push_block (queue m)) as [oa|]; [|done].
  destruct Hst as (b & k & addrs & Hb & _). unfold deref. rewrite Hb.
  cbn [mbind outcome_bind].
  rewrite (inv_tail _ _ _ _ _ _ HI), (inv_head _ _ _ _ _ _ HI), Z.sub_diag.
  change (Z.to_nat (- i64 (u64 0))) with 0%nat. cbn [copy_live].
  by rewrite Z.sub_diag.
Qed.

(** A push and a pop, over and over, on an empty unbounded queue of at most
    64 slots: the counters advance, the queue stays empty. *)
Lemma push_pop_pairs (n : nat) : ∀ m H E T' c,
  reach m [] → Inv m [] H H E T' → capacity_is m c → c ≤ 2 ^ 6 →
  push_max_capacity (queue m) < 0 →
  ∃ m' E' T'' c',
    reach m' [] ∧ Inv m' [] (H + Z.of_nat n) (H + Z.of_nat n) E' T'' ∧
    capacity_is m' c' ∧ c' ≤ 2 ^ 6 ∧
    push_max_capacity (queue m') < 0 ∧
    push_item_size (queue m') = push_item_size (queue m).
Proof.
  induction n as [|n IH]; intros m H E T' c Hreach HI Hc Hc6 Hmax.
  - exists m, E, T', c. rewrite Z.add_0_r. by split_and!.
  - remember (push_item_size (queue m)) as sz eqn:Hsz.
    pose proof (inv_size_pos _ _ _ _ _ _ HI) as Hsp. rewrite <- Hsz in Hsp.
    pose proof (inv_size_eq _ _ _ _ _ _ HI) as Hse.
    remember (replicate (Z.to_nat sz) x00) as item eqn:Hitem.
    assert (Z.of_nat (length item) = sz) as Hlen.
    { rewrite Hitem, length_replicate. lia. }
    destruct (push_total m [] H H E T' c item sz 6 HI Hc Hsz ltac:(lia) ltac:(lia) Hc6
                (bytes_fit_64 sz ltac:(lia)))
      as (m1 & r1 & c1 & Hpush & Hok1 & Hc1 & Hc16).
    { right. split; [|by left]. rewrite Z.sub_diag. by apply (pow2_le_mono 0 6). }
    destruct (push_inv _ _ _ _ _ _ _ _ _ _ _ HI Hpush) as [_ [[_ [T1 HI1]]|[Hfull _]]];
      [|congruence].
    cbn [app] in HI1.
    destruct (push_frame _ _ _ _ _ _ Hpush) as (Hsz1 & Hpsz1 & Hmax1 & _).
    assert (reach m1 [take (Z.to_nat sz) item]) as Hreach1.
    { apply (reach_step m [] (Push item sz true) m1 SPMC_QUEUE_OK Hreach).
      cbn [step]. rewrite Hpush. cbn [mbind outcome_bind mret outcome_ret fst snd].
      by rewrite Hok1. }
    destruct (pop_st_item m1 _ [] _ _ _ _ c1 None sz HI1 ltac:(congruence) Hc1)
      as (m2 & r2 & E2 & Hpop & Hr2 & _ & _ & _ & HI2).
    { apply (bytes_fit_mono c1 (2 ^ 6)); [lia|done|apply bytes_fit_64; lia]. }
    cbn [copy_out mbind outcome_bind mret outcome_ret] in Hpop.
    assert (reach m2 []) as Hreach2.
    { apply (reach_step m1 _ (PopSt None sz) m2 SPMC_QUEUE_OK Hreach1).
      cbn [step]. rewrite Hpop. cbn [mbind outcome_bind mret outcome_ret fst snd].
      by rewrite Hr2. }
    destruct (pop_st_keeps _ _ _ _ _ _ c1 Hpop Hc1) as (Hc2 & _ & Hsz2).
    destruct (pop_st_frame _ _ _ _ _ _ Hpop) as (_ & _ & _ & _ & Hmax2).
    destruct (IH m2 (H + 1) E2 T1 c1 Hreach2 HI2 Hc2 Hc16 ltac:(lia))
      as (m' & E' & T'' & c' & ? & HI' & ? & ? & ? & Hsz').
    exists m', E', T'', c'.
    replace (H + Z.of_nat (S n)) with (H + 1 + Z.of_nat n) by lia.
    split_and!; try done. congruence.
Qed.

Section wrapped.
Variables (sz k N B o0 o1 o2 o3 : Z).
Hypothesis Hsz : 0 < sz ≤ UINT32_MAX.
Hypothesis Hk : 7 ≤ k ≤ 62.
Hypothesis HN : 0 ≤ N.
Hypothesis Hsize : u64 (SIZEOF_BLOCK + u64 (2 ^ k * sz)) = SIZEOF_BLOCK + B.
Hypothesis Ho0 : u64 (N mod 2 ^ k * sz) = o0.
Hypothesis Ho1 : u64 ((N + 1) mod 2 ^ k * sz) = o1.
Hypothesis Ho2 : u64 ((N + 2) mod 2 ^ k * sz) = o2.
Hypothesis Ho3 : u64 ((N + 3) mod 2 ^ k * sz) = o3.
Hypothesis Hin0 : o0 + sz ≤ B.
Hypothesis Hin1 : o1 + sz ≤ B.
Hypothesis Hin2 : o2 + sz ≤ B.
Hypothesis Hin3 : o3 + sz ≤ B.
Hypothesis Hover : o3 ≤ o0 < o3 + sz.

(** [reserve(2^k)] on an empty queue of at most 64 slots installs a block of
    [B] bytes. *)
Lemma reserve_wrapped m H E T' c :
  Inv m [] H H E T' → capacity_is m c → c ≤ 2 ^ 6 →
  push_item_size (queue m) = sz → push_max_capacity (queue m) < 0 →
  ∃ m' a b,
    _spmc_queue_reserve m (2 ^ k) true = Done (m', Some a) ∧
    push_block (queue m') = Some a ∧ heap m' !! a = Some b ∧
    blk_mask b = 2 ^ k - 1 ∧ blk_size b = B ∧
    push_item_size (queue m') = sz.
Proof.
  intros HI Hc Hc6 Hpsz Hmax.
  destruct (capacity_inv _ _ _ _ _ _ HI) as (c' & _ & Hc' & Hcap & _).
  rewrite <- (capacity_is_fun _ _ _ Hc Hc') in *. clear c' Hc'.
  pose proof (pow2_le_mono 6 7 ltac:(lia)) as H67.
  pose proof (Z.pow_lt_mono_r 2 6 7 ltac:(lia) ltac:(lia) ltac:(lia)) as H67'.
  pose proof (pow2_le_mono 7 k ltac:(lia)) as Hk7.
  pose proof (pow2_le_mono k 62 ltac:(lia)) as Hk62.
  pose proof (u64_nonneg (N mod 2 ^ k * sz)) as Hpos0. rewrite Ho0 in Hpos0.
  destruct (grow_capacity_done 64 6 (2 ^ k)) as [c2 Hgrow]; [lia..|].
  destruct (grow_capacity_inv 64 6 (2 ^ k) c2 ltac:(lia) Hgrow) as (k2 & Hk2 & -> & Hnk & Hmin).
  change (2 ^ 6) with 64 in Hgrow.
  assert (k2 = k) as ->.
  { assert (k2 - 1 < k).
    { destruct (decide (k2 = 6)) as [->|]; [lia|]. apply pow2_lt_inv; lia. }
    destruct (decide (k2 < k)) as [Hlt|]; [|lia].
    pose proof (Z.pow_lt_mono_r 2 k2 k ltac:(lia) ltac:(lia) Hlt). lia. }
  unfold _spmc_queue_reserve. rewrite Hcap. cbn [mbind outcome_bind].
  destruct (Z.ltb_spec c (2 ^ k)); [|lia]. cbn [andb].
  assert ((2 ^ k <=? (if 0 <=? push_max_capacity (queue m)
                      then push_max_capacity (queue m) else INT64_MAX)) = true) as ->.
  { apply Z.leb_le. destruct (Z.leb_spec 0 (push_max_capacity (queue m))); [lia|].
    unfold INT64_MAX. pose proof (pow2_le_mono 62 63 ltac:(lia)). lia. }
  rewrite Hgrow. cbn [mbind outcome_bind malloc].
  rewrite Hpsz, Hsize.
  destruct (Z.ltb_spec (SIZEOF_BLOCK + B) SIZEOF_BLOCK); [lia|].
  rewrite u64_mask by lia.
  rewrite (migrate_empty m H E T' _ HI). cbn [mbind outcome_bind mret outcome_ret].
  eexists _, _, _. split; [done|]. cbn. rewrite lookup_insert_eq.
  split_and!; [done|done|done|cbn; lia|done].
Qed.

(** A push into a block of [B] bytes, at a position whose slot lies inside. *)
Lemma push_wrapped m l H T E T' a b item o :
  Inv m l H T E T' →
  push_block (queue m) = Some a → heap m !! a = Some b →
  blk_mask b = 2 ^ k - 1 → blk_size b = B →
  push_item_size (queue m) = sz →
  H - T < 2 ^ k →
  Z.of_nat (length item) = sz →
  u64 (H mod 2 ^ k * sz) = o → o + sz ≤ B →
  ∃ m' r T'',
    spmc_queue_result_push_st m item sz true = Done (m', r) ∧
    res_state r = SPMC_QUEUE_OK ∧
    Inv m' (l ++ [item]) (H + 1) T E T'' ∧
    push_block (queue m') = Some a ∧
    heap m' !! a = Some (store_item b o item) ∧
    push_item_size (queue m') = sz.
Proof.
  intros HI Ha Hb Hmask Hsize' Hpsz Hroom Hlen Ho Hin.
  assert (capacity_is m (2 ^ k)) as Hc.
  { unfold capacity_is. rewrite Ha. exists b. split; [done|lia]. }
  pose proof (inv_list_small _ _ _ _ _ _ HI) as [Hl1 Hl2].
  pose proof (inv_order _ _ _ _ _ _ HI) as Hord.
  pose proof (u64_nonneg (H mod 2 ^ k * sz)) as Hpos. rewrite Ho in Hpos.
  destruct (no_room_inv m l H T E T' (u64 T') T' HI) as (c1 & Hc1 & _ & Hno1); [lia..|done|].
  destruct (no_room_inv m l H T E T' (u64 T) T HI) as (c2 & Hc2 & _ & Hno2); [lia..|done|].
  rewrite <- (capacity_is_fun _ _ _ Hc Hc1) in Hno1.
  rewrite <- (capacity_is_fun _ _ _ Hc Hc2) in Hno2. clear c1 c2 Hc1 Hc2.
  rewrite (bool_decide_eq_false_2 (2 ^ k ≤ H - T)) in Hno2 by lia.
  assert (∀ m1 tl, heap m1 = heap m →
            push_publish m1 (Some a) (u64 H) tl item sz =
              Done ({| heap := <[a := store_item b o item]> (heap m);
                       queue := set_push_head (queue m1) (u64 (u64 H + 1)) |},
                    {| res_head := u64 H; res_tail := tl; res_state := SPMC_QUEUE_OK |}))
    as Hpub.
  { intros m1 tl Hheap. unfold push_publish, deref. rewrite Hheap, Hb.
    cbn [mbind outcome_bind].
    destruct (Z.ltb_spec (Z.of_nat (length item)) sz); [lia|].
    unfold _spmc_queue_slot. cbn zeta. rewrite Hmask, land_mask by lia. rewrite Ho.
    assert (in_block b o sz = true) as ->.
    { unfold in_block. rewrite Hsize'.
      rewrite !andb_true_iff, !Z.leb_le. lia. }
    by rewrite take_ge by lia. }
  assert (∃ m' r, spmc_queue_result_push_st m item sz true = Done (m', r) ∧
                  res_state r = SPMC_QUEUE_OK ∧
                  heap m' = <[a := store_item b o item]> (heap m) ∧
                  push_block (queue m') = Some a ∧
                  push_item_size (queue m') = sz) as (m' & r & Hpush & Hr & Hheap & Hblk & Hsz').
  { unfold spmc_queue_result_push_st. rewrite Hpsz, Z.eqb_refl. cbn zeta.
    rewrite (inv_est_tail _ _ _ _ _ _ HI), (inv_head _ _ _ _ _ _ HI), Hno1.
    cbn [mbind outcome_bind heap].
    destruct (decide (2 ^ k ≤ H - T')) as [Hfull1|Hfull1];
      [rewrite bool_decide_eq_true_2 by done|rewrite bool_decide_eq_false_2 by done].
    - rewrite (inv_tail _ _ _ _ _ _ HI), Hno2. cbn [mbind outcome_bind].
      rewrite Ha, Hpub by done. eexists _, _. split; [done|]. by cbn.
    - rewrite Ha, Hpub by done. eexists _, _. split; [done|]. by cbn. }
  destruct (push_inv _ _ _ _ _ _ _ _ _ _ _ HI Hpush) as [_ [[_ [T'' HI']]|[Hfull _]]];
    [|congruence].
  rewrite take_ge in HI' by lia.
  exists m', r, T''. split_and!; try done. by rewrite Hheap, lookup_insert_eq.
Qed.

(** The run: [N] pushes each followed by a pop, [reserve(2^k)], then four
    pushes.  All of them return and report OK, and the fourth has written over
    the first bytes of the first. *)
Lemma wrapped_block_loses_item m0 old new x y :
  spmc_queue_init machine_zero sz (-1) = Done m0 →
  Z.of_nat (length old) = sz → Z.of_nat (length new) = sz →
  head old = Some x → new !! Z.to_nat (o0 - o3) = Some y → x ≠ y →
  ∃ m1 m2 rs,
    reach m1 [] ∧ pop_item_size (queue m1) = sz ∧
    push_head (queue m1) = u64 N ∧ pop_tail (queue m1) = u64 N ∧
    spmc_queue_capacity m1 = Done (2 ^ k) ∧
    push_all m1 [(old, true); (old, true); (old, true); (new, true)] sz = Done (m2, rs) ∧
    Forall (λ r, res_state r = SPMC_QUEUE_OK) rs ∧
    reach m2 [old; old; old; new] ∧
    ∀ buf m' r, Z.of_nat (length buf) = sz →
      spmc_queue_result_pop_st m2 (Some buf) sz ≠ Done (m', Some old, r).
Proof.
  intros Hinit Hold Hnew Hx Hy Hxy.
  pose proof (reach_fresh _ _ _ Hinit) as Hreach0.
  pose proof (init_inv _ _ _ _ Hinit) as HI0.
  destruct (init_done_inv _ _ _ _ Hinit) as (_ & h & Hq0 & _).
  assert (capacity_is m0 0) as Hc0 by (unfold capacity_is; by rewrite Hq0).
  assert (push_max_capacity (queue m0) < 0) as Hmax0 by (by rewrite Hq0).
  assert (push_item_size (queue m0) = sz) as Hsz0 by (by rewrite Hq0).
  pose proof (pow2_pos 6 ltac:(lia)) as H6.
  destruct (push_pop_pairs (Z.to_nat N) m0 0 0 0 0 Hreach0 HI0 Hc0 ltac:(lia) Hmax0)
    as (ma & Ea & Ta & ca & Hreacha & HIa & Hca & Hca6 & Hmaxa & Hsza).
  rewrite Z.add_0_l, Z2Nat.id in HIa by done.
  destruct (reserve_wrapped ma N Ea Ta ca HIa Hca Hca6 ltac:(congruence) Hmaxa)
    as (m1 & a & b1 & Hres & Hblk1 & Hb1 & Hmask1 & Hsize1 & Hsz1).
  pose proof (reserve_inv _ _ _ _ _ _ _ _ _ _ HIa Hres) as HI1.
  assert (reach m1 []) as Hreach1.
  { apply (reach_step ma [] (Reserve (2 ^ k) true) m1 SPMC_QUEUE_OK Hreacha).
    cbn [step]. unfold spmc_queue_reserve. rewrite Hres. done. }
  pose proof (pow2_pos k ltac:(lia)) as Hkpos.
  pose proof (pow2_le_mono 2 k ltac:(lia)) as Hk2. change (2 ^ 2) with 4 in Hk2.
  destruct (push_wrapped m1 [] N N Ea Ta a b1 old o0 HI1 Hblk1 Hb1 Hmask1 Hsize1 Hsz1
              ltac:(lia) Hold Ho0 Hin0)
    as (m2 & r2 & T2 & Hpush2 & Hr2 & HI2 & Hblk2 & Hb2 & Hsz2).
  destruct (push_wrapped m2 _ (N + 1) N Ea T2 a _ old o1 HI2 Hblk2 Hb2 Hmask1 Hsize1 Hsz2
              ltac:(lia) Hold Ho1 Hin1)
    as (m3 & r3 & T3 & Hpush3 & Hr3 & HI3 & Hblk3 & Hb3 & Hsz3).
  replace (N + 1 + 1) with (N + 2) in HI3 by lia.
  destruct (push_wrapped m3 _ (N + 2) N Ea T3 a _ old o2 HI3 Hblk3 Hb3 Hmask1 Hsize1 Hsz3
              ltac:(lia) Hold Ho2 Hin2)
    as (m4 & r4 & T4 & Hpush4 & Hr4 & HI4 & Hblk4 & Hb4 & Hsz4).
  replace (N + 2 + 1) with (N + 3) in HI4 by lia.
  destruct (push_wrapped m4 _ (N + 3) N Ea T4 a _ new o3 HI4 Hblk4 Hb4 Hmask1 Hsize1 Hsz4
              ltac:(lia) Hnew Ho3 Hin3)
    as (m5 & r5 & T5 & Hpush5 & Hr5 & HI5 & Hblk5 & Hb5 & Hsz5).
  cbn [app] in HI2, HI3, HI4, HI5.
  exists m1, m5, [r2; r3; r4; r5].
  assert (∀ m l item m' r, reach m l → Z.of_nat (length item) = sz →
            spmc_queue_result_push_st m item sz true = Done (m', r) →
            res_state r = SPMC_QUEUE_OK → reach m' (l ++ [item])) as Hstep.
  { intros m l item m' r Hreach Hlen Hpush Hr.
    rewrite <- (take_ge item (Z.to_nat sz)) by lia.
    apply (reach_step m l (Push item sz true) m' SPMC_QUEUE_OK Hreach).
    cbn [step]. rewrite Hpush. cbn [mbind outcome_bind mret outcome_ret fst snd].
    by rewrite Hr. }
  split_and!.
  - done.
  - by rewrite (inv_size_eq _ _ _ _ _ _ HI1).
  - apply (inv_head _ _ _ _ _ _ HI1).
  - apply (inv_tail _ _ _ _ _ _ HI1).
  - destruct (capacity_inv _ _ _ _ _ _ HI1) as (c1 & -> & Hc1 & _).
    f_equal. apply (capacity_is_fun m1); [done|].
    unfold capacity_is. rewrite Hblk1. exists b1. split; [done|lia].
  - cbn [push_all fst snd]. rewrite Hpush2. cbn [mbind outcome_bind fst snd].
    rewrite Hpush3. cbn [mbind outcome_bind fst snd].
    rewrite Hpush4. cbn [mbind outcome_bind fst snd].
    rewrite Hpush5. done.
  - by repeat constructor.
  - pose proof (Hstep _ _ _ _ _ Hreach1 Hold Hpush2 Hr2) as R2.
    pose proof (Hstep _ _ _ _ _ R2 Hold Hpush3 Hr3) as R3.
    pose proof (Hstep _ _ _ _ _ R3 Hold Hpush4 Hr4) as R4.
    exact (Hstep _ _ _ _ _ R4 Hnew Hpush5 Hr5).
  - intros buf m' r Hbuf Hpop.
    destruct (pop_st_steps m5 old _ _ _ _ _ (Some buf) sz HI5)
      as (m6 & r6 & E6 & Heq & _).
    { by rewrite (inv_size_eq _ _ _ _ _ _ HI5). }
    rewrite Heq in Hpop. apply bind_done in Hpop as (it & Hcopy & Hret).
    injection Hret as _ -> _.
    unfold pop_copy in Hcopy.
    rewrite (inv_block_eq _ _ _ _ _ _ HI5), Hblk5 in Hcopy.
    unfold deref in Hcopy. rewrite Hb5 in Hcopy. cbn [mbind outcome_bind] in Hcopy.
    apply bind_done in Hcopy as (bytes & Hload & Hrest).
    destruct (Z.ltb_spec (Z.of_nat (length buf)) sz); [done|].
    injection Hrest as Hrest.
    rewrite drop_ge, app_nil_r in Hrest by lia. subst bytes.
    unfold load_item in Hload. destruct (in_block _ _ _); [|done].
    destruct (read_bytes _ _ _) as [bytes|] eqn:Hread; [|done].
    injection Hload as ->.
    unfold _spmc_queue_slot in Hread. cbn [store_item blk_mask blk_data] in Hread.
    rewrite Hmask1, land_mask, Ho0 in Hread by lia.
    replace (Z.to_nat sz) with (S (Z.to_nat (sz - 1))) in Hread by lia.
    apply read_bytes_first in Hread.
    rewrite write_bytes_in, Hy, Hx in Hread by lia.
    congruence.
Qed.

(** The same with items of zeros and a last item of ones. *)
Lemma wrapped_run m0 :
  spmc_queue_init machine_zero sz (-1) = Done m0 →
  ∃ m1 m2 rs old new,
    reach m1 [] ∧ pop_item_size (queue m1) = sz ∧
    push_head (queue m1) = u64 N ∧ pop_tail (queue m1) = u64 N ∧
    spmc_queue_capacity m1 = Done (2 ^ k) ∧
    Z.of_nat (length old) = sz ∧ Z.of_nat (length new) = sz ∧
    push_all m1 [(old, true); (old, true); (old, true); (new, true)] sz = Done (m2, rs) ∧
    Forall (λ r, res_state r = SPMC_QUEUE_OK) rs ∧
    reach m2 [old; old; old; new] ∧
    ∀ buf m' r, Z.of_nat (length buf) = sz →
      spmc_queue_result_pop_st m2 (Some buf) sz ≠ Done (m', Some old, r).
Proof.
  intros Hinit.
  assert (Z.of_nat (length (replicate (Z.to_nat sz) x00)) = sz) as Hold.
  { rewrite length_replicate. lia. }
  assert (Z.of_nat (length (replicate (Z.to_nat sz) x01)) = sz) as Hnew.
  { rewrite length_replicate. lia. }
  destruct (wrapped_block_loses_item m0 (replicate (Z.to_nat sz) x00)
              (replicate (Z.to_nat sz) x01) x00 x01 Hinit Hold Hnew)
    as (m1 & m2 & rs & ? & ? & ? & ? & ? & ? & ? & ? & ?).
  - rewrite head_lookup. apply lookup_replicate_2. lia.
  - apply lookup_replicate_2. lia.
  - done.
  - exists m1, m2, rs, (replicate (Z.to_nat sz) x00), (replicate (Z.to_nat sz) x01).
    by split_and!.
Qed.

End wrapped.

(** X24.  Once the byte size of a block has wrapped, the content is not
    safe.  With items of [2^31 + 1] bytes, [2^33 - 3] pushes each followed by
    a pop leave an empty queue whose counters stand at [2^33 - 3]; then
    [reserve(2^33)] asks [malloc] for [16 + 2^33 * (2^31 + 1) = 16 + 2^33]
    bytes modulo [2^64] and installs the block.  The four pushes that follow
    all report OK, at the offsets [2^31 - 3], [2^32 - 2], [3 * 2^31 - 1] and
    [0], all inside the block; the fourth writes over the first bytes of the
    first item, and [pop_st] does not return the oldest item. *)
Theorem wrapped_size_loses_items :
  ∃ m1 m2 rs old new,
    reach m1 [] ∧ pop_item_size (queue m1) = 2 ^ 31 + 1 ∧
    push_head (queue m1) = 2 ^ 33 - 3 ∧ pop_tail (queue m1) = 2 ^ 33 - 3 ∧
    spmc_queue_capacity m1 = Done (2 ^ 33) ∧
    ¬ bytes_fit (2 ^ 33) (2 ^ 31 + 1) ∧
    Z.of_nat (length old) = 2 ^ 31 + 1 ∧ Z.of_nat (length new) = 2 ^ 31 + 1 ∧
    push_all m1 [(old, true); (old, true); (old, true); (new, true)] (2 ^ 31 + 1)
      = Done (m2, rs) ∧
    Forall (λ r, res_state r = SPMC_QUEUE_OK) rs ∧
    reach m2 [old; old; old; new] ∧
    ∀ buf m' r, Z.of_nat (length buf) = 2 ^ 31 + 1 →
      spmc_queue_result_pop_st m2 (Some buf) (2 ^ 31 + 1) ≠ Done (m', Some old, r).
Proof.
  destruct (wrapped_run (2 ^ 31 + 1) 33 (2 ^ 33 - 3) (2 ^ 33)
              (2 ^ 31 - 3) (2 ^ 32 - 2) (3 * 2 ^ 31 - 1) 0)
    with (m0 := machine_of (m ← spmc_queue_init machine_zero (2 ^ 31 + 1) (-1); mret (m, ())))
    as (m1 & m2 & rs & old & new & ? & ? & Hhead & Htail & ? & ? & ? & ? & ? & ? & ?).
  - split; [reflexivity|vm_compute; discriminate].
  - split; vm_compute; discriminate.
  - vm_compute. discriminate.
  - vm_compute. reflexivity.
  - vm_compute. reflexivity.
  - vm_compute. reflexivity.
  - vm_compute. reflexivity.
  - vm_compute. reflexivity.
  - vm_compute. discriminate.
  - vm_compute. discriminate.
  - vm_compute. discriminate.
  - vm_compute. discriminate.
  - split; [vm_compute; discriminate|reflexivity].
  - vm_compute. reflexivity.
  - exists m1, m2, rs, old, new. by split_and!.
Qed.

